(** * ClauseCopilot: segmentation, evidence selection, JSON extraction, retry

    A shallow embedding of [core/chunking.py], [core/retrieval.py] and
    [core/agents.py], and the properties of the specification proved or
    refuted on it; then of [core/ingest.py], [core/vectorstore.py],
    [core/playbooks.py], [core/storage.py] and [core/embeddings.py], with
    further properties of the code.

    Python strings are sequences of Unicode code points: a [pystr] is a
    [list N].  Python integers are [Z]; lengths and indices are [nat] and are
    injected into [Z] where the source compares them with an [int]. *)

From Stdlib Require Import ZArith NArith String Ascii Lia DecimalString
  DecimalPos DecimalZ.
From stdpp Require Import base list gmap sorting.

Local Open Scope Z_scope.

(* ===================================================================== *)
(** * Part I: definitions                                                  *)
(* ===================================================================== *)

(** ** Python strings *)

Definition pystr := list N.

(** A literal: the code points of an ASCII Rocq string. *)
Definition str (s : string) : pystr := map N_of_ascii (list_ascii_of_string s).

(** A literal in which the apostrophe stands for the double quote
    (code point 34), to write JSON texts. *)
Definition jstr (s : string) : pystr :=
  map (fun c => if N.eqb c 39 then 34%N else c) (str s).

Definition nl : pystr := [10%N].

Definition in_range (lo hi c : N) : bool := (N.leb lo c) && (N.leb c hi).

(** [str.isspace] on one character, which is also what [str.strip] removes
    and what [\s] matches in a [str] pattern. *)
Definition is_space (c : N) : bool :=
  in_range 9 13 c || in_range 28 32 c || N.eqb c 133 || N.eqb c 160
  || N.eqb c 5760 || in_range 8192 8202 c || N.eqb c 8232 || N.eqb c 8233
  || N.eqb c 8239 || N.eqb c 8287 || N.eqb c 12288.

(** The line boundaries of [str.splitlines]. *)
Definition is_linebreak (c : N) : bool :=
  in_range 10 13 c || in_range 28 30 c || N.eqb c 133
  || N.eqb c 8232 || N.eqb c 8233.

(** First code points of the runs of ten decimal digits (general category
    Nd, Unicode 15), which is what [\d] matches in a [str] pattern. The
    mathematical digits 0x1D7CE-0x1D7FF are five consecutive runs. *)
Definition decimal_runs : list N :=
  [48; 1632; 1776; 1984; 2406; 2534; 2662; 2790; 2918; 3046; 3174; 3302;
   3430; 3558; 3664; 3792; 3872; 4160; 4240; 6112; 6160; 6470; 6608; 6784;
   6800; 6992; 7088; 7232; 7248; 42528; 43216; 43264; 43472; 43504; 43600;
   44016; 65296; 66720; 68912; 69734; 69872; 69942; 70096; 70384; 70736;
   70864; 71248; 71360; 71472; 71904; 72016; 72784; 73040; 73120; 73552;
   92768; 92864; 93008; 120782; 120792; 120802; 120812; 120822; 123200;
   123632; 124144; 125264; 130032]%N.

Definition is_digit (c : N) : bool :=
  existsb (fun lo => in_range lo (lo + 9) c) decimal_runs.

(** [A-Z] *)
Definition is_upper (c : N) : bool := in_range 65 90 c.

Definition len (s : pystr) : Z := Z.of_nat (length s).

(** The longest prefix whose characters satisfy [p], and what follows it. *)
Fixpoint takewhile (p : N -> bool) (s : pystr) : pystr :=
  match s with
  | c :: s' => if p c then c :: takewhile p s' else []
  | [] => []
  end.

Fixpoint dropwhile (p : N -> bool) (s : pystr) : pystr :=
  match s with
  | c :: s' => if p c then dropwhile p s' else s
  | [] => []
  end.

(** [s.lstrip()], [s.rstrip()], [s.strip()] *)
Definition lstrip (s : pystr) : pystr := dropwhile is_space s.
Definition rstrip (s : pystr) : pystr := rev (dropwhile is_space (rev s)).
Definition strip (s : pystr) : pystr := rstrip (lstrip s).

(** [t[:k]] and [t[k:]] for a Python integer [k]: a negative index counts
    from the end, and both are clipped to the string. *)
Definition slice_to {A} (t : list A) (k : Z) : list A :=
  if k <? 0 then take (Z.to_nat (Z.of_nat (length t) + k)) t
  else take (Z.to_nat k) t.
Definition slice_from {A} (t : list A) (k : Z) : list A :=
  if k <? 0 then drop (Z.to_nat (Z.of_nat (length t) + k)) t
  else drop (Z.to_nat k) t.

(** [sep.join(parts)] *)
Fixpoint join (sep : pystr) (parts : list pystr) : pystr :=
  match parts with
  | [] => []
  | [p] => p
  | p :: ps => p ++ sep ++ join sep ps
  end.

(** [text.splitlines()]. [split_breaks] cuts at every line boundary (a
    carriage return directly followed by a line feed is one boundary) and
    returns the pieces, the last one being what follows the last boundary;
    [splitlines] drops that last piece when it is empty. *)
Fixpoint split_breaks (after_cr : bool) (s : pystr) : list pystr :=
  match s with
  | [] => [[]]
  | c :: s' =>
      if after_cr && N.eqb c 10 then split_breaks false s'
      else if is_linebreak c then [] :: split_breaks (N.eqb c 13) s'
      else match split_breaks false s' with
           | l :: ls => (c :: l) :: ls
           | [] => [[c]]
           end
  end.

Definition drop_last_empty (ls : list pystr) : list pystr :=
  match last ls with
  | Some [] => removelast ls
  | _ => ls
  end.

Definition splitlines (s : pystr) : list pystr :=
  drop_last_empty (split_breaks false s).

Definition nonempty (s : pystr) : bool :=
  match s with [] => false | _ => true end.

(** [a or b] on strings: the empty string is falsy. *)
Definition str_or (a b : pystr) : pystr := if nonempty a then a else b.

(** ** core/chunking.py *)

(** *** SECTION_RE

    The pattern, written with spaces between its parts, is
    [^ \s* ( ( \d+ ( \. \d+ )* ) \s+ | SECTION \s+ \d+ | [A-Z] [A-Z\s]{4,} )],
    used with [match]. No alternative starts with a whitespace character, so [\s*]
    takes the whole leading run; in the first alternative a digit is neither
    a dot nor whitespace and a dot is not whitespace, so the greedy choices
    are the only ones. *)

(** [( \. \d+ )*]: drop the groups of a dot and at least one digit. The fuel
    bounds the number of groups by the length of the text. *)
Fixpoint skip_dot_groups (fuel : nat) (s : pystr) : pystr :=
  match fuel with
  | O => s
  | S f =>
      match s with
      | 46%N :: d :: s' =>
          if is_digit d then skip_dot_groups f (dropwhile is_digit s') else s
      | _ => s
      end
  end.

Definition starts_with_space (s : pystr) : bool :=
  match s with c :: _ => is_space c | [] => false end.

Definition starts_with_digit (s : pystr) : bool :=
  match s with c :: _ => is_digit c | [] => false end.

(** [( \d+ ( \. \d+ )* ) \s+] *)
Definition match_outline (s : pystr) : bool :=
  starts_with_digit s
  && starts_with_space (skip_dot_groups (length s) (dropwhile is_digit s)).

Fixpoint starts_with (p s : pystr) : bool :=
  match p, s with
  | [], _ => true
  | a :: p', b :: s' => N.eqb a b && starts_with p' s'
  | _ :: _, [] => false
  end.

(** [SECTION\s+\d+] *)
Definition match_section_word (s : pystr) : bool :=
  starts_with (str "SECTION") s
  && starts_with_space (drop 7 s)
  && starts_with_digit (dropwhile is_space (drop 7 s)).

(** [[A-Z][A-Z\s]{4,}] *)
Definition match_caps (s : pystr) : bool :=
  match s with
  | c :: s' =>
      is_upper c
      && (4 <=? length (takewhile (fun x => is_upper x || is_space x) s'))%nat
  | [] => false
  end.

Definition SECTION_RE_match (ln : pystr) : bool :=
  let s := dropwhile is_space ln in
  match_outline s || match_section_word s || match_caps s.

(** *** SENTENCE_END_RE

    [[.!?]\s+]. A match starts at a terminal punctuation character followed
    by whitespace and takes the whole whitespace run; the characters of the
    run start no match, so scanning on from the next character finds the
    same matches as resuming at the end of the match. [finditer] gives the
    (start, end) of every match, in order. *)
Definition is_sentence_punct (c : N) : bool :=
  N.eqb c 46 || N.eqb c 33 || N.eqb c 63.

Fixpoint SENTENCE_END_RE_finditer (pos : nat) (w : pystr) : list (nat * nat) :=
  match w with
  | [] => []
  | c :: w' =>
      if is_sentence_punct c && starts_with_space w'
      then (pos, pos + 1 + length (takewhile is_space w'))%nat
             :: SENTENCE_END_RE_finditer (S pos) w'
      else SENTENCE_END_RE_finditer (S pos) w'
  end.

Definition DEFAULT_MAX_CHARS : Z := 1800.

Definition _split_at_sentence (t : pystr) (max_len : Z) : pystr * pystr :=
  if len t <=? max_len then (t, [])
  else
    let window := slice_to t (max_len + 1) in
    match last (SENTENCE_END_RE_finditer 0 window) with
    | Some (_, e) =>
        (strip (slice_to t (Z.of_nat e)), strip (slice_from t (Z.of_nat e)))
    | None => (strip (slice_to t max_len), strip (slice_from t max_len))
    end.

(** A chunk: the dictionary with the keys "section" and "text". Every chunk
    the segmenter builds has a string under both keys. *)
Record chunk := Chunk { section : pystr; text : pystr }.

Definition UNKNOWN : pystr := str "UNKNOWN".
Definition cont_suffix : pystr := str " (cont.)".

(** [re.split(r"\n\s*\n", text)]. At a line feed the separator matches when
    the whitespace run after it holds another line feed, and (greedy [\s*],
    then backtracking to a line feed) it ends at the last line feed of that
    run. [last_newline_in_run] is the number of characters after the first
    line feed that the separator takes. *)
Fixpoint last_index_of (c : N) (pos : nat) (s : pystr) : option nat :=
  match s with
  | [] => None
  | x :: s' =>
      match last_index_of c (S pos) s' with
      | Some k => Some k
      | None => if N.eqb x c then Some pos else None
      end
  end.

Definition last_newline_in_run (s : pystr) : option nat :=
  match last_index_of 10 0 (takewhile is_space s) with
  | Some k => Some (S k)
  | None => None
  end.

(** [skip] characters belong to the separator just matched; [cur] is the
    piece being read. *)
Fixpoint split_paragraphs_go (skip : nat) (cur : pystr) (s : pystr)
  : list pystr :=
  match s with
  | [] => [cur]
  | c :: s' =>
      match skip with
      | S k => split_paragraphs_go k cur s'
      | O =>
          if N.eqb c 10 then
            match last_newline_in_run s' with
            | Some k => cur :: split_paragraphs_go k [] s'
            | None => split_paragraphs_go 0 (cur ++ [c]) s'
            end
          else split_paragraphs_go 0 (cur ++ [c]) s'
      end
  end.

Definition split_paragraphs (t : pystr) : list pystr :=
  split_paragraphs_go 0 [] t.

(** The title of the next piece of [_split_large_chunk]: the section for
    the first piece, the section followed by " (cont.)" after it. *)
Definition piece_title (sec : pystr) (out : list chunk) : pystr :=
  match out with [] => sec | _ => sec ++ cont_suffix end.

(** The loop [while len(part) > max_chars] of [_split_large_chunk]. It
    need not end (it does not when [max_chars] is not positive); [None] is
    a run out of fuel. *)
Fixpoint split_part_loop (fuel : nat) (sec : pystr) (max_chars : Z)
    (out : list chunk) (part : pystr) : option (list chunk * pystr) :=
  if len part >? max_chars then
    match fuel with
    | O => None
    | S f =>
        let '(before, after) := _split_at_sentence part max_chars in
        split_part_loop f sec max_chars
          (out ++ [Chunk (piece_title sec out) before]) after
    end
  else Some (out, part).

(** The body of [for i, part in enumerate(parts)]. *)
Definition split_part (sec : pystr) (max_chars : Z) (out : list chunk)
    (part0 : pystr) : option (list chunk) :=
  let part := strip part0 in
  if nonempty part then
    match split_part_loop (S (length part)) sec max_chars out part with
    | Some (out', part') =>
        Some (if nonempty part'
              then out' ++ [Chunk (piece_title sec out') part']
              else out')
    | None => None
    end
  else Some out.

Fixpoint split_parts (sec : pystr) (max_chars : Z) (out : list chunk)
    (parts : list pystr) : option (list chunk) :=
  match parts with
  | [] => Some out
  | p :: ps =>
      match split_part sec max_chars out p with
      | Some out' => split_parts sec max_chars out' ps
      | None => None
      end
  end.

Definition _split_large_chunk (c : chunk) (max_chars : Z)
  : option (list chunk) :=
  let sec := str_or (section c) UNKNOWN in
  if len (text c) <=? max_chars then Some [c]
  else
    match split_parts sec max_chars [] (split_paragraphs (text c)) with
    | Some [] => Some [c]
    | Some out => Some out
    | None => None
    end.

(** The variables of [chunk_text] that its loop and [flush] update. *)
Record seg_state := SegState {
  chunks : list chunk;
  current_lines : list pystr;
  current_title : option pystr
}.

Definition title_or_unknown (t : option pystr) : pystr :=
  match t with
  | Some s => str_or s UNKNOWN
  | None => UNKNOWN
  end.

Definition lines_truthy (extra : option (list pystr)) : bool :=
  match extra with Some (_ :: _) => true | _ => false end.

(** The inner function [flush(extra_lines=None)]. *)
Definition flush (extra_lines : option (list pystr)) (st : seg_state)
  : seg_state :=
  let chunks' :=
    match current_lines st with
    | [] => chunks st
    | _ =>
        let c := strip (join nl (current_lines st)) in
        if nonempty c
        then chunks st ++ [Chunk (title_or_unknown (current_title st)) c]
        else chunks st
    end in
  SegState chunks'
    (if lines_truthy extra_lines then default [] extra_lines else [])
    (if lines_truthy extra_lines then current_title st else None).

Definition sum_len (ls : list pystr) : Z :=
  foldr (fun l acc => len l + acc) 0 ls.

(** The loop [while sum(len(x) for x in current_lines) > max_chars]. It
    need not end; [None] is a run out of fuel. *)
Fixpoint size_loop (fuel : nat) (max_chars : Z) (st : seg_state)
  : option seg_state :=
  if sum_len (current_lines st) >? max_chars then
    match fuel with
    | O => None
    | S f =>
        let text_so_far := join nl (current_lines st) in
        let '(before, after) := _split_at_sentence text_so_far max_chars in
        let chunks' :=
          if nonempty before
          then chunks st ++ [Chunk (title_or_unknown (current_title st)) before]
          else chunks st in
        if nonempty after
        then size_loop f max_chars (SegState chunks' [after] (current_title st))
        else Some (SegState chunks' [] None)
    end
  else Some st.

(** The test of [chunk_text] for a section header. *)
Definition heading_candidate (ln : pystr) : bool :=
  SECTION_RE_match ln && (len ln <=? 80).

(** The body of [for ln in lines]. *)
Definition line_step (max_chars : Z) (st : seg_state) (ln : pystr)
  : option seg_state :=
  if nonempty ln then
    let st1 :=
      if heading_candidate ln then
        let st0 := flush None st in
        SegState (chunks st0) (current_lines st0 ++ [ln]) (Some ln)
      else SegState (chunks st) (current_lines st ++ [ln]) (current_title st) in
    size_loop (S (length (join nl (current_lines st1)))) max_chars st1
  else Some st.

Fixpoint scan_lines (max_chars : Z) (st : seg_state) (lines : list pystr)
  : option seg_state :=
  match lines with
  | [] => Some st
  | ln :: rest =>
      match line_step max_chars st ln with
      | Some st' => scan_lines max_chars st' rest
      | None => None
      end
  end.

(** The post-pass over the collected chunks. *)
Fixpoint post_pass (max_chars : Z) (cs : list chunk) : option (list chunk) :=
  match cs with
  | [] => Some []
  | c :: rest =>
      match (if len (text c) >? max_chars
             then _split_large_chunk c max_chars
             else Some [c]),
            post_pass max_chars rest with
      | Some l, Some r => Some (l ++ r)
      | _, _ => None
      end
  end.

Definition chunk_text (text : pystr) (max_chars : Z) : option (list chunk) :=
  let lines := map strip (splitlines text) in
  match scan_lines max_chars (SegState [] [] None) lines with
  | Some st => post_pass max_chars (chunks (flush None st))
  | None => None
  end.

(** The characters of a text that are not whitespace, in order. *)
Definition solid (s : pystr) : pystr :=
  List.filter (fun c => negb (is_space c)) s.

(** The document of the scenario. *)
Definition scenario_doc : pystr :=
  str "1. Term" ++ nl ++ str "This agreement begins Jan 1." ++ nl ++ nl
  ++ str "LIABILITY" ++ nl ++ str "Liability capped at fees paid.".

(** ** Shapes of texts

    A stripped text starts and ends with a character that is not
    whitespace. *)
Definition head_solid (s : pystr) : Prop :=
  match s with c :: _ => is_space c = false | [] => True end.

Definition last_solid (s : pystr) : Prop := head_solid (rev s).

(** Two neighbours are a bad seam when one is a line feed and the other is
    whitespace: a text without bad seams has no blank line and no line that
    starts or ends with whitespace, except maybe at its two ends. *)
Definition seam_ok (x y : N) : bool :=
  negb ((N.eqb x 10 && is_space y) || (is_space x && N.eqb y 10)).

Fixpoint seams_ok (s : pystr) : bool :=
  match s with
  | x :: s' =>
      match s' with
      | y :: _ => seam_ok x y && seams_ok s'
      | [] => true
      end
  | [] => true
  end.

(** The only line boundary in the text is the line feed. *)
Definition newline_only (s : pystr) : Prop :=
  Forall (fun c => is_linebreak c = true -> c = 10%N) s.

Definition inner (s : pystr) : Prop := newline_only s /\ seams_ok s = true.

(** A tidy text: lines that are not blank and carry no whitespace at
    either end, joined by single line feeds. *)
Definition tidy (s : pystr) : Prop := inner s /\ head_solid s /\ last_solid s.

(** The lines the segmenter reads: stripped, blank ones left out. *)
Definition source_lines (doc : pystr) : list pystr :=
  List.filter nonempty (map strip (splitlines doc)).

(** The state after one round of the loop of [chunk_text], for the cut
    [(before, after)]. *)
Definition size_step (st : seg_state) (before after : pystr) : seg_state :=
  SegState
    (if nonempty before
     then chunks st ++ [Chunk (title_or_unknown (current_title st)) before]
     else chunks st)
    (if nonempty after then [after] else [])
    (if nonempty after then current_title st else None).


(** The invariant of the scan of [chunk_text]: the chunks collected and
    the lines of the buffer are tidy and not empty, and together they hold
    the characters read so far, whitespace apart. *)
Definition good_text (t : pystr) : Prop := tidy t /\ t <> [].

Definition texts (cs : list chunk) : list pystr := map text cs.

Definition seg_inv (seen : pystr) (st : seg_state) : Prop :=
  Forall good_text (texts (chunks st))
  /\ Forall good_text (current_lines st)
  /\ solid (concat (texts (chunks st))) ++ solid (concat (current_lines st))
     = seen.

(** A text of the result: tidy, not empty, within the bound. *)
Definition piece_ok (max_chars : Z) (t : pystr) : Prop :=
  good_text t /\ len t <= max_chars.

(** A line that is not blank and has no whitespace at either end. *)
Definition line_ok (l : pystr) : Prop := l <> [] /\ strip l = l.

Definition line_shape (l : pystr) : Prop :=
  l <> [] /\ head_solid l /\ last_solid l.

(** The lines of the segments, in order. *)
Definition segment_lines (segs : list chunk) : list pystr :=
  concat (map (fun c => splitlines (text c)) segs).

(** Order preservation as the specification words it: the segment texts,
    put together, give back the lines of the document that are not blank,
    either line by line or as one text for some separator. *)
Definition order_preserved (doc : pystr) (segs : list chunk) : Prop :=
  segment_lines segs = source_lines doc
  \/ exists sep, join sep (texts segs) = join nl (source_lines doc).

(** Idempotence as the specification words it: one segment, equal to the
    trimmed document. *)
Definition single_trimmed_segment (doc : pystr) (max_chars : Z) : Prop :=
  exists c, chunk_text doc max_chars = Some [c] /\ text c = strip doc.

(** A document with a blank line between two lines. *)
Definition blank_line_doc : pystr := str "a" ++ nl ++ nl ++ str "b".

(** A document of one line, longer than a bound of four characters. *)
Definition long_line_doc : pystr := str "abcdefg. hi".

(** ** Exceptions

    The exceptions the modelled code raises or lets through, and the
    outcome of a call that may raise. *)
Inductive exn :=
  | ValueError (msg : pystr)
  | JSONDecodeError
  | RuntimeError (msg : pystr)
  | IndexError
  | AttributeError
  | TypeError
  | RecursionError
  | ReadTimeout
  | RetryError.

(** [isinstance(e, ValueError)]: a [JSONDecodeError] is a [ValueError]. *)
Definition is_ValueError (e : exn) : bool :=
  match e with
  | ValueError _ | JSONDecodeError => true
  | _ => false
  end.

Inductive result (A : Type) :=
  | Ok (a : A)
  | Raise (e : exn).
Arguments Ok {A} a.
Arguments Raise {A} e.

Definition bind {A B} (r : result A) (k : A -> result B) : result B :=
  match r with
  | Ok a => k a
  | Raise e => Raise e
  end.

Notation "'do' x <- r ; k" := (bind r (fun x => k))
  (at level 10, x name, r at level 100, k at level 200).

(** ** core/retrieval.py *)

Definition RISK_QUERIES : list pystr :=
  [str "limitation of liability and liability cap";
   str "indemnity and indemnification";
   str "termination for convenience and auto-renewal";
   str "data privacy security and GDPR";
   str "payment terms fees and pricing";
   str "warranties service level agreement SLA";
   str "confidentiality and non-disclosure";
   str "insurance and compliance"].

Definition EVIDENCE_MAX_CHARS : Z := 14000.

Definition blank_line : pystr := nl ++ nl.

Definition truncation_notice : pystr :=
  blank_line ++ str "[... text truncated to fit model context ...]".

(** The last three lines of [retrieve_evidence_for_risk]. *)
Definition cap_evidence (max_chars : Z) (out : pystr) : pystr :=
  if len out >? max_chars then slice_to out max_chars ++ truncation_notice
  else out.

(** [sorted(evidence_indices)] on a set of indices. *)
Definition sorted_set (s : gset nat) : list nat :=
  merge_sort Nat.le (elements s).

(** [[xs[i] for i in idxs]]: an index out of range raises. *)
Fixpoint pick {A} (xs : list A) (idxs : list nat) : result (list A) :=
  match idxs with
  | [] => Ok []
  | i :: rest =>
      match xs !! i with
      | Some x => do r <- pick xs rest; Ok (x :: r)
      | None => Raise IndexError
      end
  end.

Section Retrieval.

(** The scores are floating-point numbers; the selection uses their sum,
    product, negation and order only. The embedding model is the
    collaborator behind [embed_texts]. *)
Context {score : Type}.
Variable fzero : score.
Variables fadd fmul : score -> score -> score.
Variable fneg : score -> score.
Variable flt : score -> score -> bool.
Variable embed_texts : list pystr -> list (list score).

(** [zip] stops at the shorter vector. *)
Fixpoint zip_mul (a b : list score) : list score :=
  match a, b with
  | x :: a', y :: b' => fmul x y :: zip_mul a' b'
  | _, _ => []
  end.

Definition _dot (a b : list score) : score :=
  fold_left fadd (zip_mul a b) fzero.

(** [sorted(xs, key=key)]: a stable sort that compares keys with [<]
    only. An element goes before the sorted rest unless the head of the
    rest has a strictly smaller key. *)
Fixpoint insert_by {K} (key : nat -> K) (ltk : K -> K -> bool) (x : nat)
    (l : list nat) : list nat :=
  match l with
  | [] => [x]
  | y :: l' =>
      if ltk (key y) (key x) then y :: insert_by key ltk x l' else x :: l
  end.

Definition sorted_by {K} (key : nat -> K) (ltk : K -> K -> bool)
    (l : list nat) : list nat :=
  foldr (insert_by key ltk) [] l.

(** The indices one query selects:
    [sorted(range(len(scores)), key=lambda i: -scores[i])[:top_k]]. The
    key of an index of the range is the negated score at that index. *)
Definition top_indices (q_emb : list score) (chunk_embs : list (list score))
    (top_k_per_query : Z) : list nat :=
  let scores := map (_dot q_emb) chunk_embs in
  let key i := option_map fneg (scores !! i) in
  let ltk a b :=
    match a, b with
    | Some x, Some y => flt x y
    | _, _ => false
    end in
  slice_to (sorted_by key ltk (seq 0 (length scores))) top_k_per_query.

(** The loop over the queries, which fills the set [evidence_indices]. *)
Fixpoint collect_indices (queries : list pystr)
    (chunk_embs : list (list score)) (top_k_per_query : Z)
    (evidence_indices : gset nat) : result (gset nat) :=
  match queries with
  | [] => Ok evidence_indices
  | query :: rest =>
      match embed_texts [query] with
      | q_emb :: _ =>
          collect_indices rest chunk_embs top_k_per_query
            (evidence_indices
             ∪ list_to_set (top_indices q_emb chunk_embs top_k_per_query))
      | [] => Raise IndexError
      end
  end.

Definition retrieve_evidence_for_risk (chunks : list chunk)
    (top_k_per_query : Z) (max_chars : Z) : result pystr :=
  match chunks with
  | [] => Ok []
  | _ =>
      let chunk_embs := embed_texts (map text chunks) in
      do evidence_indices <-
        collect_indices RISK_QUERIES chunk_embs top_k_per_query ∅;
      do evidence_chunks <- pick chunks (sorted_set evidence_indices);
      Ok (cap_evidence max_chars (join blank_line (map text evidence_chunks)))
  end.

(** The bundle as the specification words it: the texts of segments
    taken at strictly ascending indices, joined by blank lines. *)
Definition bundle_of (chunks : list chunk) (idxs : list nat) (out : pystr)
  : Prop :=
  StronglySorted lt idxs
  /\ exists picked,
       Forall2 (fun i c => chunks !! i = Some c) idxs picked
       /\ out = join blank_line (map text picked).

End Retrieval.

(** An embedding collaborator for the examples: a text is embedded as the
    vector of its length, with integer scores. *)
Definition length_embedder (ts : list pystr) : list (list Z) :=
  map (fun t => [len t]) ts.

Definition retrieve_with_lengths : list chunk -> Z -> Z -> result pystr :=
  retrieve_evidence_for_risk 0 Z.add Z.mul Z.opp Z.ltb length_embedder.

Definition two_chunks : list chunk :=
  [Chunk UNKNOWN (str "aaaa"); Chunk UNKNOWN (str "bbbb")].

(** ** The decoder of the [json] library

    [json.loads] on a [str], as the library's scanner reads a text. A
    number without fraction and exponent is an [int]; one with a fraction
    or an exponent is a [float], kept here as its exact decimal value
    [mantissa * 10 ^ exponent] with its sign. The conversion of an
    integer literal of more than [INT_MAX_STR_DIGITS] digits raises a
    plain [ValueError], with the interpreter's default limit of 4300
    digits; the limit of the recursion depth is not modelled. *)
#[warnings="-register-all"]
Inductive json :=
  | JNull
  | JBool (b : bool)
  | JInt (z : Z)
  | JFloat (negative : bool) (mantissa : N) (exponent : Z)
  | JNaN
  | JInfinity (negative : bool)
  | JStr (s : pystr)
  | JArr (items : list json)
  | JObj (members : list (pystr * json)).

(** The outcome of scanning a value at the start of a text: the value and
    the rest of the text, a malformed text, fuel used up, or an integer
    literal with too many digits, met before anything malformed. *)
Inductive scan (A : Type) :=
  | Scanned (a : A) (rest : pystr)
  | Malformed
  | Exhausted
  | TooManyDigits (digits : nat).
Arguments Scanned {A} a rest.
Arguments Malformed {A}.
Arguments Exhausted {A}.
Arguments TooManyDigits {A} digits.

(** [str(n)] for an integer. *)
Definition decimal (z : Z) : pystr := str (NilZero.string_of_int (Z.to_int z)).

(** The limit of [int] on the digits of a literal, and the message of the
    [ValueError] raised beyond it. *)
Definition INT_MAX_STR_DIGITS : nat := 4300.

Definition int_limit_message (digits : nat) : pystr :=
  str "Exceeds the limit (4300 digits) for integer string conversion: value has "
  ++ decimal (Z.of_nat digits)
  ++ str " digits; use sys.set_int_max_str_digits() to increase the limit".

(** The [ValueError] of such a conversion. It is not a [JSONDecodeError],
    so that no handler of the modelled code catches it. *)
Definition int_limit_error (e : exn) : Prop :=
  exists digits,
    (INT_MAX_STR_DIGITS < digits)%nat
    /\ e = ValueError (int_limit_message digits).

Fixpoint pystr_eqb (a b : pystr) : bool :=
  match a, b with
  | [], [] => true
  | x :: a', y :: b' => N.eqb x y && pystr_eqb a' b'
  | _, _ => false
  end.

(** [d[key] = value] on a dictionary kept in insertion order: a key that is
    present keeps its place and takes the new value. *)
Fixpoint dict_set (d : list (pystr * json)) (key : pystr) (value : json)
  : list (pystr * json) :=
  match d with
  | [] => [(key, value)]
  | (k, v) :: d' =>
      if pystr_eqb k key then (k, value) :: d'
      else (k, v) :: dict_set d' key value
  end.

(** [d.get(key)] *)
Fixpoint dict_get (d : list (pystr * json)) (key : pystr) : option json :=
  match d with
  | [] => None
  | (k, v) :: d' => if pystr_eqb k key then Some v else dict_get d' key
  end.

(** The whitespace of JSON: space, tab, line feed, carriage return. *)
Definition json_ws (c : N) : bool :=
  N.eqb c 32 || N.eqb c 9 || N.eqb c 10 || N.eqb c 13.

Definition skip_ws (s : pystr) : pystr := dropwhile json_ws s.

Definition ascii_digit (c : N) : bool := in_range 48 57 c.

Definition digits_value (ds : pystr) : N :=
  fold_left (fun acc d => (acc * 10 + (d - 48))%N) ds 0%N.

Definition hex_value (c : N) : option N :=
  if in_range 48 57 c then Some (c - 48)%N
  else if in_range 97 102 c then Some (c - 87)%N
  else if in_range 65 70 c then Some (c - 55)%N
  else None.

(** Four hexadecimal digits at the start of a text. *)
Definition hex4 (s : pystr) : option (N * pystr) :=
  match s with
  | a :: b :: c :: d :: rest =>
      match hex_value a, hex_value b, hex_value c, hex_value d with
      | Some x, Some y, Some z, Some w =>
          Some ((((x * 16 + y) * 16 + z) * 16 + w)%N, rest)
      | _, _, _, _ => None
      end
  | _ => None
  end.

(** The character of a one-letter escape. *)
Definition unescape (c : N) : option N :=
  if N.eqb c 34 then Some 34%N          (* quote *)
  else if N.eqb c 92 then Some 92%N     (* backslash *)
  else if N.eqb c 47 then Some 47%N     (* slash *)
  else if N.eqb c 98 then Some 8%N      (* b *)
  else if N.eqb c 102 then Some 12%N    (* f *)
  else if N.eqb c 110 then Some 10%N    (* n *)
  else if N.eqb c 114 then Some 13%N    (* r *)
  else if N.eqb c 116 then Some 9%N     (* t *)
  else None.

(** A [\u] escape after its four digits gave [c]: a high surrogate
    directly followed by the escape of a low surrogate is joined with it
    into one character. *)
Definition join_surrogates (c : N) (rest : pystr) : scan N :=
  if in_range 55296 56319 c then
    match rest with
    | 92%N :: 117%N :: rest' =>
        match hex4 rest' with
        | Some (c2, rest'') =>
            if in_range 56320 57343 c2
            then Scanned (65536 + ((c - 55296) * 1024 + (c2 - 56320)))%N rest''
            else Scanned c rest
        | None => match rest' with
                  | _ :: _ :: _ :: _ :: _ => Malformed
                  | _ => Scanned c rest
                  end
        end
    | _ => Scanned c rest
    end
  else Scanned c rest.

(** The string scanner in strict mode, after the opening quote: [acc] is
    the text read so far, reversed. Every round reads at least one
    character, so the length of the text is enough fuel. *)
Fixpoint scanstring (fuel : nat) (acc : pystr) (s : pystr) : scan pystr :=
  match fuel with
  | O => Exhausted
  | S f =>
      match s with
      | [] => Malformed
      | c :: r =>
          if N.eqb c 34 then Scanned (rev acc) r
          else if N.eqb c 92 then
            match r with
            | [] => Malformed
            | e :: r' =>
                if N.eqb e 117 then
                  match hex4 r' with
                  | Some (u, r'') =>
                      match join_surrogates u r'' with
                      | Scanned ch rest => scanstring f (ch :: acc) rest
                      | Malformed => Malformed
                      | Exhausted => Exhausted
                      | TooManyDigits n => TooManyDigits n
                      end
                  | None => Malformed
                  end
                else
                  match unescape e with
                  | Some ch => scanstring f (ch :: acc) r'
                  | None => Malformed
                  end
            end
          else if N.leb c 31 then Malformed
          else scanstring f (c :: acc) r
      end
  end.

(** The exponent of a number: [e] or [E], an optional sign, digits. *)
Definition scan_exponent (s : pystr) : option (Z * pystr) :=
  match s with
  | e :: r =>
      if N.eqb e 101 || N.eqb e 69 then
        let '(neg, r1) :=
          match r with
          | 43%N :: r' => (false, r')
          | 45%N :: r' => (true, r')
          | _ => (false, r)
          end in
        match takewhile ascii_digit r1 with
        | [] => None
        | ds => let v := Z.of_N (digits_value ds) in
                Some (if neg then - v else v, dropwhile ascii_digit r1)
        end
      else None
  | [] => None
  end.

(** The fraction of a number: a dot and digits. *)
Definition scan_fraction (s : pystr) : option (pystr * pystr) :=
  match s with
  | 46%N :: r =>
      match takewhile ascii_digit r with
      | [] => None
      | ds => Some (ds, dropwhile ascii_digit r)
      end
  | _ => None
  end.

(** A number: an optional minus, then 0 or a run of digits that does not
    start with 0, then an optional fraction and an optional exponent. An
    integer is converted by [int], which refuses more digits than its
    limit; a float is not limited. *)
Definition match_number (s : pystr) : scan json :=
  let '(neg, s1) :=
    match s with
    | 45%N :: r => (true, r)
    | _ => (false, s)
    end in
  match s1 with
  | d :: r =>
      if ascii_digit d then
        let '(ip, s2) :=
          if N.eqb d 48 then ([d], r)
          else (d :: takewhile ascii_digit r, dropwhile ascii_digit r) in
        let '(fp, s3) :=
          match scan_fraction s2 with
          | Some (ds, rest) => (Some ds, rest)
          | None => (None, s2)
          end in
        let '(ep, s4) :=
          match scan_exponent s3 with
          | Some (e, rest) => (Some e, rest)
          | None => (None, s3)
          end in
        match fp, ep with
        | None, None =>
            if (INT_MAX_STR_DIGITS <? length ip)%nat
            then TooManyDigits (length ip)
            else
              let v := Z.of_N (digits_value ip) in
              Scanned (JInt (if neg then - v else v)) s4
        | _, _ =>
            let ds := default [] fp in
            Scanned (JFloat neg (digits_value (ip ++ ds))
                       (default 0 ep - Z.of_nat (length ds))) s4
        end
      else Malformed
  | [] => Malformed
  end.

(** The members of an object after the first skip of whitespace: a key in
    quotes, a colon, a value, then a comma or the closing brace. [scan] is
    the scanner of values. *)
Fixpoint object_members (scan_value : pystr -> scan json) (fuel : nat)
    (acc : list (pystr * json)) (s : pystr) : scan json :=
  match fuel with
  | O => Exhausted
  | S f =>
      match s with
      | 34%N :: r =>
          match scanstring (S (length r)) [] r with
          | Scanned key r1 =>
              match skip_ws r1 with
              | 58%N :: r2 =>
                  match scan_value (skip_ws r2) with
                  | Scanned v r3 =>
                      let acc' := dict_set acc key v in
                      match skip_ws r3 with
                      | 125%N :: r4 => Scanned (JObj acc') r4
                      | 44%N :: r4 =>
                          object_members scan_value f acc' (skip_ws r4)
                      | _ => Malformed
                      end
                  | Malformed => Malformed
                  | Exhausted => Exhausted
                  | TooManyDigits n => TooManyDigits n
                  end
              | _ => Malformed
              end
          | Malformed => Malformed
          | Exhausted => Exhausted
          | TooManyDigits n => TooManyDigits n
          end
      | _ => Malformed
      end
  end.

(** The items of an array after the first skip of whitespace. *)
Fixpoint array_items (scan_value : pystr -> scan json) (fuel : nat)
    (acc : list json) (s : pystr) : scan json :=
  match fuel with
  | O => Exhausted
  | S f =>
      match scan_value s with
      | Scanned v r =>
          match skip_ws r with
          | 93%N :: r1 => Scanned (JArr (rev (v :: acc))) r1
          | 44%N :: r1 => array_items scan_value f (v :: acc) (skip_ws r1)
          | _ => Malformed
          end
      | Malformed => Malformed
      | Exhausted => Exhausted
      | TooManyDigits n => TooManyDigits n
      end
  end.

(** The scanner of one value at the start of a text. *)
Fixpoint scan_once (fuel : nat) (s : pystr) : scan json :=
  match fuel with
  | O => Exhausted
  | S f =>
      match s with
      | [] => Malformed
      | c :: r =>
          if N.eqb c 34 then
            match scanstring (S (length r)) [] r with
            | Scanned t rest => Scanned (JStr t) rest
            | Malformed => Malformed
            | Exhausted => Exhausted
            | TooManyDigits n => TooManyDigits n
            end
          else if N.eqb c 123 then
            match skip_ws r with
            | 125%N :: rest => Scanned (JObj []) rest
            | r' => object_members (scan_once f) (S (length r)) [] r'
            end
          else if N.eqb c 91 then
            match skip_ws r with
            | 93%N :: rest => Scanned (JArr []) rest
            | r' => array_items (scan_once f) (S (length r)) [] r'
            end
          else if starts_with (str "null") s then Scanned JNull (drop 4 s)
          else if starts_with (str "true") s
          then Scanned (JBool true) (drop 4 s)
          else if starts_with (str "false") s
          then Scanned (JBool false) (drop 5 s)
          else if starts_with (str "NaN") s then Scanned JNaN (drop 3 s)
          else if starts_with (str "Infinity") s
          then Scanned (JInfinity false) (drop 8 s)
          else if starts_with (str "-Infinity") s
          then Scanned (JInfinity true) (drop 9 s)
          else match_number s
      end
  end.

(** [json.loads(s)]: a text that starts with a byte order mark is refused;
    whitespace may surround the value and nothing else may follow it. *)
Definition json_loads (s : pystr) : result json :=
  if starts_with [65279%N] s then Raise JSONDecodeError
  else
    match scan_once (S (length s)) (skip_ws s) with
    | Scanned v rest =>
        if nonempty (skip_ws rest) then Raise JSONDecodeError else Ok v
    | Malformed => Raise JSONDecodeError
    | Exhausted => Raise RecursionError
    | TooManyDigits n => Raise (ValueError (int_limit_message n))
    end.

(** ** core/agents.py: the extractor *)

Definition json_fence : pystr := str "```json".
Definition fence : pystr := str "```".

(** The first pattern, a fence labelled json around braces, with [.] also
    matching a line feed: after the label and whitespace comes an opening
    brace; the group is lazy and ends at the first closing brace that is
    followed by whitespace and a fence. *)
Fixpoint lazy_close (s : pystr) : option pystr :=
  match s with
  | [] => None
  | c :: r =>
      if N.eqb c 125 && starts_with fence (dropwhile is_space r)
      then Some [c]
      else option_map (cons c) (lazy_close r)
  end.

Definition fence_here (s : pystr) : option pystr :=
  if starts_with json_fence s then
    match dropwhile is_space (drop 7 s) with
    | 123%N :: r => option_map (cons 123%N) (lazy_close r)
    | _ => None
    end
  else None.

(** [re.search] of the first pattern: group 1 of the leftmost match. *)
Fixpoint search_fence (s : pystr) : option pystr :=
  match fence_here s with
  | Some g => Some g
  | None =>
      match s with
      | [] => None
      | _ :: r => search_fence r
      end
  end.

(** [re.search] of the second pattern, an opening brace, anything, a
    closing brace, greedy: from the first opening brace to the last closing
    brace after it. *)
Definition search_braces (s : pystr) : option pystr :=
  match dropwhile (fun c => negb (N.eqb c 123)) s with
  | b :: r =>
      match last_index_of 125 0 r with
      | Some k => Some (b :: take (S k) r)
      | None => None
      end
  | [] => None
  end.

(** [re.sub] of a comma, whitespace and the closing character [close] by
    [close] alone. [eating] is set between a matched comma and its closing
    character. *)
Fixpoint sub_trailing_comma (close : N) (eating : bool) (s : pystr) : pystr :=
  match s with
  | [] => []
  | c :: r =>
      if eating then
        if is_space c then sub_trailing_comma close true r
        else c :: sub_trailing_comma close false r
      else if N.eqb c 44 && starts_with [close] (dropwhile is_space r)
      then sub_trailing_comma close true r
      else c :: sub_trailing_comma close false r
  end.

(** [try: return json.loads(s)], [except json.JSONDecodeError: pass], and
    then [otherwise]. *)
Definition try_loads (s : pystr) (otherwise : result json) : result json :=
  match json_loads s with
  | Ok v => Ok v
  | Raise JSONDecodeError => otherwise
  | Raise e => Raise e
  end.

Definition no_json_message : pystr :=
  str "No JSON object found in model output.".

Definition parse_error_message (text : pystr) : pystr :=
  str "Could not parse JSON from: " ++ slice_to text 100 ++ str "...".

Definition _extract_json_obj (text0 : pystr) : result json :=
  if negb (nonempty text0 && nonempty (strip text0))
  then Raise (ValueError no_json_message)
  else
    let text := strip text0 in
    let step4 :=
      try_loads
        (sub_trailing_comma 93 false (sub_trailing_comma 125 false text))
        (Raise (ValueError (parse_error_message text))) in
    let step3 :=
      if starts_with [34%N] (lstrip text)
      then try_loads (123%N :: lstrip text) step4
      else step4 in
    let step2 :=
      match search_braces text with
      | Some g => try_loads g step3
      | None => step3
      end in
    match search_fence text with
    | Some g => try_loads g step2
    | None => step2
    end.

(** A text contains a pattern when the pattern occurs in it; [has_sub]
    decides it, [has_char] decides it for one character. *)
Definition contains (p s : pystr) : Prop := exists a b, s = a ++ p ++ b.

Fixpoint has_sub (p s : pystr) : bool :=
  starts_with p s
  || match s with
     | [] => false
     | _ :: r => has_sub p r
     end.

Definition has_char (c : N) (s : pystr) : bool := existsb (N.eqb c) s.

(** The texts of the examples. *)
Definition small_object_text : pystr := jstr "{'a': 1}".
Definition small_object : json := JObj [(str "a", JInt 1)].
Definition braces_prose : pystr := str "Use {braces}: ".
Definition plain_prose : pystr := str "Here you go: ".

(** ** core/agents.py: the generation call *)

(** [bool(v)] on a decoded value. A float is falsy when it is zero, which
    a literal is when its mantissa is zero or when its value rounds to
    zero, that is when it is at most [2 ^ -1075]. *)
Definition float_is_zero (mantissa : N) (exponent : Z) : bool :=
  N.eqb mantissa 0
  || ((exponent <? 0)
      && (Z.of_N mantissa * 2 ^ 1075 <=? 10 ^ (- exponent))).

Definition truthy (v : json) : bool :=
  match v with
  | JNull => false
  | JBool b => b
  | JInt z => negb (z =? 0)
  | JFloat _ m e => negb (float_is_zero m e)
  | JNaN | JInfinity _ => true
  | JStr s => nonempty s
  | JArr l => match l with [] => false | _ => true end
  | JObj d => match d with [] => false | _ => true end
  end.

(** [data.get("response")] under the test
    [isinstance(data, dict) and "response" in data]. *)
Definition response_field (data : json) : option json :=
  match data with
  | JObj d => dict_get d (str "response")
  | _ => None
  end.

(** [v or ""] *)
Definition or_empty (v : json) : json := if truthy v then v else JStr [].

(** ["\n".join(out)]: an item that is not a string raises [TypeError]. *)
Fixpoint join_items (out : list json) : result (list pystr) :=
  match out with
  | [] => Ok []
  | JStr s :: rest => do r <- join_items rest; Ok (s :: r)
  | _ :: _ => Raise TypeError
  end.

(** The loop over the lines of a body of newline-delimited JSON. *)
Fixpoint ndjson_lines (lines : list pystr) (out : list json)
  : result (list json) :=
  match lines with
  | [] => Ok out
  | line0 :: rest =>
      let line := strip line0 in
      if nonempty line then
        match json_loads line with
        | Ok data =>
            match response_field data with
            | Some v => ndjson_lines rest (out ++ [or_empty v])
            | None => ndjson_lines rest out
            end
        | Raise JSONDecodeError => ndjson_lines rest out
        | Raise e => Raise e
        end
      else ndjson_lines rest out
  end.

Definition parse_ndjson (text : pystr) : result pystr :=
  do out <- ndjson_lines (splitlines text) [];
  match out with
  | [] => Ok text
  | _ => do parts <- join_items out; Ok (strip (join nl parts))
  end.

Definition _parse_ollama_response_body (text0 : pystr) : result pystr :=
  let text := strip text0 in
  if nonempty text then
    match json_loads text with
    | Ok data =>
        match response_field data with
        | Some v =>
            match or_empty v with
            | JStr s => Ok (strip s)
            | _ => Raise AttributeError
            end
        | None => parse_ndjson text
        end
    | Raise JSONDecodeError => parse_ndjson text
    | Raise e => Raise e
    end
  else Ok [].

(** What [requests.post] and [raise_for_status] meet: no connection, a
    read that times out, or a response with its status and body. *)
Inductive post_outcome :=
  | ConnectionError
  | Timeout
  | Response (status_code : Z) (body : pystr).

(** The payload of a generation call; the temperature is a float, kept
    abstract. *)
Record request (T : Type) := Request {
  req_model : pystr;
  req_prompt : pystr;
  req_temperature : T;
  req_json_mode : bool
}.
Arguments Request {T} _ _ _ _.
Arguments req_model {T} _.
Arguments req_prompt {T} _.
Arguments req_temperature {T} _.
Arguments req_json_mode {T} _.

Definition unreachable_message : pystr :=
  str "Cannot reach Ollama. Is it running? Start it with: ollama serve".

Definition not_found_message (model : pystr) : pystr :=
  str "Model '" ++ model ++ str "' not found. Pull it with: ollama pull "
  ++ model.

Definition status_message (status_code : Z) (body : pystr) : pystr :=
  str "Ollama returned " ++ decimal status_code ++ str ". " ++ body.

(** [raise_for_status] raises for the statuses 400 to 599. *)
Definition is_error_status (status_code : Z) : bool :=
  (400 <=? status_code) && (status_code <? 600).

(** The exception [_ollama_generate] raises for a failure of the
    transport, if the outcome is one. *)
Definition fault_error (model : pystr) (resp : post_outcome) : option exn :=
  match resp with
  | ConnectionError => Some (RuntimeError unreachable_message)
  | Timeout => Some ReadTimeout
  | Response status_code body =>
      if is_error_status status_code then
        if status_code =? 404 then Some (RuntimeError (not_found_message model))
        else Some (RuntimeError (status_message status_code body))
      else None
  end.

(** The failures of the transport that the specification names: the
    collaborator cannot be reached, or it answers with an error status. *)
Definition transport_fault (resp : post_outcome) : bool :=
  match resp with
  | ConnectionError => true
  | Timeout => false
  | Response status_code _ => is_error_status status_code
  end.

(** What [_ollama_generate] returns or raises for an outcome of the
    post. *)
Definition response_text (model : pystr) (resp : post_outcome)
  : result pystr :=
  match fault_error model resp with
  | Some e => Raise e
  | None =>
      match resp with
      | Response _ body => _parse_ollama_response_body body
      | _ => Ok []
      end
  end.

(** What a run does, in order: generation calls with the outcome of each,
    and the sleeps of the retry policy. *)
Inductive event (T : Type) :=
  | Generate (req : request T) (resp : post_outcome)
  | Sleep (seconds : Z).
Arguments Generate {T} req resp.
Arguments Sleep {T} seconds.

Definition is_generate {T} (ev : event T) : bool :=
  match ev with Generate _ _ => true | Sleep _ => false end.

Definition is_cycle_start {T} (ev : event T) : bool :=
  match ev with Generate req _ => req_json_mode req | Sleep _ => false end.

(** The generation calls of a trace, and its cycles: a cycle starts with
    the call in json mode. *)
Definition calls {T} (tr : list (event T)) : nat :=
  length (List.filter is_generate tr).

Definition cycles {T} (tr : list (event T)) : nat :=
  length (List.filter is_cycle_start tr).

Definition RISK_PROMPT (playbook_instructions clauses : pystr) : pystr :=
  jstr "
You are a contract risk reviewer for an SMB.
" ++ playbook_instructions ++ jstr "

Use ONLY the provided clauses as evidence. If evidence is not present, do NOT invent it.

Return ONLY a valid JSON object (no markdown fences, no commentary).
Schema:
{
  'risk_score': number,
  'red_flags': [
    {
      'category': string,
      'severity': 'LOW'|'MED'|'HIGH'|'CRITICAL',
      'evidence_quote': string,
      'why_risky': string,
      'suggested_fallback': string
    }
  ]
}

CLAUSES:
" ++ clauses ++ jstr "
".

Definition default_instructions : pystr :=
  str "Identify risks related to: Termination, Liability, Indemnity, Auto-renewal.".

(** [wait_exponential(multiplier, min, max)] of the retry library, for
    the number of the attempt that failed. *)
Definition wait_exponential (multiplier min max : Z) (attempt_number : Z) : Z :=
  Z.max (Z.max 0 min) (Z.min (multiplier * 2 ^ (attempt_number - 1)) max).

Section Invoker.

Context {T : Type}.

(** The generation collaborator: the outcome of the post, given the
    number of calls made before and the payload. *)
Variable world : nat -> request T -> post_outcome.

Definition _ollama_generate (prompt model : pystr) (temperature : T)
    (json_mode : bool) (tr : list (event T))
  : result pystr * list (event T) :=
  let req := Request model prompt temperature json_mode in
  let resp := world (calls tr) req in
  (response_text model resp, tr ++ [Generate req resp]).

Definition risk_prompt (clauses_text : pystr) (playbook_rules : option pystr)
  : pystr :=
  let instructions :=
    match playbook_rules with
    | Some rules => str_or rules default_instructions
    | None => default_instructions
    end in
  RISK_PROMPT instructions clauses_text.

(** The body of [run_risk_review], one attempt of the retry policy. *)
Definition risk_review_body (model clauses_text : pystr) (temperature : T)
    (playbook_rules : option pystr) (tr : list (event T))
  : result pystr * list (event T) :=
  let prompt := risk_prompt clauses_text playbook_rules in
  let '(r1, tr1) := _ollama_generate prompt model temperature true tr in
  match r1 with
  | Raise e => (Raise e, tr1)
  | Ok raw_output =>
      match _extract_json_obj raw_output with
      | Ok _ => (Ok raw_output, tr1)
      | Raise e =>
          if is_ValueError e then
            let '(r2, tr2) :=
              _ollama_generate prompt model temperature false tr1 in
            match r2 with
            | Raise e2 => (Raise e2, tr2)
            | Ok raw_output2 =>
                match _extract_json_obj raw_output2 with
                | Ok _ => (Ok raw_output2, tr2)
                | Raise e3 => (Raise e3, tr2)
                end
            end
          else (Raise e, tr1)
      end
  end.

(** The decorator [retry(stop=stop_after_attempt(3),
    wait=wait_exponential(multiplier=1, min=2, max=10),
    retry=retry_if_exception_type(ValueError))]. An attempt that raises a
    [ValueError] is retried after a sleep unless it was the third, and
    then [RetryError] is raised; any other exception is raised as it is.
    [left] is the number of attempts the stop rule still allows after
    attempt [attempt_number]. *)
Fixpoint retry_call (left : nat) (attempt_number : Z)
    (body : list (event T) -> result pystr * list (event T))
    (tr : list (event T)) : result pystr * list (event T) :=
  let '(r, tr1) := body tr in
  match r with
  | Ok v => (Ok v, tr1)
  | Raise e =>
      if is_ValueError e then
        match left with
        | O => (Raise RetryError, tr1)
        | S left' =>
            retry_call left' (attempt_number + 1) body
              (tr1 ++ [Sleep (wait_exponential 1 2 10 attempt_number)])
        end
      else (Raise e, tr1)
  end.

Definition run_risk_review (model clauses_text : pystr) (temperature : T)
    (playbook_rules : option pystr) : result pystr * list (event T) :=
  retry_call 2 1
    (risk_review_body model clauses_text temperature playbook_rules) [].

(** The payload of call [n] of a run, and what the call gives: the calls
    of a cycle are in json mode first and then not. *)
Definition risk_request (model clauses_text : pystr) (temperature : T)
    (playbook_rules : option pystr) (n : nat) : request T :=
  Request model (risk_prompt clauses_text playbook_rules) temperature
    (Nat.even n).

Definition reply (model clauses_text : pystr) (temperature : T)
    (playbook_rules : option pystr) (n : nat) : result pystr :=
  response_text model
    (world n (risk_request model clauses_text temperature playbook_rules n)).

(** Call [n] gives a text on which extraction fails, or succeeds. *)
Definition extraction_fails (model clauses_text : pystr) (temperature : T)
    (playbook_rules : option pystr) (n : nat) : Prop :=
  exists raw e,
    reply model clauses_text temperature playbook_rules n = Ok raw
    /\ _extract_json_obj raw = Raise e /\ is_ValueError e = true.

Definition extraction_succeeds (model clauses_text : pystr) (temperature : T)
    (playbook_rules : option pystr) (n : nat) (raw : pystr) : Prop :=
  reply model clauses_text temperature playbook_rules n = Ok raw
  /\ exists v, _extract_json_obj raw = Ok v.

End Invoker.

(** Worlds for the examples: the temperature is a number of hundredths. *)
Definition garbage_text : pystr := str "Sorry, I cannot do that.".

Definition garbage_then_object (n : nat) (req : request Z) : post_outcome :=
  if (n <? 4)%nat then Response 200 garbage_text
  else Response 200 small_object_text.

Definition unreachable_at_second (n : nat) (req : request Z) : post_outcome :=
  if (n =? 1)%nat then ConnectionError
  else Response 200 garbage_text.

(** ** Shapes of traces *)

Section Traces.

Context {T : Type}.

(** No generation call of the trace met a failure of the transport. *)
Definition no_fault (tr : list (event T)) : Prop :=
  forall i req resp,
    tr !! i = Some (Generate req resp) ->
    fault_error (req_model req) resp = None.

(** A fallback call, not in json mode, whose text failed extraction with
    a [ValueError]. *)
Definition failed_fallback (ev : event T) : Prop :=
  exists req resp raw e,
    ev = Generate req resp /\ req_json_mode req = false
    /\ response_text (req_model req) resp = Ok raw
    /\ _extract_json_obj raw = Raise e /\ is_ValueError e = true.

(** A call, in json mode or not, whose response body the decoder refused
    for an integer of too many digits: the [ValueError] of the conversion
    goes through the parser of the body and through the attempt. *)
Definition refused_body (ev : event T) : Prop :=
  exists req resp e,
    ev = Generate req resp
    /\ response_text (req_model req) resp = Raise e
    /\ int_limit_error e.

(** Every sleep of the trace comes directly after a failed fallback or
    after a call with a refused body. *)
Definition sleeps_justified (tr : list (event T)) : Prop :=
  forall j secs,
    tr !! j = Some (Sleep secs) ->
    exists ev, (1 <= j)%nat /\ tr !! (j - 1)%nat = Some ev
               /\ (failed_fallback ev \/ refused_body ev).

(** A call that met a failure of the transport is the last event of the
    trace, and the run raises the exception of that failure. *)
Definition fault_is_last (tr : list (event T)) (res : result pystr) : Prop :=
  forall i req resp e,
    tr !! i = Some (Generate req resp) ->
    fault_error (req_model req) resp = Some e ->
    res = Raise e /\ length tr = S i.

End Traces.

(** A line as the segmenter reads it: not empty, without a line boundary,
    without whitespace at either end. *)
Definition plain_line (l : pystr) : Prop :=
  l <> [] /\ Forall (fun c => is_linebreak c = false) l
  /\ head_solid l /\ last_solid l.

(** The length of lines joined by line feeds, plus one. *)
Definition weight (ls : list pystr) : Z :=
  foldr (fun l acc => len l + 1 + acc) 0 ls.

(** ** Further properties of the code *)

(** A sentence ends at position [i] of a text: a terminal punctuation
    character there, and whitespace right after it. *)
Definition sentence_end_at (t : pystr) (i : nat) : Prop :=
  exists p c,
    t !! i = Some p /\ is_sentence_punct p = true
    /\ t !! S i = Some c /\ is_space c = true.

(** A text of three short sentences. *)
Definition three_sentences : pystr := str "One two. Three four! Five six?".

(** A piece cut from an oversized chunk: not empty, within the bound,
    stripped. *)
Definition piece_stripped (max_chars : Z) (t : pystr) : Prop :=
  t <> [] /\ len t <= max_chars /\ strip t = t.

(** The labels of the pieces of one chunk: the section for the first, the
    section with the continuation suffix for the others. *)
Definition labels_ok (sec : pystr) (out : list chunk) : Prop :=
  match out with
  | [] => True
  | c0 :: rest =>
      section c0 = sec
      /\ Forall (fun c => section c = sec ++ cont_suffix) rest
  end.

(** A chunk of two paragraphs. *)
Definition two_paragraph_chunk : chunk :=
  Chunk (str "TERMS")
    (str "First part here." ++ nl ++ str "  " ++ nl ++ str "Second part.").

(** A document of blank lines only. *)
Definition blank_doc : pystr := str "  " ++ nl ++ [9%N; 13%N; 10%N] ++ str " ".

(** The labels of segments. A heading of a list of lines is one of its
    lines that is not empty and passes the test for a section header. A
    label comes from the lines when it is UNKNOWN or a heading, and it is
    a label of the result when it comes from the lines, with or without
    the continuation suffix. *)
Definition heading_of (lines : list pystr) (l : pystr) : Prop :=
  l ∈ lines /\ l <> [] /\ heading_candidate l = true.

Definition label_from (lines : list pystr) (l : pystr) : Prop :=
  l = UNKNOWN \/ heading_of lines l.

Definition label_ok (lines : list pystr) (l : pystr) : Prop :=
  label_from lines l
  \/ exists l0, label_from lines l0 /\ l = l0 ++ cont_suffix.

Definition sections (cs : list chunk) : list pystr := map section cs.

(** The invariant of the scan on labels, for the lines [seen] so far: the
    labels of the chunks come from these lines, the current title is one
    of their headings, and every heading seen either labels a chunk or is
    the title of a buffer that is not empty. *)
Definition label_inv (seen : list pystr) (st : seg_state) : Prop :=
  Forall (label_from seen) (sections (chunks st))
  /\ (forall h, current_title st = Some h -> heading_of seen h)
  /\ (forall h, heading_of seen h ->
        h ∈ sections (chunks st)
        \/ (current_title st = Some h /\ current_lines st <> [])).

(** What [sorted] needs of the order on keys to rank them: no two keys
    are each below the other, and a key that is not below a second one,
    which is not below a third, is not below the third. Floating-point
    numbers other than NaN are ordered so. *)
Definition asymmetric {K} (ltk : K -> K -> bool) : Prop :=
  forall a b, ltk a b = true -> ltk b a = false.

Definition negatively_transitive {K} (ltk : K -> K -> bool) : Prop :=
  forall a b c, ltk a b = false -> ltk b c = false -> ltk a c = false.

(** An index [a] ranks before [b] in a stable sort by [key]: the key of
    [b] is not below that of [a], and either the key of [a] is below that
    of [b] or [a] comes first in the input. *)
Definition ranks_before {K} (key : nat -> K) (ltk : K -> K -> bool)
    (a b : nat) : Prop :=
  ltk (key b) (key a) = false /\ (ltk (key a) (key b) = true \/ (a < b)%nat).

Definition three_chunks : list chunk :=
  [Chunk UNKNOWN (str "aaaa"); Chunk UNKNOWN (str "bb");
   Chunk UNKNOWN (str "cccccc")].

(** ** The calls of a run *)

Section Runs.

Context {T : Type}.
Variable world : nat -> request T -> post_outcome.
Variables model clauses_text : pystr.
Variable temperature : T.
Variable playbook_rules : option pystr.

(** The generation calls of a trace, in order. *)
Definition generations (tr : list (event T)) : list (event T) :=
  List.filter is_generate tr.

(** The event of call [n] of a run: the payload of that call and what the
    collaborator answers to it. *)
Definition call_event (n : nat) : event T :=
  let req := risk_request model clauses_text temperature playbook_rules n in
  Generate req (world n req).

(** The trace of a run in which no text passes extraction: three
    attempts of two calls, with a sleep of two seconds between them. *)
Definition exhausted_trace : list (event T) :=
  [call_event 0; call_event 1; Sleep 2;
   call_event 2; call_event 3; Sleep 2;
   call_event 4; call_event 5].

(** The calls made so far are the calls 0, 1, ... of the run. *)
Definition numbered (tr : list (event T)) : Prop :=
  generations tr = map call_event (seq 0 (calls tr)).

(** The pattern of the calls of a run: call [i] carries the model, the
    prompt and the temperature of the run and is answered as call number
    [i]; a call that is not in json mode comes directly after a call in
    json mode whose text failed extraction with a [ValueError]. *)
Definition call_pattern (tr : list (event T)) : Prop :=
  forall i req resp,
    generations tr !! i = Some (Generate req resp) ->
    req = Request model (risk_prompt clauses_text playbook_rules)
            temperature (req_json_mode req)
    /\ resp = world i req
    /\ (req_json_mode req = false ->
        exists req' resp' raw e,
          (1 <= i)%nat
          /\ generations tr !! (i - 1)%nat = Some (Generate req' resp')
          /\ req_json_mode req' = true
          /\ response_text model resp' = Ok raw
          /\ _extract_json_obj raw = Raise e
          /\ is_ValueError e = true).

(** No answer of the collaborator has a body that the decoder refuses
    with a [ValueError]. *)
Definition no_refused_body : Prop :=
  forall n req e,
    response_text model (world n req) = Raise e -> is_ValueError e = false.

End Runs.

Definition always_garbage (n : nat) (req : request Z) : post_outcome :=
  Response 200 garbage_text.

(** Replies for the examples of the extractor: a fenced block between
    prose with braces, and an object whose opening brace is missing. *)
Definition fenced_reply : pystr :=
  str "Sure {here}: " ++ json_fence ++ nl ++ small_object_text ++ nl
  ++ fence ++ str " {done}".

Definition braceless_reply : pystr := nl ++ jstr "'a': 1}".

(** ** app.py: from the text of an upload to the evidence

    The analysis of an upload segments its text with the default bound,
    [chunks = chunk_text(text)], and selects the evidence with the number
    of results of the side bar,
    [retrieve_evidence_for_risk(chunks, top_k_per_query=top_k)]. *)
Section Analysis.

Context {score : Type}.
Variable fzero : score.
Variables fadd fmul : score -> score -> score.
Variable fneg : score -> score.
Variable flt : score -> score -> bool.
Variable embed_texts : list pystr -> list (list score).

Definition evidence_of_text (text : pystr) (top_k : Z)
  : option (list chunk * result pystr) :=
  match chunk_text text DEFAULT_MAX_CHARS with
  | Some chunks =>
      Some (chunks,
            retrieve_evidence_for_risk fzero fadd fmul fneg flt embed_texts
              chunks top_k EVIDENCE_MAX_CHARS)
  | None => None
  end.

End Analysis.

(** ** core/ingest.py

    The pages of the document and the OCR tools are collaborators: a page
    gives a text or [None]; the conversion to images and the reading of
    each image give a value or raise. *)
Definition _MIN_TEXT_LEN : Z := 50.

(** The loop of [extract_text_from_pdf] over the pages. *)
Fixpoint page_parts (pages : list (option pystr)) (text_parts : list pystr)
  : list pystr :=
  match pages with
  | [] => text_parts
  | page :: rest =>
      let t := match page with Some t => t | None => [] end in
      if nonempty (strip t) then page_parts rest (text_parts ++ [t])
      else page_parts rest text_parts
  end.

Definition extract_text_from_pdf (pages : list (option pystr)) : pystr :=
  strip (join blank_line (page_parts pages [])).

(** The loop of [_run_ocr] over the images. *)
Fixpoint ocr_parts (images : list (result pystr)) (parts : list pystr)
  : result (list pystr) :=
  match images with
  | [] => Ok parts
  | image_to_string :: rest =>
      do text <- image_to_string;
      if nonempty (strip text) then ocr_parts rest (parts ++ [strip text])
      else ocr_parts rest parts
  end.

Definition _run_ocr (convert_from_path : result (list (result pystr)))
  : result pystr :=
  do images <- convert_from_path;
  do parts <- ocr_parts images [];
  Ok (strip (join blank_line parts)).

(** [except Exception: pass] swallows whatever the OCR raises. *)
Definition extract_text_from_pdf_with_ocr (pages : list (option pystr))
    (convert_from_path : result (list (result pystr))) : pystr * bool :=
  let text := extract_text_from_pdf pages in
  if nonempty text && (len (strip text) >=? _MIN_TEXT_LEN) then (text, false)
  else
    match _run_ocr convert_from_path with
    | Ok ocr_text => if nonempty ocr_text then (ocr_text, true) else (text, false)
    | Raise _ => (text, false)
    end.

Definition scanned_pages : list (option pystr) := [None; Some (str "  ")].
Definition scanned_images : result (list (result pystr)) :=
  Ok [Ok (str " Hello "); Ok []].

(** ** core/vectorstore.py *)

(** The identifier of chunk [i] of a contract, the f-string
    [contract_id _ i] with the index in decimal. *)
Definition chunk_id (contract_id : pystr) (i : nat) : pystr :=
  contract_id ++ str "_" ++ decimal (Z.of_nat i).

(** [ids] of [upsert_chunks]. *)
Definition upsert_ids (contract_id : pystr) (chunks : list chunk)
  : list pystr :=
  map (chunk_id contract_id) (seq 0 (length chunks)).

(** ** core/playbooks.py *)

Record playbook := Playbook {
  description : pystr;
  instructions : pystr
}.

Definition standard_smb : playbook :=
  Playbook
    (str "Standard balanced risk review for a typical small business.")
    (str "
Identify risks related to:
1. Termination for Convenience (Vendor only is risky)
2. Auto-Renewal (Automatic renewal without notice found)
3. Liability Caps (Too low, e.g. < 12 months fees)
4. Unlimited Liability (For customer)
5. Indemnification (One-sided)
6. Payment Terms (< 30 days)
        ").

Definition strict_enterprise : playbook :=
  Playbook
    (str "Aggressive risk finding. Flags even minor issues.")
    (str "
You are a conservative Enterprise Legal Counsel. Flag EVERYTHING that deviates from standard favorable terms.
Strict Rules:
1. Termination: Must have termination for convenience for Customer with < 30 days notice.
2. Renewal: No auto-renewal allowed. Must be mutual agreement.
3. Liability: Cap must be at least 3x annual fees.
4. Indemnity: must be full mutual indemnity. 
5. Data Privacy: Must explicitly mention GDPR/CCPA compliance if data is involved.
6. Governing Law: Must be Delaware or New York. Flag anything else.
        ").

Definition light_consultant : playbook :=
  Playbook
    (str "Low friction, only critical red flags.")
    (str "
Only flag CRITICAL deal-breakers:
1. Unlimited Liability for anything other than IP/Confidentiality.
2. Non-compete clauses.
3. IP Ownership (Vendor owning Customer IP).
Ignore minor things like payment terms or notice periods.
        ").

(** The dictionary, in the order of its keys. *)
Definition PLAYBOOKS : list (pystr * playbook) :=
  [(str "Standard SMB", standard_smb);
   (str "Strict / Enterprise", strict_enterprise);
   (str "Light / Consultant", light_consultant)].

(** [d.get(key)] on a dictionary kept as a list of items with distinct
    keys. *)
Fixpoint items_get {V} (d : list (pystr * V)) (key : pystr) : option V :=
  match d with
  | [] => None
  | (k, v) :: rest =>
      if decide (k = key) then Some v else items_get rest key
  end.

Definition get_playbook_names : list pystr := map fst PLAYBOOKS.

Definition get_playbook_instructions (name : pystr) : pystr :=
  instructions (default standard_smb (items_get PLAYBOOKS name)).

(** ** core/agents.py: the runs that return free text *)

Definition SUMMARY_PROMPT (clauses : pystr) : pystr :=
  str "
Summarize key contract terms in plain English for an SMB buyer. Use only provided clauses.
Include: term/renewal, termination, liability cap, indemnity, data/privacy, payment, SLA.
CLAUSES:
"
  ++ clauses
  ++ str "
Return bullet points.
".

Definition NEGOTIATION_PROMPT (risks_json : pystr) : pystr :=
  str "
Write a professional negotiation email to the vendor requesting changes based on the risks found.
Use the risks below. Include:
- Short intro
- Requested changes (bullets)
- Proposed fallback language suggestions (bullets)
RISKS JSON:
"
  ++ risks_json
  ++ str "
".

Definition CHAT_PROMPT (context history question : pystr) : pystr :=
  str "
You are ClauseCopilot, a helpful legal AI assistant.
Answer the user's question based ONLY on the provided contract context.
If the answer is not in the context, say " ++ [34%N] ++ str "I cannot find that information in the contract." ++ [34%N] ++ str "
Do not provide general legal advice.

Context from Contract:
"
  ++ context
  ++ str "

Chat History:
"
  ++ history
  ++ str "

User Question: "
  ++ question
  ++ str "
".

Section FreeText.

Context {T : Type}.
Variable world : nat -> request T -> post_outcome.

Definition run_summary (model clauses_text : pystr) (temperature : T)
    (tr : list (event T)) : result pystr * list (event T) :=
  let prompt := SUMMARY_PROMPT clauses_text in
  _ollama_generate world prompt model temperature false tr.

Definition run_negotiation (model risks_json : pystr) (temperature : T)
    (tr : list (event T)) : result pystr * list (event T) :=
  let prompt := NEGOTIATION_PROMPT risks_json in
  _ollama_generate world prompt model temperature false tr.

Definition run_chat (model context history question : pystr)
    (temperature : T) (tr : list (event T))
  : result pystr * list (event T) :=
  let prompt := CHAT_PROMPT context history question in
  _ollama_generate world prompt model temperature false tr.

End FreeText.

(** A run that makes one generation call after [tr], not in json mode,
    with the given prompt: [r] is what the call gives and the trace with
    the call added. *)
Definition single_call {T} (world : nat -> request T -> post_outcome)
    (model prompt : pystr) (temperature : T) (tr : list (event T))
    (r : result pystr * list (event T)) : Prop :=
  let req := Request model prompt temperature false in
  r = (response_text model (world (calls tr) req),
       tr ++ [Generate req (world (calls tr) req)]).

(** A text without whitespace at its ends, or an exception, which is a
    [ValueError] only for an integer of too many digits in the body. *)
Definition stripped_or_fault (r : result pystr) : Prop :=
  match r with
  | Ok t => strip t = t
  | Raise e => is_ValueError e = false \/ int_limit_error e
  end.

(** ** core/storage.py

    The SQLite database as the statements of the module use it: the two
    tables of the schema, each keyed by its primary key [contract_id],
    with text columns holding the strings the callers pass; a table that
    was not created yet is [None], and a statement on it fails with
    [OperationalError] when it is prepared. The clock behind
    CURRENT_TIMESTAMP is a collaborator: a statement that stores the time
    is given it.

    A string is bound to a statement in UTF-8, and binding one that holds
    a lone surrogate fails with [UnicodeEncodeError]. The texts of the
    model that [save_outputs] stores can hold one, since [json.loads]
    decodes the escape of a lone surrogate: [save_outputs] and
    [load_outputs] check what they bind. The identifier, the vendor and
    the file name that [save_contract] stores come from the interface as
    valid text, and [save_contract] is modelled on such texts. *)
Record contract_row := ContractRow {
  vendor_name : pystr;
  filename : pystr;
  created_at : pystr
}.

Record output_row := OutputRow {
  risk_json : pystr;
  summary : pystr;
  negotiation_email : pystr;
  updated_at : pystr
}.

Record database := Database {
  contracts : option (gmap pystr contract_row);
  outputs : option (gmap pystr output_row)
}.

Inductive sql (A : Type) :=
  | Fetched (a : A)
  | OperationalError
  | UnicodeEncodeError.
Arguments Fetched {A} a.
Arguments OperationalError {A}.
Arguments UnicodeEncodeError {A}.

(** A string that UTF-8 can encode: none of its code points is a
    surrogate. *)
Definition is_surrogate (c : N) : bool := in_range 55296 57343 c.

Definition encodable (s : pystr) : bool :=
  forallb (fun c => negb (is_surrogate c)) s.

(** Two statements CREATE TABLE IF NOT EXISTS. *)
Definition init_db (db : database) : database :=
  Database (Some (default ∅ (contracts db))) (Some (default ∅ (outputs db))).

(** INSERT OR REPLACE on the primary key; [created_at] takes its
    default. *)
Definition save_contract (now contract_id vendor_name filename : pystr)
    (db : database) : sql database :=
  match contracts db with
  | Some table =>
      Fetched (Database
                 (Some (<[contract_id :=
                            ContractRow vendor_name filename now]> table))
                 (outputs db))
  | None => OperationalError
  end.

Definition save_outputs
    (now contract_id risk_json summary negotiation_email : pystr)
    (db : database) : sql database :=
  match outputs db with
  | Some table =>
      if encodable contract_id && encodable risk_json && encodable summary
         && encodable negotiation_email
      then
        Fetched (Database (contracts db)
                   (Some (<[contract_id :=
                              OutputRow risk_json summary negotiation_email
                                now]> table)))
      else UnicodeEncodeError
  | None => OperationalError
  end.

(** SELECT of three columns WHERE the key matches, and [fetchone]. *)
Definition load_outputs (contract_id : pystr) (db : database)
  : sql (option (pystr * pystr * pystr)) :=
  match outputs db with
  | Some table =>
      if encodable contract_id
      then
        Fetched (option_map
                   (fun r => (risk_json r, summary r, negotiation_email r))
                   (table !! contract_id))
      else UnicodeEncodeError
  | None => OperationalError
  end.

(** The order of text values under the default collation: that of the
    bytes of the encoding, which is the order of the code points, a prefix
    coming first. *)
Fixpoint text_le (a b : pystr) : bool :=
  match a, b with
  | [], _ => true
  | _ :: _, [] => false
  | x :: a', y :: b' => N.ltb x y || (N.eqb x y && text_le a' b')
  end.

Definition text_order (a b : pystr) : Prop := text_le a b = true.

#[global] Instance text_order_dec a b : Decision (text_order a b).
Proof. unfold text_order. apply _. Defined.

(** SELECT DISTINCT of the vendor names that are not empty, ORDER BY the
    name. *)
Definition list_vendors (db : database) : sql (list pystr) :=
  match contracts db with
  | Some table =>
      Fetched
        (merge_sort text_order
           (remove_dups
              (List.filter nonempty
                 (map (fun kv => vendor_name (snd kv)) (map_to_list table)))))
  | None => OperationalError
  end.

Definition no_tables : database := Database None None.

(** A text of the model with a lone surrogate, as [json.loads] gives it
    for the escape of one. *)
Definition surrogate_text : pystr := str "risk " ++ [55296%N].

Definition one_contract : gmap pystr contract_row :=
  {[ str "c" := ContractRow (str "Acme") (str "c.pdf") (str "2024-01-01") ]}.

(** ** core/embeddings.py

    The module keeps the loaded model in the global [_model]; loading a
    model, taken to succeed, and encoding with it are collaborators. The
    state is passed along: [None] before the first load. *)
Section Embeddings.

Context {M V : Type}.
Variable SentenceTransformer : pystr -> M.
Variable encode : M -> list pystr -> V.

Definition get_embedder (model_name : pystr) (_model : option M)
  : M * option M :=
  match _model with
  | None => let m := SentenceTransformer model_name in (m, Some m)
  | Some m => (m, Some m)
  end.

Definition embed_texts (texts : list pystr) (model_name : pystr)
    (_model : option M) : V * option M :=
  let '(model, _model') := get_embedder model_name _model in
  (encode model texts, _model').

(** Calls of [embed_texts] one after the other, each with its texts and
    its model name. *)
Fixpoint embed_session (calls : list (list pystr * pystr))
    (_model : option M) : list V * option M :=
  match calls with
  | [] => ([], _model)
  | (texts, model_name) :: rest =>
      let '(v, _model') := embed_texts texts model_name _model in
      let '(vs, _model'') := embed_session rest _model' in
      (v :: vs, _model'')
  end.

End Embeddings.

(** What a line of a streamed body gives: a piece of text when it is a
    JSON object with a string under "response"; nothing when it is blank,
    is not JSON, or is JSON without a "response". *)
Definition line_piece (line : pystr) (piece : option pystr) : Prop :=
  match piece with
  | Some p =>
      strip line <> []
      /\ exists data,
           json_loads (strip line) = Ok data
           /\ response_field data = Some (JStr p)
  | None =>
      strip line = []
      \/ json_loads (strip line) = Raise JSONDecodeError
      \/ exists data,
           json_loads (strip line) = Ok data /\ response_field data = None
  end.

(** The pieces that the lines give, in order. *)
Definition pieces_of (pieces : list (option pystr)) : list pystr :=
  omap id pieces.

Definition streamed_body : pystr :=
  jstr "{'response': 'Hel', 'done': false}" ++ nl ++ nl
  ++ jstr "{'response': 'lo', 'done': true}" ++ nl.

(** Worlds for the examples of the statuses and of the digit limit: a
    collaborator that always answers with the status 302, and one whose
    first answer is a body of 4301 digits and that cannot be reached
    afterwards. *)
Definition always_redirect (n : nat) (req : request Z) : post_outcome :=
  Response 302 garbage_text.

Definition long_integer : pystr := repeat 49%N 4301.

Definition digits_then_unreachable (n : nat) (req : request Z)
  : post_outcome :=
  if (n =? 0)%nat then Response 200 long_integer else ConnectionError.

(* ===================================================================== *)
(** * Part II: properties                                                  *)
(* ===================================================================== *)

(** ** Strings *)

Section StringFacts.

Lemma takewhile_dropwhile p s : takewhile p s ++ dropwhile p s = s.
Proof.
  induction s as [|c s IH]; simpl; [done|].
  destruct (p c); simpl; [by rewrite IH | done].
Qed.

Lemma dropwhile_drop p s : dropwhile p s = drop (length (takewhile p s)) s.
Proof.
  induction s as [|c s IH]; simpl; [done|].
  destruct (p c); simpl; [apply IH | done].
Qed.

Lemma length_takewhile_le p s : (length (takewhile p s) <= length s)%nat.
Proof.
  induction s as [|c s IH]; simpl; [lia|]. destruct (p c); simpl; lia.
Qed.

Lemma length_dropwhile_le p s : (length (dropwhile p s) <= length s)%nat.
Proof.
  induction s as [|c s IH]; simpl; [lia|]. destruct (p c); simpl; lia.
Qed.

Lemma dropwhile_head p s c s' : dropwhile p s = c :: s' -> p c = false.
Proof.
  induction s as [|x s IH]; simpl; [done|].
  destruct (p x) eqn:E; [apply IH|]. intros [= -> _]. done.
Qed.

Lemma dropwhile_id p c s : p c = false -> dropwhile p (c :: s) = c :: s.
Proof. intros E. simpl. by rewrite E. Qed.

Lemma takewhile_all p s : Forall (fun c => p c = true) (takewhile p s).
Proof.
  induction s as [|c s IH]; simpl; [constructor|].
  destruct (p c) eqn:E; constructor; done.
Qed.

Lemma solid_app a b : solid (a ++ b) = solid a ++ solid b.
Proof. apply List.filter_app. Qed.

Lemma solid_rev s : solid (rev s) = rev (solid s).
Proof.
  induction s as [|c s IH]; simpl; [done|].
  rewrite solid_app, IH. simpl. destruct (is_space c); simpl; [|done].
  by rewrite app_nil_r.
Qed.

Lemma solid_dropwhile s : solid (dropwhile is_space s) = solid s.
Proof.
  induction s as [|c s IH]; simpl; [done|].
  destruct (is_space c) eqn:E; simpl; [done|]. by rewrite E.
Qed.

Lemma solid_takewhile s : solid (takewhile is_space s) = [].
Proof.
  induction s as [|c s IH]; simpl; [done|].
  destruct (is_space c) eqn:E; simpl; [|done]. by rewrite E.
Qed.

Lemma solid_strip s : solid (strip s) = solid s.
Proof.
  unfold strip, rstrip, lstrip.
  rewrite solid_rev, solid_dropwhile, solid_rev, rev_involutive.
  apply solid_dropwhile.
Qed.

Lemma solid_take_drop k s : solid (take k s) ++ solid (drop k s) = solid s.
Proof. by rewrite <- solid_app, take_drop. Qed.

Lemma solid_nil_all_space s : solid s = [] -> Forall (fun c => is_space c = true) s.
Proof.
  induction s as [|c s IH]; simpl; [constructor|].
  destruct (is_space c) eqn:E; simpl; [|done]. constructor; auto.
Qed.

Lemma dropwhile_all p s : Forall (fun c => p c = true) s -> dropwhile p s = [].
Proof.
  induction 1 as [|c s Hc _ IH]; simpl; [done|]. by rewrite Hc.
Qed.

Lemma length_strip_le s : (length (strip s) <= length s)%nat.
Proof.
  unfold strip, rstrip, lstrip. rewrite length_rev.
  etrans; [apply length_dropwhile_le|]. rewrite length_rev.
  apply length_dropwhile_le.
Qed.

Lemma dropwhile_head_solid s : head_solid (dropwhile is_space s).
Proof.
  destruct (dropwhile is_space s) eqn:E; simpl; [done|].
  eapply dropwhile_head, E.
Qed.

Lemma rstrip_take s : rstrip s = take (length (rstrip s)) s.
Proof.
  unfold rstrip.
  assert (s = rev (dropwhile is_space (rev s))
              ++ rev (takewhile is_space (rev s))) as E.
  { by rewrite <- rev_app_distr, takewhile_dropwhile, rev_involutive. }
  set (a := rev (dropwhile is_space (rev s))) in *.
  rewrite E at 1. by rewrite take_app_length.
Qed.

Lemma rstrip_head_solid s : head_solid s -> head_solid (rstrip s).
Proof.
  intros H. destruct s as [|c s]; [done|]. rewrite rstrip_take.
  destruct (length (rstrip (c :: s))); simpl; done.
Qed.

Lemma strip_head_solid s : head_solid (strip s).
Proof. apply rstrip_head_solid, dropwhile_head_solid. Qed.

Lemma strip_last_solid s : last_solid (strip s).
Proof.
  unfold last_solid, strip, rstrip. rewrite rev_involutive.
  apply dropwhile_head_solid.
Qed.

Lemma head_solid_lstrip s : head_solid s -> lstrip s = s.
Proof.
  destruct s as [|c s]; simpl; [done|]. intros E. unfold lstrip. simpl.
  by rewrite E.
Qed.

Lemma strip_fixed s : head_solid s -> last_solid s -> strip s = s.
Proof.
  intros Hh Hl. unfold strip. rewrite head_solid_lstrip by done.
  unfold rstrip. unfold last_solid in Hl.
  change (dropwhile is_space (rev s)) with (lstrip (rev s)).
  rewrite (head_solid_lstrip (rev s)) by done. apply rev_involutive.
Qed.

Lemma strip_strip s : strip (strip s) = strip s.
Proof. apply strip_fixed; [apply strip_head_solid | apply strip_last_solid]. Qed.

Lemma nonempty_true s : nonempty s = true <-> s <> [].
Proof. destruct s; simpl; split; done. Qed.

Lemma nonempty_false s : nonempty s = false <-> s = [].
Proof. destruct s; simpl; split; done. Qed.

Lemma head_solid_nonempty_solid s : head_solid s -> s <> [] -> solid s <> [].
Proof.
  destruct s as [|c s]; simpl; [done|]. intros E _. by rewrite E.
Qed.

End StringFacts.

(** ** The sentence cut *)

Section SplitAtSentence.

Lemma dropwhile_snoc_true p a c :
  p c = true -> Forall (fun x => p x = true) a -> dropwhile p (a ++ [c]) = [].
Proof.
  intros Hc Ha. apply dropwhile_all. apply Forall_app. by repeat constructor.
Qed.

Lemma dropwhile_app_stop p a b :
  dropwhile p a <> [] -> dropwhile p (a ++ b) = dropwhile p a ++ b.
Proof.
  induction a as [|x a IH]; simpl; [done|].
  destruct (p x); [apply IH | done].
Qed.

Lemma strip_snoc_space s c : is_space c = true -> strip (s ++ [c]) = strip s.
Proof.
  intros Hc. unfold strip, lstrip.
  destruct (dropwhile is_space s) as [|x r] eqn:E.
  - assert (Forall (fun y => is_space y = true) s) as Hall.
    { apply solid_nil_all_space. by rewrite <- solid_dropwhile, E. }
    by rewrite dropwhile_snoc_true.
  - rewrite dropwhile_app_stop by (by rewrite E). rewrite E.
    unfold rstrip. rewrite rev_app_distr. simpl. by rewrite Hc.
Qed.

Lemma takewhile_lookup p s i x :
  takewhile p s !! i = Some x -> s !! i = Some x /\ p x = true.
Proof.
  revert i. induction s as [|c s IH]; intros i; simpl; [done|].
  destruct (p c) eqn:E; [|done].
  destruct i as [|i]; simpl; [intros [= ->]; done | apply IH].
Qed.

(** Every match of the sentence pattern lies inside the text, starts at a
    terminal punctuation character and ends just after a whitespace
    character. *)
Lemma finditer_spec w : forall pos s e,
  (s, e) ∈ SENTENCE_END_RE_finditer pos w ->
  (pos <= s /\ s + 2 <= e /\ e <= pos + length w)%nat
  /\ (exists p, w !! (s - pos)%nat = Some p /\ is_sentence_punct p = true)
  /\ (exists c, w !! (e - 1 - pos)%nat = Some c /\ is_space c = true).
Proof.
  induction w as [|c w IH]; intros pos s e; simpl.
  { intros H. by apply elem_of_nil in H. }
  assert (forall s e, (s, e) ∈ SENTENCE_END_RE_finditer (S pos) w ->
    (pos <= s /\ s + 2 <= e /\ e <= pos + S (length w))%nat
    /\ (exists p, (c :: w) !! (s - pos)%nat = Some p
                  /\ is_sentence_punct p = true)
    /\ (exists x, (c :: w) !! (e - 1 - pos)%nat = Some x
                  /\ is_space x = true)) as Hrest.
  { intros s' e' H. destruct (IH _ _ _ H) as ((H1 & H2 & H3) & Hp & Hx).
    split; [lia|].
    replace (s' - pos)%nat with (S (s' - S pos)) by lia.
    replace (e' - 1 - pos)%nat with (S (e' - 1 - S pos)) by lia. done. }
  destruct (is_sentence_punct c && starts_with_space w) eqn:E;
    [|by apply Hrest].
  intros [[= -> ->] | H]%elem_of_cons; [|by apply Hrest].
  apply andb_true_iff in E as [Hp Hs].
  destruct w as [|x w]; [done|]. simpl in Hs.
  assert (length (takewhile is_space (x :: w))
          = S (length (takewhile is_space w))) as Hl
    by (simpl; by rewrite Hs).
  pose proof (length_takewhile_le is_space w) as Hle. rewrite Hl.
  simpl length. split; [lia|]. split.
  - exists c. by rewrite Nat.sub_diag.
  - replace (pos + 1 + S (length (takewhile is_space w)) - 1 - pos)%nat
      with (S (length (takewhile is_space w))) by lia.
    destruct (lookup_lt_is_Some_2 (takewhile is_space (x :: w))
                (length (takewhile is_space w))) as [y Hy]; [lia|].
    apply takewhile_lookup in Hy as [Hy1 Hy2]. by exists y.
Qed.

Lemma len_nonneg s : 0 <= len s.
Proof. unfold len. lia. Qed.

Lemma slice_to_nonneg {A} (t : list A) k :
  0 <= k -> slice_to t k = take (Z.to_nat k) t.
Proof. intros H. unfold slice_to. by rewrite (proj2 (Z.ltb_ge k 0)). Qed.

Lemma slice_from_nonneg {A} (t : list A) k :
  0 <= k -> slice_from t k = drop (Z.to_nat k) t.
Proof. intros H. unfold slice_from. by rewrite (proj2 (Z.ltb_ge k 0)). Qed.

(** What [_split_at_sentence] returns on a text longer than a positive
    bound: both parts are a stripped prefix and the stripped rest of the
    text, cut at a position [e] with [1 <= e]; the first part is within the
    bound. *)
Lemma split_at_sentence_cut t max_len :
  0 < max_len -> max_len < len t ->
  exists e : nat,
    (1 <= e <= length t)%nat
    /\ _split_at_sentence t max_len = (strip (take e t), strip (drop e t))
    /\ len (strip (take e t)) <= max_len
    /\ (head_solid t -> strip (take e t) <> []).
Proof.
  intros Hpos Hlen. unfold _split_at_sentence.
  rewrite (proj2 (Z.leb_gt (len t) max_len)) by done.
  rewrite slice_to_nonneg by lia.
  destruct (last (SENTENCE_END_RE_finditer 0
              (take (Z.to_nat (max_len + 1)) t))) as [[s e]|] eqn:El.
  - apply last_Some_elem_of, finditer_spec in El
      as ((H1 & H2 & H3) & (p & Hp & Hpp) & (c & Hc & Hcs)).
    rewrite length_take in H3. unfold len in Hlen.
    rewrite Nat.sub_0_r in Hp, Hc.
    apply lookup_take_Some in Hp as [Hp _].
    apply lookup_take_Some in Hc as [Hc _].
    exists e. rewrite slice_to_nonneg, slice_from_nonneg, Nat2Z.id by lia.
    split; [lia|]. split; [done|].
    replace e with (S (e - 1)) by lia.
    rewrite (take_S_r _ _ _ Hc), strip_snoc_space by done. split.
    + pose proof (length_strip_le (take (e - 1) t)) as Hs.
      rewrite length_take in Hs. unfold len. lia.
    + intros _ Hnil.
      assert (solid (take (e - 1) t) = []) as Hsol
        by (by rewrite <- solid_strip, Hnil).
      apply solid_nil_all_space in Hsol.
      assert (take (e - 1) t !! s = Some p) as Hin
        by (rewrite lookup_take_lt by lia; done).
      eapply Forall_lookup_1 in Hsol; [|exact Hin].
      unfold is_sentence_punct, is_space, in_range in *.
      repeat (apply orb_true_iff in Hpp as [Hpp|Hpp]);
        apply N.eqb_eq in Hpp; subst p; done.
  - exists (Z.to_nat max_len). unfold len in *.
    rewrite slice_to_nonneg, slice_from_nonneg by lia.
    split; [lia|]. split; [done|]. split.
    + pose proof (length_strip_le (take (Z.to_nat max_len) t)) as Hs.
      rewrite length_take in Hs. lia.
    + intros Hh Hnil. destruct t as [|c t]; [simpl in Hlen; lia|].
      destruct (Z.to_nat max_len) as [|n] eqn:En; [lia|].
      simpl in Hnil, Hh.
      assert (solid (c :: take n t) = []) as Hsol
        by (by rewrite <- solid_strip, Hnil).
      simpl in Hsol. by rewrite Hh in Hsol.
Qed.

End SplitAtSentence.

(** ** Tidy texts *)

Section TidyFacts.

Lemma is_space_newline : is_space 10 = true.
Proof. reflexivity. Qed.

Lemma linebreak_is_space c : is_linebreak c = true -> is_space c = true.
Proof.
  unfold is_linebreak, is_space, in_range. intros H.
  repeat (apply orb_true_iff in H as [H|H]);
    repeat match goal with
    | H : _ && _ = true |- _ => apply andb_true_iff in H as [? ?]
    | H : N.leb _ _ = true |- _ => apply N.leb_le in H
    | H : N.eqb _ _ = true |- _ => apply N.eqb_eq in H; subst
    end; try done.
  - replace (9 <=? c)%N with true by (symmetry; apply N.leb_le; lia).
    replace (c <=? 13)%N with true by (symmetry; apply N.leb_le; lia). done.
  - replace (28 <=? c)%N with true by (symmetry; apply N.leb_le; lia).
    replace (c <=? 32)%N with true by (symmetry; apply N.leb_le; lia).
    simpl. by rewrite orb_true_r.
Qed.

Lemma last_solid_snoc s x : last_solid (s ++ [x]) <-> is_space x = false.
Proof. unfold last_solid. by rewrite rev_app_distr. Qed.

Lemma last_solid_last s x : last_solid s -> last s = Some x -> is_space x = false.
Proof. intros H [s' ->]%last_Some. by apply last_solid_snoc in H. Qed.

Lemma last_solid_intro s :
  (forall x, last s = Some x -> is_space x = false) -> last_solid s.
Proof.
  destruct (last s) as [x|] eqn:E.
  - apply last_Some in E as [s' ->]. intros H. apply last_solid_snoc. auto.
  - apply last_None in E as ->. done.
Qed.

Lemma head_solid_head s x : head_solid s -> head s = Some x -> is_space x = false.
Proof. destruct s; simpl; [done|]. by intros ? [= ->]. Qed.

Lemma seams_ok_cons x s :
  seams_ok (x :: s) = true <->
  (forall y, head s = Some y -> seam_ok x y = true) /\ seams_ok s = true.
Proof.
  destruct s as [|y s]; simpl.
  - split; [done|]. done.
  - rewrite andb_true_iff. split.
    + intros [H1 H2]. split; [by intros ? [= <-]|done].
    + intros [H1 H2]. split; [by apply H1|done].
Qed.

Lemma seams_ok_app_inv a b :
  seams_ok (a ++ b) = true -> seams_ok a = true /\ seams_ok b = true.
Proof.
  induction a as [|x a IH]; [done|]. rewrite <- app_comm_cons.
  rewrite !seams_ok_cons. intros [H1 H2]. destruct (IH H2) as [Ha Hb].
  split; [|done]. split; [|done]. intros y Hy. apply H1.
  destruct a; simpl in *; [done|done].
Qed.

Lemma seams_ok_app a b :
  seams_ok a = true -> seams_ok b = true ->
  (forall x y, last a = Some x -> head b = Some y -> seam_ok x y = true) ->
  seams_ok (a ++ b) = true.
Proof.
  induction a as [|x a IH]; [done|]. rewrite <- app_comm_cons.
  rewrite !seams_ok_cons. intros [H1 H2] Hb Hj. split.
  - intros y Hy. destruct a as [|z a]; simpl in Hy.
    + by apply Hj.
    + apply H1. done.
  - apply IH; [done|done|]. intros u v Hu Hv. apply Hj; [|done].
    destruct a; [done|]. by rewrite last_cons_cons.
Qed.

Lemma inner_app_inv a b : inner (a ++ b) -> inner a /\ inner b.
Proof.
  intros [[H1 H2]%Forall_app H3]. apply seams_ok_app_inv in H3 as [? ?].
  done.
Qed.

Lemma inner_take k s : inner s -> inner (take k s).
Proof. rewrite <- (take_drop k s) at 1. by intros [? ?]%inner_app_inv. Qed.

Lemma inner_drop k s : inner s -> inner (drop k s).
Proof. rewrite <- (take_drop k s) at 1. by intros [? ?]%inner_app_inv. Qed.

Lemma inner_strip s : inner s -> inner (strip s).
Proof.
  intros H. unfold strip. rewrite rstrip_take. apply inner_take.
  unfold lstrip. rewrite dropwhile_drop. by apply inner_drop.
Qed.

Lemma tidy_strip s : inner s -> tidy (strip s).
Proof.
  intros H. split; [by apply inner_strip|].
  split; [apply strip_head_solid | apply strip_last_solid].
Qed.

Lemma tidy_strip_id s : tidy s -> strip s = s.
Proof. intros (_ & ? & ?). by apply strip_fixed. Qed.

Lemma tidy_nil : tidy [].
Proof. repeat split; constructor. Qed.

(** Two tidy texts that are not empty stay tidy when joined by a line
    feed. *)
Lemma tidy_join2 a b :
  tidy a -> a <> [] -> tidy b -> b <> [] -> tidy (a ++ nl ++ b).
Proof.
  intros ([Ha1 Ha2] & Hah & Hal) Hane ([Hb1 Hb2] & Hbh & Hbl) Hbne.
  split; [split|split].
  - apply Forall_app. split; [done|]. constructor; done.
  - apply seams_ok_app; [done| |].
    + change (nl ++ b) with (10%N :: b). apply seams_ok_cons. split; [|done].
      intros y Hy. apply (head_solid_head _ _ Hbh) in Hy.
      unfold seam_ok. simpl. rewrite Hy. simpl.
      destruct (N.eqb_spec y 10) as [->|]; done.
    + intros x y Hx [= <-]. apply (last_solid_last _ _ Hal) in Hx.
      unfold seam_ok. rewrite Hx. simpl.
      destruct (N.eqb_spec x 10) as [->|]; done.
  - destruct a; done.
  - apply last_solid_intro. intros x Hx.
    rewrite app_assoc, last_app in Hx.
    destruct (last b) as [z|] eqn:E.
    + injection Hx as <-. eapply last_solid_last; done.
    + by apply last_None in E.
Qed.

Lemma join_cons sep p ps :
  ps <> [] -> join sep (p :: ps) = p ++ sep ++ join sep ps.
Proof. destruct ps; done. Qed.

Lemma join_nonempty sep ps :
  Forall (fun l => l <> []) ps -> ps <> [] -> join sep ps <> [].
Proof.
  destruct 1 as [|p ps Hp Hps]; [done|]. intros _.
  destruct ps; simpl; [done|]. by destruct p.
Qed.

Lemma tidy_join ls :
  Forall (fun l => tidy l /\ l <> []) ls -> tidy (join nl ls).
Proof.
  induction 1 as [|l ls [Hl Hne] Hls IH]; [apply tidy_nil|].
  destruct ls as [|l2 ls]; [done|]. rewrite join_cons by done.
  apply tidy_join2; [done|done|done|].
  apply join_nonempty; [|done]. eapply Forall_impl; [exact Hls|]. by intros ? [? ?].
Qed.

Lemma join_snoc sep ps p :
  ps <> [] -> join sep (ps ++ [p]) = join sep ps ++ sep ++ p.
Proof.
  induction ps as [|q ps IH]; [done|]. intros _.
  destruct ps as [|r ps]; [done|].
  change ((q :: r :: ps) ++ [p]) with (q :: ((r :: ps) ++ [p])).
  rewrite (join_cons sep q ((r :: ps) ++ [p])) by done.
  rewrite IH by done. rewrite (join_cons sep q (r :: ps)) by done.
  by rewrite <- !app_assoc.
Qed.

Lemma solid_nl : solid nl = [].
Proof. reflexivity. Qed.

Lemma solid_join ls : solid (join nl ls) = solid (concat ls).
Proof.
  induction ls as [|l ls IH]; [done|]. destruct ls as [|l2 ls].
  - simpl. by rewrite app_nil_r.
  - rewrite join_cons by done. simpl concat.
    rewrite !solid_app, solid_nl, IH. simpl concat. by rewrite !solid_app.
Qed.

End TidyFacts.

(** ** The two size loops *)

Section SizeLoops.

Lemma sum_len_le_join ls : sum_len ls <= len (join nl ls).
Proof.
  induction ls as [|l ls IH]; [done|]. destruct ls as [|l2 ls].
  - unfold sum_len, len. simpl. lia.
  - rewrite join_cons by done. unfold len in *.
    change (sum_len (l :: l2 :: ls)) with (len l + sum_len (l2 :: ls)).
    rewrite !length_app. unfold len. lia.
Qed.

Lemma cut_rest_shorter (t : pystr) e :
  (1 <= e <= length t)%nat -> (length (strip (drop e t)) < length t)%nat.
Proof.
  intros H. pose proof (length_strip_le (drop e t)) as Hs.
  rewrite length_drop in Hs. lia.
Qed.

(** An invariant kept by every round is kept by the loop, which ends when
    the bound is positive. *)
Lemma size_loop_inv (P : seg_state -> Prop) max_chars :
  0 < max_chars ->
  (forall st e, P st ->
     let t := join nl (current_lines st) in
     max_chars < len t -> (1 <= e <= length t)%nat ->
     len (strip (take e t)) <= max_chars ->
     (head_solid t -> strip (take e t) <> []) ->
     P (size_step st (strip (take e t)) (strip (drop e t)))) ->
  forall fuel st,
    (length (join nl (current_lines st)) < fuel)%nat -> P st ->
    exists st', size_loop fuel max_chars st = Some st' /\ P st'.
Proof.
  intros Hpos Hstep. induction fuel as [|fuel IH]; intros st Hfuel HP; [lia|].
  simpl. destruct (sum_len (current_lines st) >? max_chars) eqn:Hgt;
    [|by exists st].
  apply Z.gtb_lt in Hgt.
  pose proof (sum_len_le_join (current_lines st)) as Hle.
  destruct (split_at_sentence_cut (join nl (current_lines st)) max_chars)
    as (e & He & -> & Hb & Hne); [done|lia|].
  specialize (Hstep st e HP ltac:(lia) He Hb Hne).
  unfold size_step in Hstep.
  destruct (nonempty (strip (drop e (join nl (current_lines st))))) eqn:Ha.
  - apply IH; [|done]. simpl. pose proof (cut_rest_shorter _ _ He). lia.
  - eexists. split; [reflexivity|done].
Qed.

Lemma split_part_loop_inv sec max_chars (P : list chunk -> pystr -> Prop) :
  0 < max_chars ->
  (forall out part e, P out part ->
     max_chars < len part -> (1 <= e <= length part)%nat ->
     len (strip (take e part)) <= max_chars ->
     (head_solid part -> strip (take e part) <> []) ->
     P (out ++ [Chunk (piece_title sec out) (strip (take e part))])
       (strip (drop e part))) ->
  forall fuel out part,
    (length part < fuel)%nat -> P out part ->
    exists out' part',
      split_part_loop fuel sec max_chars out part = Some (out', part')
      /\ P out' part' /\ len part' <= max_chars.
Proof.
  intros Hpos Hstep. induction fuel as [|fuel IH]; intros out part Hfuel HP;
    [lia|].
  simpl. destruct (len part >? max_chars) eqn:Hgt.
  - apply Z.gtb_lt in Hgt.
    destruct (split_at_sentence_cut part max_chars)
      as (e & He & -> & Hb & Hne); [done|lia|].
    apply IH; [|by apply Hstep].
    pose proof (cut_rest_shorter _ _ He). lia.
  - exists out, part. split; [done|]. split; [done|].
    destruct (Z.gtb_spec (len part) max_chars); [done|lia].
Qed.

End SizeLoops.

(** ** The scan of [chunk_text] *)

Section Scan.

Lemma Forall_texts (P : pystr -> Prop) cs :
  Forall P (texts cs) -> Forall (fun c => P (text c)) cs.
Proof.
  induction cs as [|c cs IH]; [constructor|].
  intros [? ?]%Forall_cons. constructor; auto.
Qed.

Lemma texts_snoc cs c : texts (cs ++ [c]) = texts cs ++ [text c].
Proof. unfold texts. by rewrite map_app. Qed.

Lemma solid_concat_snoc ls l :
  solid (concat (ls ++ [l])) = solid (concat ls) ++ solid l.
Proof. rewrite concat_app, solid_app. simpl. by rewrite app_nil_r. Qed.

Lemma good_join ls : Forall good_text ls -> ls <> [] -> good_text (join nl ls).
Proof.
  intros H Hne. split; [by apply tidy_join|].
  apply join_nonempty; [|done]. eapply Forall_impl; [exact H|]. by intros ? [? ?].
Qed.

Lemma seg_inv_size_step seen st e :
  seg_inv seen st ->
  let t := join nl (current_lines st) in
  (1 <= e <= length t)%nat ->
  (head_solid t -> strip (take e t) <> []) ->
  seg_inv seen (size_step st (strip (take e t)) (strip (drop e t))).
Proof.
  intros (Hc & Hl & Hs) t He Hne.
  assert (tidy t) as Ht by (by apply tidy_join).
  assert (strip (take e t) <> []) as Hb by (apply Hne, Ht).
  assert (good_text (strip (take e t))) as Hgb.
  { split; [|done]. apply tidy_strip, inner_take, Ht. }
  assert (tidy (strip (drop e t))) as Hta.
  { apply tidy_strip, inner_drop, Ht. }
  unfold size_step. rewrite (proj2 (nonempty_true _) Hb).
  assert (solid (strip (take e t)) ++ solid (strip (drop e t))
          = solid (concat (current_lines st))) as Hsol.
  { rewrite !solid_strip, solid_take_drop. apply solid_join. }
  split; [|split]; simpl.
  - rewrite texts_snoc. apply Forall_app. split; [done|]. by constructor.
  - destruct (nonempty (strip (drop e t))) eqn:Ea; [|constructor].
    constructor; [|constructor]. split; [done|]. by apply nonempty_true.
  - rewrite texts_snoc, solid_concat_snoc, <- Hs, <- Hsol, <- app_assoc.
    simpl. f_equal. f_equal.
    destruct (nonempty (strip (drop e t))) eqn:Ea; simpl.
    + by rewrite app_nil_r.
    + apply nonempty_false in Ea. by rewrite Ea.
Qed.

Lemma flush_inv seen st :
  seg_inv seen st ->
  seg_inv seen (flush None st) /\ current_lines (flush None st) = [].
Proof.
  intros (Hc & Hl & Hs). split; [|done]. unfold flush.
  destruct (current_lines st) as [|l ls] eqn:E.
  { split; [done|]. split; [constructor|]. done. }
  destruct (good_join (l :: ls)) as [Ht Hne]; [done|done|].
  pose proof (solid_join (l :: ls)) as Hsj.
  revert Ht Hne Hsj. generalize (join nl (l :: ls)). intros t Ht Hne Hsj.
  rewrite tidy_strip_id by done. rewrite (proj2 (nonempty_true _) Hne).
  split; [|split]; simpl.
  - rewrite texts_snoc. apply Forall_app. split; [done|].
    constructor; [|constructor]. done.
  - constructor.
  - rewrite texts_snoc, solid_concat_snoc. cbn [text].
    by rewrite Hsj, app_nil_r.
Qed.

Lemma size_loop_seg_inv seen max_chars st :
  0 < max_chars -> seg_inv seen st ->
  exists st',
    size_loop (S (length (join nl (current_lines st)))) max_chars st = Some st'
    /\ seg_inv seen st'.
Proof.
  intros Hpos Hinv. apply (size_loop_inv (seg_inv seen)); [done| |lia|done].
  intros st0 e H0 t _ He _ Hne. by apply seg_inv_size_step.
Qed.

Lemma seg_inv_push seen st ln title :
  good_text ln -> seg_inv seen st ->
  seg_inv (seen ++ solid ln)
    (SegState (chunks st) (current_lines st ++ [ln]) title).
Proof.
  intros Hln (Hc & Hl & Hs). split; [done|]. split; simpl.
  - apply Forall_app. split; [done|]. by constructor.
  - by rewrite solid_concat_snoc, app_assoc, Hs.
Qed.

Lemma line_step_inv seen max_chars st ln :
  0 < max_chars -> tidy ln -> seg_inv seen st ->
  exists st', line_step max_chars st ln = Some st'
              /\ seg_inv (seen ++ solid ln) st'.
Proof.
  intros Hpos Hln Hinv. unfold line_step.
  destruct (nonempty ln) eqn:Hne.
  - apply nonempty_true in Hne. apply size_loop_seg_inv; [done|].
    destruct (heading_candidate ln).
    + apply flush_inv in Hinv as [Hinv _]. by apply seg_inv_push.
    + by apply seg_inv_push.
  - apply nonempty_false in Hne as ->. exists st. by rewrite app_nil_r.
Qed.

Lemma scan_lines_inv max_chars lines : forall seen st,
  0 < max_chars -> Forall tidy lines -> seg_inv seen st ->
  exists st', scan_lines max_chars st lines = Some st'
              /\ seg_inv (seen ++ solid (concat lines)) st'.
Proof.
  induction lines as [|ln lines IH]; intros seen st Hpos Hall Hinv; simpl.
  - exists st. by rewrite app_nil_r.
  - apply Forall_cons in Hall as [Hln Hall].
    destruct (line_step_inv seen max_chars st ln) as (st1 & -> & H1);
      [done..|].
    destruct (IH _ st1 Hpos Hall H1) as (st2 & -> & H2).
    exists st2. by rewrite solid_app, app_assoc.
Qed.

End Scan.

(** ** Lines of a document *)

Section Lines.

Lemma split_breaks_cons b s : exists l ls, split_breaks b s = l :: ls.
Proof.
  revert b. induction s as [|c s IH]; intros b; simpl; [by eexists _, _|].
  destruct (b && N.eqb c 10); [apply IH|].
  destruct (is_linebreak c); [by eexists _, _|].
  destruct (IH false) as (l & ls & ->). by eexists _, _.
Qed.

Lemma split_breaks_no_break b s :
  Forall (Forall (fun c => is_linebreak c = false)) (split_breaks b s).
Proof.
  revert b. induction s as [|c s IH]; intros b; simpl.
  { repeat constructor. }
  destruct (b && N.eqb c 10); [apply IH|].
  destruct (is_linebreak c) eqn:E.
  - constructor; [constructor | apply IH].
  - specialize (IH false). destruct (split_breaks false s) as [|l ls].
    + repeat constructor. done.
    + apply Forall_cons in IH as [? ?]. repeat constructor; done.
Qed.

Lemma split_breaks_solid b s : solid (concat (split_breaks b s)) = solid s.
Proof.
  revert b. induction s as [|c s IH]; intros b; simpl; [done|].
  destruct (b && N.eqb c 10) eqn:E.
  - apply andb_true_iff in E as [_ ->%N.eqb_eq]. simpl. apply IH.
  - destruct (is_linebreak c) eqn:El.
    + rewrite (linebreak_is_space _ El). simpl. apply IH.
    + destruct (split_breaks_cons false s) as (l & ls & Hs).
      specialize (IH false). rewrite Hs in *. simpl in *.
      destruct (is_space c); simpl; by rewrite IH.
Qed.

Lemma split_breaks_length b s :
  (length (join nl (split_breaks b s)) <= length s)%nat.
Proof.
  revert b. induction s as [|c s IH]; intros b; simpl; [done|].
  destruct (b && N.eqb c 10); [specialize (IH false); lia|].
  destruct (is_linebreak c).
  - destruct (split_breaks_cons (N.eqb c 13) s) as (l & ls & Hs).
    specialize (IH (N.eqb c 13)). rewrite Hs in *.
    rewrite join_cons by done. simpl. simpl in IH. lia.
  - destruct (split_breaks_cons false s) as (l & ls & Hs).
    specialize (IH false). rewrite Hs in *.
    destruct ls as [|l2 ls]; simpl in *; lia.
Qed.

Lemma drop_last_empty_cases ls :
  drop_last_empty ls = ls \/ ls = drop_last_empty ls ++ [[]].
Proof.
  unfold drop_last_empty. destruct (last ls) as [[|c l]|] eqn:E; auto.
  apply last_Some in E as [ls' ->]. right. by rewrite removelast_last.
Qed.

Lemma splitlines_no_break s :
  Forall (Forall (fun c => is_linebreak c = false)) (splitlines s).
Proof.
  pose proof (split_breaks_no_break false s) as H. unfold splitlines.
  destruct (drop_last_empty_cases (split_breaks false s)) as [->| E]; [done|].
  rewrite E in H. by apply Forall_app in H as [? _].
Qed.

Lemma splitlines_solid s : solid (concat (splitlines s)) = solid s.
Proof.
  rewrite <- (split_breaks_solid false s). unfold splitlines.
  destruct (drop_last_empty_cases (split_breaks false s)) as [->| E]; [done|].
  rewrite E at 2. rewrite concat_app. simpl. by rewrite app_nil_r.
Qed.

Lemma length_join_snoc_le ls l :
  (length (join nl ls) <= length (join nl (ls ++ [l])))%nat.
Proof.
  destruct ls as [|p ps]; [simpl; lia|].
  rewrite join_snoc by done. rewrite !length_app. lia.
Qed.

Lemma splitlines_length s : (length (join nl (splitlines s)) <= length s)%nat.
Proof.
  pose proof (split_breaks_length false s) as H. unfold splitlines.
  destruct (drop_last_empty_cases (split_breaks false s)) as [->| E]; [done|].
  rewrite E in H. etrans; [apply length_join_snoc_le | exact H].
Qed.

Lemma no_break_inner l : Forall (fun c => is_linebreak c = false) l -> inner l.
Proof.
  intros H. split.
  - eapply Forall_impl; [exact H|]. intros c -> Hc. done.
  - induction H as [|c l Hc Hl IH]; [done|]. apply seams_ok_cons.
    split; [|done]. intros y Hy. destruct l as [|z l]; [done|].
    injection Hy as ->. apply Forall_cons in Hl as [Hy _].
    unfold seam_ok.
    destruct (N.eqb_spec c 10) as [->|]; [done|].
    destruct (N.eqb_spec y 10) as [->|]; [done|]. simpl.
    by rewrite andb_false_r.
Qed.

Lemma stripped_lines_tidy s : Forall tidy (map strip (splitlines s)).
Proof.
  apply Forall_map. eapply Forall_impl; [apply splitlines_no_break|].
  intros l Hl. simpl. by apply tidy_strip, no_break_inner.
Qed.

Lemma solid_concat_strip ls :
  solid (concat (map strip ls)) = solid (concat ls).
Proof.
  induction ls as [|l ls IH]; [done|]. simpl.
  by rewrite !solid_app, solid_strip, IH.
Qed.

End Lines.

(** ** The post-pass *)

Section PostPass.

(** In a tidy text no paragraph separator matches. *)
Lemma seams_no_paragraph s : forall cur,
  seams_ok s = true -> split_paragraphs_go 0 cur s = [cur ++ s].
Proof.
  induction s as [|c s IH]; intros cur Hs; simpl.
  { by rewrite app_nil_r. }
  apply seams_ok_cons in Hs as [Hc Hs].
  assert (split_paragraphs_go 0 (cur ++ [c]) s = [cur ++ c :: s]) as Hgo.
  { rewrite IH by done. by rewrite <- app_assoc. }
  destruct (N.eqb_spec c 10) as [->|]; [|done].
  unfold last_newline_in_run. destruct s as [|y s]; [done|].
  specialize (Hc y eq_refl). unfold seam_ok in Hc.
  apply negb_true_iff, orb_false_iff in Hc as [Hc _].
  change (N.eqb 10 10) with true in Hc. simpl in Hc.
  simpl takewhile. rewrite Hc. simpl. done.
Qed.

Lemma tidy_one_paragraph t : tidy t -> split_paragraphs t = [t].
Proof. intros ((_ & H) & _). by apply (seams_no_paragraph t []). Qed.

Lemma split_large_chunk_ok c max_chars :
  0 < max_chars -> good_text (text c) -> max_chars < len (text c) ->
  exists out,
    _split_large_chunk c max_chars = Some out
    /\ Forall (piece_ok max_chars) (texts out)
    /\ solid (concat (texts out)) = solid (text c).
Proof.
  intros Hpos [Ht Hne] Hlen. unfold _split_large_chunk.
  rewrite (proj2 (Z.leb_gt _ _)) by done.
  rewrite tidy_one_paragraph by done. simpl. unfold split_part.
  rewrite tidy_strip_id by done. rewrite (proj2 (nonempty_true _) Hne).
  set (sec := str_or (section c) UNKNOWN).
  destruct (split_part_loop_inv sec max_chars
    (fun out part =>
       Forall (piece_ok max_chars) (texts out) /\ tidy part
       /\ solid (concat (texts out)) ++ solid part = solid (text c))
    Hpos) with (fuel := S (length (text c))) (out := @nil chunk)
      (part := text c) as (out & part & -> & (Ho & Hp & Hs) & Hle).
  - intros out part e (Ho & Hp & Hs) Hgt He Hb Hn. split; [|split].
    + rewrite texts_snoc. apply Forall_app. split; [done|].
      constructor; [|constructor]. split; [|done]. split.
      * apply tidy_strip, inner_take, Hp.
      * apply Hn, Hp.
    + apply tidy_strip, inner_drop, Hp.
    + rewrite texts_snoc, solid_concat_snoc. cbn [text].
      rewrite <- app_assoc, !solid_strip, solid_take_drop. done.
  - lia.
  - split; [constructor|]. done.
  - assert (exists out',
      (if nonempty part
       then out ++ [Chunk (piece_title sec out) part] else out) = out'
      /\ Forall (piece_ok max_chars) (texts out')
      /\ solid (concat (texts out')) = solid (text c)) as (out' & -> & Ho' & Hs').
    { destruct (nonempty part) eqn:En; eexists; (split; [reflexivity|]).
      - split.
        + rewrite texts_snoc. apply Forall_app. split; [done|].
          constructor; [|constructor]. split; [|done]. split; [done|].
          by apply nonempty_true.
        + by rewrite texts_snoc, solid_concat_snoc.
      - apply nonempty_false in En as ->. simpl in Hs.
        rewrite app_nil_r in Hs. done. }
    destruct out' as [|o out'].
    + exfalso. simpl in Hs'. symmetry in Hs'.
      by apply (head_solid_nonempty_solid (text c)); [apply Ht|..].
    + by eexists.
Qed.

Lemma post_pass_ok max_chars cs :
  0 < max_chars -> Forall good_text (texts cs) ->
  exists out,
    post_pass max_chars cs = Some out
    /\ Forall (piece_ok max_chars) (texts out)
    /\ solid (concat (texts out)) = solid (concat (texts cs)).
Proof.
  intros Hpos. induction cs as [|c cs IH]; intros Hall; simpl.
  { exists []. split; [done|]. split; [constructor|done]. }
  apply Forall_cons in Hall as [Hc Hall].
  destruct (IH Hall) as (r & -> & Hr & Hsr).
  assert (exists l,
    (if len (text c) >? max_chars then _split_large_chunk c max_chars
     else Some [c]) = Some l
    /\ Forall (piece_ok max_chars) (texts l)
    /\ solid (concat (texts l)) = solid (text c)) as (l & -> & Hl & Hsl).
  { destruct (Z.gtb_spec (len (text c)) max_chars).
    - by apply split_large_chunk_ok.
    - exists [c]. split; [done|]. split.
      + constructor; [|constructor]. split; [done|lia].
      + simpl. by rewrite app_nil_r. }
  exists (l ++ r). split; [done|]. unfold texts in *. rewrite map_app. split.
  - by apply Forall_app.
  - rewrite concat_app, !solid_app. by rewrite Hsl, Hsr.
Qed.

(** The segmenter on a positive bound: it returns, and its segments are
    tidy, not empty, within the bound, and hold the characters of the
    document, whitespace apart. *)
Lemma chunk_text_ok doc max_chars :
  0 < max_chars ->
  exists segs,
    chunk_text doc max_chars = Some segs
    /\ Forall (piece_ok max_chars) (texts segs)
    /\ solid (concat (texts segs)) = solid doc.
Proof.
  intros Hpos. unfold chunk_text.
  destruct (scan_lines_inv max_chars (map strip (splitlines doc)) []
              (SegState [] [] None)) as (st & -> & Hinv);
    [done|apply stripped_lines_tidy|split; [constructor|split; [constructor|done]]|].
  apply flush_inv in Hinv as [(Hc & _ & Hs) Hnil]. rewrite Hnil in Hs.
  revert Hc Hs. generalize (flush None st). clear st Hnil. intros st Hc Hs.
  destruct (post_pass_ok max_chars (chunks st))
    as (out & -> & Ho & Hso); [done|done|].
  exists out. split; [done|]. split; [done|].
  rewrite Hso. simpl in Hs. rewrite app_nil_r in Hs. rewrite Hs.
  by rewrite solid_concat_strip, splitlines_solid.
Qed.

End PostPass.

(** ** The lines of a tidy text *)

Section TidyLines.

Lemma last_solid_cons c s : s <> [] -> last_solid (c :: s) <-> last_solid s.
Proof.
  intros Hne. unfold last_solid. simpl.
  destruct (rev s) as [|x r] eqn:E; [|done].
  apply (f_equal (@rev N)) in E. rewrite rev_involutive in E. done.
Qed.

Lemma last_solid_single c : last_solid [c] <-> is_space c = false.
Proof. done. Qed.

Lemma tidy_split_breaks t :
  newline_only t -> seams_ok t = true -> last_solid t ->
  exists l ls,
    split_breaks false t = l :: ls /\ Forall line_shape ls
    /\ match t with
       | [] => l = []
       | c :: _ => if N.eqb c 10 then l = []
                   else head l = Some c /\ last_solid l
       end.
Proof.
  induction t as [|c t IH]; intros Hn Hs Hl.
  { exists [], []. repeat split; constructor. }
  apply Forall_cons in Hn as [Hc Hn]. apply seams_ok_cons in Hs as [Hcy Hs].
  simpl. destruct (is_linebreak c) eqn:Eb.
  - rewrite (Hc eq_refl) in *. clear Hc. simpl.
    destruct t as [|y t]; [done|].
    apply last_solid_cons in Hl; [|done].
    destruct (IH Hn Hs Hl) as (l & ls & -> & Hls & Hy).
    specialize (Hcy y eq_refl). unfold seam_ok in Hcy.
    apply negb_true_iff, orb_false_iff in Hcy as [Hy1 _].
    change (N.eqb 10 10) with true in Hy1. simpl in Hy1.
    destruct (N.eqb_spec y 10) as [->|Hne]; [done|].
    destruct Hy as [Hh Hll]. eexists _, _. split; [done|]. split; [|done].
    constructor; [|done]. destruct l as [|z l]; [done|].
    injection Hh as ->. done.
  - assert (N.eqb c 10 = false) as Hc10.
    { destruct (N.eqb_spec c 10) as [->|]; done. }
    rewrite Hc10. destruct t as [|y t].
    + simpl. eexists _, _. split; [done|]. split; [constructor|]. done.
    + apply last_solid_cons in Hl; [|done].
      destruct (IH Hn Hs Hl) as (l & ls & -> & Hls & Hy).
      eexists _, _. split; [done|]. split; [done|]. split; [done|].
      destruct (N.eqb_spec y 10) as [->|Hne].
      * subst l. apply last_solid_single.
        specialize (Hcy _ eq_refl). unfold seam_ok in Hcy.
        apply negb_true_iff, orb_false_iff in Hcy as [_ Hy2].
        change (N.eqb 10 10) with true in Hy2.
        by rewrite andb_true_r in Hy2.
      * destruct Hy as [Hh Hll]. apply last_solid_cons; [|done].
        by destruct l.
Qed.

Lemma line_shape_ok l : line_shape l -> line_ok l.
Proof. intros (? & ? & ?). split; [done|]. by apply strip_fixed. Qed.

(** The lines of a tidy text are not blank and carry no whitespace at
    either end. *)
Lemma tidy_lines t : good_text t -> Forall line_ok (splitlines t).
Proof.
  intros [((Hn & Hs) & Hh & Hl) Hne].
  destruct (tidy_split_breaks t Hn Hs Hl) as (l & ls & E & Hls & Hc).
  destruct t as [|c t]; [done|]. simpl in Hh.
  destruct (N.eqb_spec c 10) as [->|_]; [done|]. destruct Hc as [Hc Hll].
  assert (Forall line_shape (l :: ls)) as Hall.
  { constructor; [|done]. destruct l as [|z l]; [done|].
    injection Hc as ->. done. }
  unfold splitlines. rewrite E.
  destruct (drop_last_empty_cases (l :: ls)) as [->|E2].
  - eapply Forall_impl; [exact Hall|]. apply line_shape_ok.
  - exfalso. rewrite E2 in Hall. apply Forall_app in Hall as [_ Hall].
    apply Forall_cons in Hall as [[Hx _] _]. done.
Qed.

End TidyLines.

(** ** A document within the bound and without headings *)

Section SingleSegment.

Lemma sum_len_app a b : sum_len (a ++ b) = sum_len a + sum_len b.
Proof.
  induction a as [|x a IH]; [done|]. unfold sum_len in *. simpl.
  rewrite IH. lia.
Qed.

Lemma sum_len_nonneg a : 0 <= sum_len a.
Proof.
  induction a as [|x a IH]; [done|].
  change (sum_len (x :: a)) with (len x + sum_len a).
  pose proof (len_nonneg x). lia.
Qed.

Lemma size_loop_idle fuel max_chars st :
  sum_len (current_lines st) <= max_chars ->
  size_loop (S fuel) max_chars st = Some st.
Proof.
  intros H. simpl.
  destruct (Z.gtb_spec (sum_len (current_lines st)) max_chars); [lia|done].
Qed.

Lemma scan_lines_plain max_chars lines : forall cur,
  Forall (fun ln => heading_candidate ln = false) (List.filter nonempty lines) ->
  sum_len (cur ++ List.filter nonempty lines) <= max_chars ->
  scan_lines max_chars (SegState [] cur None) lines
  = Some (SegState [] (cur ++ List.filter nonempty lines) None).
Proof.
  induction lines as [|ln lines IH]; intros cur Hh Hs; simpl.
  { by rewrite app_nil_r. }
  simpl in Hh, Hs. unfold line_step. destruct (nonempty ln) eqn:En.
  - apply Forall_cons in Hh as [-> Hh]. cbn [chunks current_lines current_title].
    rewrite size_loop_idle.
    + rewrite IH; [|done|by rewrite <- app_assoc].
      by rewrite <- app_assoc.
    + cbn [current_lines]. rewrite !sum_len_app in *.
      pose proof (sum_len_nonneg (List.filter nonempty lines)).
      change (sum_len (ln :: List.filter nonempty lines))
        with (len ln + sum_len (List.filter nonempty lines)) in Hs.
      change (sum_len [ln]) with (len ln + 0). lia.
  - by apply IH.
Qed.

Lemma length_join_cons l ls :
  (length (join nl (l :: ls))
   = length l + match ls with [] => 0 | _ => 1 + length (join nl ls) end)%nat.
Proof.
  destruct ls; [simpl; lia|]. rewrite join_cons by done.
  by rewrite !length_app.
Qed.

Lemma length_join_source ls :
  (length (join nl (List.filter nonempty (map strip ls)))
   <= length (join nl ls))%nat.
Proof.
  induction ls as [|l ls IH]; [done|]. cbn [map List.filter].
  rewrite (length_join_cons l ls). pose proof (length_strip_le l) as Hl.
  destruct (nonempty (strip l)).
  - rewrite length_join_cons.
    destruct (List.filter nonempty (map strip ls)) eqn:E; [lia|].
    destruct ls; [done|]. lia.
  - destruct ls; [simpl in *; lia|]. lia.
Qed.

Lemma source_lines_length doc : len (join nl (source_lines doc)) <= len doc.
Proof.
  unfold source_lines, len.
  pose proof (length_join_source (splitlines doc)).
  pose proof (splitlines_length doc). lia.
Qed.

Lemma source_lines_good doc : Forall good_text (source_lines doc).
Proof.
  unfold source_lines. apply Forall_forall. intros l Hl.
  apply list_elem_of_In, List.filter_In in Hl as [Hl Hne].
  split; [|by apply nonempty_true].
  pose proof (stripped_lines_tidy doc) as H.
  rewrite Forall_forall in H. by apply H, list_elem_of_In.
Qed.

Lemma no_heading_check ls :
  forallb (fun ln => negb (heading_candidate ln)) ls = true ->
  Forall (fun ln => heading_candidate ln = false) ls.
Proof.
  induction ls as [|l ls IH]; simpl; [constructor|].
  intros [Hl Hls]%andb_true_iff. constructor; [|by apply IH].
  by apply negb_true_iff.
Defined.

Lemma chunk_text_plain doc max_chars :
  Forall (fun ln => heading_candidate ln = false) (source_lines doc) ->
  len doc <= max_chars ->
  chunk_text doc max_chars
  = Some match source_lines doc with
         | [] => []
         | ls => [Chunk UNKNOWN (join nl ls)]
         end.
Proof.
  intros Hh Hlen. unfold chunk_text.
  pose proof (source_lines_length doc) as Hj.
  pose proof (sum_len_le_join (source_lines doc)) as Hsum.
  pose proof (source_lines_good doc) as Hgood.
  rewrite (scan_lines_plain max_chars _ []); [|done|simpl; unfold source_lines in *; lia].
  simpl app. fold (source_lines doc). unfold flush.
  cbn [current_lines chunks current_title lines_truthy].
  destruct (source_lines doc) as [|l ls] eqn:E; [done|].
  destruct (good_join (l :: ls)) as [Ht Hne]; [done|done|].
  revert Ht Hne Hj. generalize (join nl (l :: ls)). intros t Ht Hne Hj.
  rewrite tidy_strip_id by done. rewrite (proj2 (nonempty_true _) Hne).
  simpl. destruct (Z.gtb_spec (len t) max_chars); [lia|done].
Qed.

End SingleSegment.

(** ** A document within the bound: no size cut *)

Section WholeLines.

Lemma split_breaks_plain l rest x xs :
  Forall (fun c => is_linebreak c = false) l ->
  split_breaks false rest = x :: xs ->
  split_breaks false (l ++ rest) = (l ++ x) :: xs.
Proof.
  intros Hl Hr. induction Hl as [|c l Hc _ IH]; [done|].
  simpl. by rewrite Hc, IH.
Qed.

Lemma plain_line_good l : plain_line l -> good_text l.
Proof.
  intros (Hne & Hb & Hh & Hl). split; [|done].
  split; [by apply no_break_inner|done].
Qed.

Lemma split_breaks_join ls :
  Forall plain_line ls -> ls <> [] -> split_breaks false (join nl ls) = ls.
Proof.
  induction 1 as [|l ls (Hne & Hb & _) Hls IH]; [done|]. intros _.
  destruct ls as [|l2 ls].
  - simpl. rewrite <- (app_nil_r l) at 1.
    rewrite (split_breaks_plain l [] [] []) by done. by rewrite app_nil_r.
  - rewrite join_cons by done.
    rewrite (split_breaks_plain l _ [] (l2 :: ls)); [by rewrite app_nil_r|done|].
    change (nl ++ join nl (l2 :: ls)) with (10%N :: join nl (l2 :: ls)).
    simpl split_breaks. f_equal. by apply IH.
Qed.

(** The lines of plain lines joined by line feeds are these lines. *)
Lemma splitlines_join ls : Forall plain_line ls -> splitlines (join nl ls) = ls.
Proof.
  intros H. destruct ls as [|l ls]; [done|].
  unfold splitlines. rewrite split_breaks_join by done.
  destruct (drop_last_empty_cases (l :: ls)) as [->|E]; [done|].
  rewrite E in H. apply Forall_app in H as [_ H].
  apply Forall_cons in H as [[Hne _] _]. done.
Qed.

Lemma segment_lines_snoc cs c :
  segment_lines (cs ++ [c]) = segment_lines cs ++ splitlines (text c).
Proof.
  unfold segment_lines. rewrite map_app, concat_app. simpl.
  by rewrite app_nil_r.
Qed.

Lemma weight_app a b : weight (a ++ b) = weight a + weight b.
Proof.
  induction a as [|x a IH]; [done|].
  change (weight ((x :: a) ++ b)) with (len x + 1 + weight (a ++ b)).
  change (weight (x :: a)) with (len x + 1 + weight a). lia.
Qed.

Lemma weight_nonneg a : 0 <= weight a.
Proof.
  induction a as [|x a IH]; [done|].
  change (weight (x :: a)) with (len x + 1 + weight a).
  pose proof (len_nonneg x). lia.
Qed.

Lemma len_join_weight ls : ls <> [] -> len (join nl ls) = weight ls - 1.
Proof.
  induction ls as [|l ls IH]; [done|]. intros _.
  change (weight (l :: ls)) with (len l + 1 + weight ls).
  destruct ls as [|l2 ls]; [simpl; unfold weight; simpl; lia|].
  rewrite join_cons by done. unfold len in *. rewrite !length_app.
  rewrite Nat2Z.inj_add, Nat2Z.inj_add, IH by done. simpl. lia.
Qed.

Lemma sum_len_weight ls : ls <> [] -> sum_len ls <= weight ls - 1.
Proof.
  intros H. rewrite <- len_join_weight by done. apply sum_len_le_join.
Qed.

Lemma post_pass_idle max_chars cs :
  Forall (fun c => len (text c) <= max_chars) cs ->
  post_pass max_chars cs = Some cs.
Proof.
  induction 1 as [|c cs Hc _ IH]; [done|]. simpl. rewrite IH.
  destruct (Z.gtb_spec (len (text c)) max_chars); [lia|done].
Qed.

(** What [flush] does to a buffer of plain lines within the bound. *)
Lemma flush_plain max_chars st :
  Forall plain_line (current_lines st) ->
  weight (current_lines st) <= max_chars + 1 ->
  Forall (fun c => len (text c) <= max_chars) (chunks st) ->
  segment_lines (chunks (flush None st))
  = segment_lines (chunks st) ++ current_lines st
  /\ current_lines (flush None st) = []
  /\ Forall (fun c => len (text c) <= max_chars) (chunks (flush None st)).
Proof.
  intros Hp Hw Hc. unfold flush. cbn [lines_truthy chunks current_lines].
  destruct (current_lines st) as [|l ls] eqn:E.
  { by rewrite app_nil_r. }
  assert (Forall good_text (l :: ls)) as Hg.
  { eapply Forall_impl; [exact Hp|]. apply plain_line_good. }
  destruct (good_join (l :: ls) Hg) as [Ht Hne]; [done|].
  pose proof (splitlines_join (l :: ls) Hp) as Hsj.
  pose proof (len_join_weight (l :: ls)) as Hlen.
  revert Ht Hne Hsj Hlen. generalize (join nl (l :: ls)).
  intros t Ht Hne Hsj Hlen.
  rewrite tidy_strip_id by done. rewrite (proj2 (nonempty_true _) Hne).
  split; [|split]; [|done|].
  - rewrite segment_lines_snoc. cbn [text]. by rewrite Hsj.
  - apply Forall_app. split; [done|]. constructor; [|constructor].
    cbn [text]. rewrite Hlen by done. lia.
Qed.

Lemma scan_lines_whole max_chars lines : forall st,
  Forall plain_line (List.filter nonempty lines) ->
  Forall plain_line (current_lines st) ->
  weight (current_lines st ++ List.filter nonempty lines) <= max_chars + 1 ->
  Forall (fun c => len (text c) <= max_chars) (chunks st) ->
  exists st',
    scan_lines max_chars st lines = Some st'
    /\ segment_lines (chunks st') ++ current_lines st'
       = segment_lines (chunks st) ++ current_lines st
         ++ List.filter nonempty lines
    /\ Forall plain_line (current_lines st')
    /\ weight (current_lines st') <= max_chars + 1
    /\ Forall (fun c => len (text c) <= max_chars) (chunks st').
Proof.
  induction lines as [|ln lines IH]; intros st Hls Hcur Hw Hc; simpl.
  { exists st. rewrite app_nil_r in *. done. }
  cbn [List.filter] in Hls, Hw. unfold line_step.
  destruct (nonempty ln) eqn:En.
  2:{ by apply IH. }
  apply Forall_cons in Hls as [Hln Hls].
  rewrite weight_app in Hw.
  change (weight (ln :: List.filter nonempty lines))
    with (len ln + 1 + weight (List.filter nonempty lines)) in Hw.
  pose proof (weight_nonneg (List.filter nonempty lines)) as Hnn.
  pose proof (weight_nonneg (current_lines st)) as Hnc.
  pose proof (len_nonneg ln) as Hnl.
  destruct (flush_plain max_chars st Hcur ltac:(lia) Hc) as (Fs & Fl & Fc).
  set (st1 := if heading_candidate ln
              then SegState (chunks (flush None st))
                     (current_lines (flush None st) ++ [ln]) (Some ln)
              else SegState (chunks st) (current_lines st ++ [ln])
                     (current_title st)).
  assert (segment_lines (chunks st1) ++ current_lines st1
          = segment_lines (chunks st) ++ current_lines st ++ [ln]
          /\ Forall plain_line (current_lines st1)
          /\ weight (current_lines st1 ++ List.filter nonempty lines)
             <= max_chars + 1
          /\ Forall (fun c => len (text c) <= max_chars) (chunks st1))
    as (H1 & H2 & H3 & H4).
  { unfold st1. destruct (heading_candidate ln);
      cbn [chunks current_lines].
    - rewrite Fl, Fs. simpl app. split; [by rewrite <- app_assoc|].
      split; [constructor; [done|constructor]|]. split; [|done].
      change (weight (ln :: List.filter nonempty lines))
        with (len ln + 1 + weight (List.filter nonempty lines)). lia.
    - split; [done|].
      split; [apply Forall_app; split; [done|constructor; [done|constructor]]|].
      split; [|done]. rewrite <- app_assoc, weight_app.
      change (weight ([ln] ++ List.filter nonempty lines))
        with (len ln + 1 + weight (List.filter nonempty lines)). lia. }
  fold st1. rewrite size_loop_idle.
  - destruct (IH st1 Hls H2 H3 H4) as (st' & -> & E & Hp' & Hw' & Hc').
    exists st'. split; [done|]. split; [|done].
    rewrite E, app_assoc, H1. by rewrite <- !app_assoc.
  - rewrite weight_app in H3.
    assert (current_lines st1 <> []) as Hne1.
    { unfold st1. destruct (heading_candidate ln); cbn [current_lines];
        intros [_ ?]%app_eq_nil; done. }
    pose proof (sum_len_weight _ Hne1). lia.
Qed.

Lemma source_lines_plain doc : Forall plain_line (source_lines doc).
Proof.
  unfold source_lines. apply Forall_forall. intros l Hl.
  apply list_elem_of_In, List.filter_In in Hl as [Hl Hne].
  apply in_map_iff in Hl as (l0 & <- & Hl0).
  pose proof (splitlines_no_break doc) as Hb. rewrite Forall_forall in Hb.
  specialize (Hb l0 (proj2 (list_elem_of_In _ _) Hl0)).
  split; [by apply nonempty_true|]. split.
  - unfold strip. rewrite rstrip_take. apply Forall_take.
    unfold lstrip. rewrite dropwhile_drop. by apply Forall_drop.
  - split; [apply strip_head_solid | apply strip_last_solid].
Qed.

(** On a document within the bound nothing is cut: the lines of the
    segments are the lines of the document, stripped, the blank ones left
    out. *)
Lemma chunk_text_whole doc max_chars segs :
  len doc <= max_chars -> chunk_text doc max_chars = Some segs ->
  segment_lines segs = source_lines doc.
Proof.
  intros Hlen. unfold chunk_text.
  pose proof (source_lines_plain doc) as Hp.
  pose proof (source_lines_length doc) as Hj.
  assert (weight (source_lines doc) <= max_chars + 1) as Hw.
  { destruct (source_lines doc) as [|l ls] eqn:E.
    - pose proof (len_nonneg doc). change (weight []) with 0. lia.
    - rewrite len_join_weight in Hj by done. lia. }
  destruct (scan_lines_whole max_chars (map strip (splitlines doc))
              (SegState [] [] None)) as (st & -> & E & Hp' & Hw' & Hc');
    [done|constructor|done|constructor|].
  destruct (flush_plain max_chars st Hp' Hw' Hc') as (Fs & _ & Fc).
  rewrite post_pass_idle by done. intros [= Hsegs].
  change (chunks (flush None st) = segs) in Hsegs.
  rewrite <- Hsegs, Fs, E. done.
Qed.

End WholeLines.

(** ** The segmenter: the properties of the specification *)

(** C1. On the scenario document with the default bound the segmenter
    returns two segments with the texts of the specification, but the first
    one is labelled UNKNOWN and not "1. Term": the section pattern does not
    match "1. Term", since after the digits it wants whitespace or a dot
    followed by a digit. *)
Theorem chunk_text_scenario :
  chunk_text scenario_doc DEFAULT_MAX_CHARS
  = Some [Chunk UNKNOWN
            (str "1. Term" ++ nl ++ str "This agreement begins Jan 1.");
          Chunk (str "LIABILITY")
            (str "LIABILITY" ++ nl ++ str "Liability capped at fees paid.")]
  /\ SECTION_RE_match (str "1. Term") = false
  /\ SECTION_RE_match (str "1.1 Fees") = true
  /\ SECTION_RE_match (str "LIABILITY") = true.
Proof. repeat split; vm_compute; reflexivity. Qed.

(** C2. For every document and every positive bound the segmenter returns,
    and the text of every segment is within the bound; no segment is left
    longer than the bound, a long sentence being cut at the bound. *)
Theorem chunk_text_size_bound doc max_chars :
  0 < max_chars ->
  exists segs,
    chunk_text doc max_chars = Some segs
    /\ Forall (fun c => len (text c) <= max_chars) segs.
Proof.
  intros Hpos. destruct (chunk_text_ok doc max_chars Hpos) as (segs & E & H & _).
  exists segs. split; [done|]. apply Forall_texts in H.
  eapply Forall_impl; [exact H|]. by intros c [_ ?].
Qed.

Lemma chunk_text_size_bound_witness :
  0 < 4
  /\ exists segs,
       chunk_text long_line_doc 4 = Some segs
       /\ Forall (fun c => len (text c) <= 4) segs.
Proof. split; [reflexivity|]. apply (chunk_text_size_bound long_line_doc 4). reflexivity. Defined.

(** C3, as stated, fails: a line longer than the bound is cut inside a
    word and at a sentence end, where the whitespace is dropped, and the
    segment texts no longer give back the line. *)
Lemma chunk_text_order_counterexample :
  exists segs,
    chunk_text long_line_doc 4 = Some segs
    /\ source_lines long_line_doc = [long_line_doc]
    /\ ~ order_preserved long_line_doc segs.
Proof.
  eexists. split; [vm_compute; reflexivity|]. split; [vm_compute; reflexivity|].
  intros [H | [sep H]].
  - vm_compute in H. discriminate H.
  - apply (f_equal (@length N)) in H. revert H.
    change (texts _) with [str "abcd"; str "efg."; str "hi"].
    change (source_lines long_line_doc) with [long_line_doc].
    cbn [join]. rewrite !length_app. vm_compute length at 1.
    change (length (str "abcd")) with 4%nat.
    change (length (str "efg.")) with 4%nat.
    change (length (str "hi")) with 2%nat.
    change (length long_line_doc) with 11%nat. lia.
Qed.

(** C3, amended. For every document and every positive bound the segment
    texts, concatenated in their order, hold exactly the characters of the
    document that are not whitespace, in their order: segmenting drops or
    inserts whitespace only. When the document is within the bound nothing
    is cut, and the lines of the segments are the lines of the document,
    stripped, the blank ones left out, in their order. *)
Theorem chunk_text_keeps_characters doc max_chars :
  0 < max_chars ->
  exists segs,
    chunk_text doc max_chars = Some segs
    /\ solid (concat (texts segs)) = solid doc
    /\ (len doc <= max_chars -> segment_lines segs = source_lines doc).
Proof.
  intros Hpos. destruct (chunk_text_ok doc max_chars Hpos) as (segs & E & _ & H).
  exists segs. split; [done|]. split; [done|].
  intros Hlen. by eapply chunk_text_whole.
Qed.

Lemma chunk_text_keeps_characters_witness :
  0 < 4
  /\ exists segs,
       chunk_text long_line_doc 4 = Some segs
       /\ solid (concat (texts segs)) = solid long_line_doc
       /\ (len long_line_doc <= 4
           -> segment_lines segs = source_lines long_line_doc).
Proof. split; [reflexivity|]. apply (chunk_text_keeps_characters long_line_doc 4). reflexivity. Defined.

(** C4, as stated, fails: a blank line inside the document is dropped, so
    the single segment is not the trimmed document. *)
Lemma chunk_text_idempotence_counterexample :
  Forall (fun ln => heading_candidate ln = false) (source_lines blank_line_doc)
  /\ len blank_line_doc <= DEFAULT_MAX_CHARS
  /\ ~ single_trimmed_segment blank_line_doc DEFAULT_MAX_CHARS.
Proof.
  split; [|split].
  - apply no_heading_check. vm_compute. reflexivity.
  - vm_compute. discriminate.
  - intros (c & Hc & Ht). vm_compute in Hc. injection Hc as <-.
    vm_compute in Ht. discriminate Ht.
Qed.

(** C4, amended. A document within the bound whose lines are no heading
    candidates gives one segment, labelled UNKNOWN, whose text is the lines
    of the document, each stripped, the blank ones left out, joined by
    single line feeds; it gives no segment when every line is blank. *)
Theorem chunk_text_single_segment doc max_chars :
  Forall (fun ln => heading_candidate ln = false) (source_lines doc) ->
  len doc <= max_chars ->
  chunk_text doc max_chars
  = Some match source_lines doc with
         | [] => []
         | ls => [Chunk UNKNOWN (join nl ls)]
         end.
Proof. apply chunk_text_plain. Qed.

Lemma chunk_text_single_segment_witness :
  chunk_text blank_line_doc DEFAULT_MAX_CHARS
  = Some [Chunk UNKNOWN (str "a" ++ nl ++ str "b")].
Proof.
  apply (chunk_text_single_segment blank_line_doc DEFAULT_MAX_CHARS).
  - apply no_heading_check. vm_compute. reflexivity.
  - vm_compute. discriminate.
Defined.

(** C9. For every document and every positive bound, every segment text
    is not empty and each of its lines is not blank and has no whitespace
    at either end; a text is made of stripped lines with the blank ones
    left out, in the scan and in the post-pass alike. *)
Theorem chunk_text_lines_stripped doc max_chars :
  0 < max_chars ->
  exists segs,
    chunk_text doc max_chars = Some segs
    /\ Forall (fun c => text c <> []
                        /\ Forall line_ok (splitlines (text c))) segs.
Proof.
  intros Hpos. destruct (chunk_text_ok doc max_chars Hpos) as (segs & E & H & _).
  exists segs. split; [done|]. apply Forall_texts in H.
  eapply Forall_impl; [exact H|]. intros c [Hg _]. split; [apply Hg|].
  by apply tidy_lines.
Qed.

Lemma chunk_text_lines_stripped_witness :
  0 < 4
  /\ exists segs,
       chunk_text long_line_doc 4 = Some segs
       /\ Forall (fun c => text c <> []
                           /\ Forall line_ok (splitlines (text c))) segs.
Proof. split; [reflexivity|]. apply (chunk_text_lines_stripped long_line_doc 4). reflexivity. Defined.

(** ** The evidence selector *)

Section RetrievalFacts.

Context {score : Type}.
Variable fzero : score.
Variables fadd fmul : score -> score -> score.
Variable fneg : score -> score.
Variable flt : score -> score -> bool.
Variable embed_texts : list pystr -> list (list score).

Lemma insert_by_perm {K} (key : nat -> K) ltk x l :
  insert_by key ltk x l ≡ₚ x :: l.
Proof.
  induction l as [|y l IH]; simpl; [done|].
  destruct (ltk (key y) (key x)); [|done].
  rewrite IH. apply Permutation_swap.
Qed.

Lemma sorted_by_perm {K} (key : nat -> K) ltk l : sorted_by key ltk l ≡ₚ l.
Proof.
  induction l as [|x l IH]; simpl; [done|].
  etrans; [apply insert_by_perm|]. by constructor.
Qed.

Lemma slice_to_subseteq {A} (l : list A) k : slice_to l k ⊆ l.
Proof. unfold slice_to. destruct (k <? 0); apply subseteq_take. Qed.

Lemma top_indices_lt q_emb chunk_embs k i :
  i ∈ top_indices fzero fadd fmul fneg flt q_emb chunk_embs k ->
  (i < length chunk_embs)%nat.
Proof.
  unfold top_indices. intros H%slice_to_subseteq.
  rewrite sorted_by_perm in H. apply elem_of_seq in H.
  rewrite length_map in H. lia.
Qed.

Lemma collect_indices_ok queries chunk_embs k : forall s,
  Forall (fun q => embed_texts [q] <> []) queries ->
  exists s',
    collect_indices fzero fadd fmul fneg flt embed_texts queries
      chunk_embs k s = Ok s'
    /\ forall i, i ∈ s' -> i ∈ s \/ (i < length chunk_embs)%nat.
Proof.
  induction queries as [|q queries IH]; intros s Hq; simpl.
  { exists s. split; [done|]. auto. }
  apply Forall_cons in Hq as [Hq Hqs].
  destruct (embed_texts [q]) as [|q_emb rest]; [done|].
  destruct (IH (s ∪ list_to_set
              (top_indices fzero fadd fmul fneg flt q_emb chunk_embs k)) Hqs)
    as (s' & -> & Hs').
  exists s'. split; [done|]. intros i Hi.
  destruct (Hs' i Hi) as [[Hin|Hin]%elem_of_union|Hlt]; auto.
  right. apply elem_of_list_to_set in Hin. by eapply top_indices_lt.
Qed.

Lemma strictly_sorted (l : list nat) :
  StronglySorted Nat.le l -> NoDup l -> StronglySorted lt l.
Proof.
  induction 1 as [|x l Hl IH Hx]; intros Hnd; constructor.
  - apply IH. by apply NoDup_cons in Hnd as [_ ?].
  - apply NoDup_cons in Hnd as [Hnin _].
    apply Forall_forall. intros y Hy.
    rewrite Forall_forall in Hx. specialize (Hx y Hy).
    assert (x <> y) by (intros ->; done). unfold Nat.le in Hx. lia.
Qed.

Lemma sorted_set_spec (s : gset nat) :
  StronglySorted lt (sorted_set s)
  /\ forall i, i ∈ sorted_set s <-> i ∈ s.
Proof.
  unfold sorted_set. split.
  - apply strictly_sorted.
    + apply StronglySorted_merge_sort; apply _.
    + rewrite merge_sort_Permutation. apply NoDup_elements.
  - intros i. rewrite merge_sort_Permutation. apply elem_of_elements.
Qed.

Lemma pick_ok {A} (xs : list A) idxs :
  Forall (fun i => (i < length xs)%nat) idxs ->
  exists picked,
    pick xs idxs = Ok picked
    /\ Forall2 (fun i c => xs !! i = Some c) idxs picked.
Proof.
  induction 1 as [|i idxs Hi _ (picked & IH & H2)]; simpl.
  { exists []. split; [done|constructor]. }
  destruct (lookup_lt_is_Some_2 xs i Hi) as [x Hx]. rewrite Hx, IH. simpl.
  exists (x :: picked). split; [done|]. by constructor.
Qed.

(** What the selector returns on a segment list that is not empty, when
    the embedding collaborator gives one vector per text. *)
Lemma retrieve_evidence_ok chunks k max_chars :
  chunks <> [] ->
  length (embed_texts (map text chunks)) = length chunks ->
  Forall (fun q => embed_texts [q] <> []) RISK_QUERIES ->
  exists s out,
    collect_indices fzero fadd fmul fneg flt embed_texts RISK_QUERIES
      (embed_texts (map text chunks)) k ∅ = Ok s
    /\ bundle_of chunks (sorted_set s) out
    /\ retrieve_evidence_for_risk fzero fadd fmul fneg flt embed_texts
         chunks k max_chars = Ok (cap_evidence max_chars out).
Proof.
  intros Hne Hlen Hq. unfold retrieve_evidence_for_risk.
  destruct chunks as [|c0 chunks0] eqn:Ec; [done|]. rewrite <- Ec in *.
  destruct (collect_indices_ok RISK_QUERIES (embed_texts (map text chunks))
              k ∅ Hq) as (s & Hs & Hin).
  destruct (sorted_set_spec s) as [Hsorted Hmem].
  destruct (pick_ok chunks (sorted_set s)) as (picked & Hp & H2).
  { apply Forall_forall. intros i Hi. apply Hmem, Hin in Hi as [Hi|Hi].
    - by apply elem_of_empty in Hi.
    - by rewrite <- Hlen. }
  exists s, (join blank_line (map text picked)). split; [done|]. split.
  - split; [done|]. by exists picked.
  - rewrite Hs. simpl. rewrite Hp. done.
Qed.

End RetrievalFacts.

(** C5, as stated, fails: when the joined texts are longer than
    [max_chars] the selector returns their first [max_chars] characters and
    the truncation notice, which is not the joined texts of any selection. *)
Lemma retrieve_evidence_counterexample :
  two_chunks <> []
  /\ ~ exists idxs out,
         bundle_of two_chunks idxs out
         /\ retrieve_with_lengths two_chunks 5 3 = Ok out.
Proof.
  split; [done|]. intros (idxs & out & (_ & picked & H2 & ->) & Hr).
  assert (retrieve_with_lengths two_chunks 5 3
          = Ok (str "aaa" ++ truncation_notice)) as E
    by (vm_compute; reflexivity).
  rewrite E in Hr. injection Hr as Hr.
  destruct H2 as [|i c idxs picked Hi H2]; [done|].
  assert (exists r, join blank_line (map text (c :: picked)) = text c ++ r)
    as [r Hj].
  { destruct picked; simpl; [exists []; by rewrite app_nil_r | by eexists]. }
  rewrite Hj in Hr.
  destruct i as [|[|i]]; simpl in Hi; [| |done];
    injection Hi as <-; vm_compute in Hr; discriminate Hr.
Qed.

(** C5, amended. For every segment list that is not empty, the indices
    selected over all topic queries form a set, so none is used twice; the
    selector joins the texts of the segments at these indices, in ascending
    order, by blank lines, and returns that text when it is within
    [max_chars], and otherwise its first [max_chars] characters followed by
    the truncation notice. The embedding collaborator gives one vector per
    text. *)
Theorem retrieve_evidence_dedup_ordered
    {score : Type} (fzero : score) (fadd fmul : score -> score -> score)
    (fneg : score -> score) (flt : score -> score -> bool)
    (embed_texts : list pystr -> list (list score))
    (chunks : list chunk) (top_k_per_query max_chars : Z) :
  chunks <> [] ->
  length (embed_texts (map text chunks)) = length chunks ->
  Forall (fun q => embed_texts [q] <> []) RISK_QUERIES ->
  exists s out,
    collect_indices fzero fadd fmul fneg flt embed_texts RISK_QUERIES
      (embed_texts (map text chunks)) top_k_per_query ∅ = Ok s
    /\ bundle_of chunks (sorted_set s) out
    /\ retrieve_evidence_for_risk fzero fadd fmul fneg flt embed_texts
         chunks top_k_per_query max_chars = Ok (cap_evidence max_chars out).
Proof. apply retrieve_evidence_ok. Qed.

Lemma retrieve_evidence_dedup_ordered_witness :
  exists s out,
    collect_indices 0 Z.add Z.mul Z.opp Z.ltb length_embedder RISK_QUERIES
      (length_embedder (map text two_chunks)) 5 ∅ = Ok s
    /\ bundle_of two_chunks (sorted_set s) out
    /\ retrieve_with_lengths two_chunks 5 3 = Ok (cap_evidence 3 out).
Proof.
  apply (retrieve_evidence_dedup_ordered 0 Z.add Z.mul Z.opp Z.ltb
           length_embedder two_chunks 5 3).
  - discriminate.
  - reflexivity.
  - repeat constructor; discriminate.
Defined.

(** ** The extractor *)

Section ExtractorFacts.

Lemma starts_with_spec p s : starts_with p s = true <-> exists b, s = p ++ b.
Proof.
  revert s. induction p as [|x p IH]; intros s; simpl.
  { split; [by exists s|done]. }
  destruct s as [|y s]; [split; [done|by intros [? ?]]|].
  rewrite andb_true_iff, N.eqb_eq, IH. split.
  - intros [-> [b ->]]. by exists b.
  - intros [b [= -> ->]]. split; [done|by exists b].
Qed.

Lemma has_sub_spec p s : has_sub p s = true <-> contains p s.
Proof.
  induction s as [|c s IH]; simpl.
  - rewrite orb_false_r, starts_with_spec. split.
    + intros [b ->]. exists [], b. done.
    + intros (a & b & E). destruct a; [by exists b|done].
  - rewrite orb_true_iff, starts_with_spec, IH. split.
    + intros [[b ->]|(a & b & ->)]; [by exists [], b|by exists (c :: a), b].
    + intros (a & b & E). destruct a as [|x a].
      * left. by exists b.
      * right. injection E as -> ->. by exists a, b.
Qed.

Lemma contains_take_drop p s j k :
  contains p (take k (drop j s)) -> contains p s.
Proof.
  intros (a & b & E). exists (take j s ++ a), (b ++ drop k (drop j s)).
  rewrite <- (take_drop j s) at 1. rewrite <- (take_drop k (drop j s)) at 1.
  rewrite E. by rewrite <- !app_assoc.
Qed.

Lemma contains_strip p s : contains p (strip s) -> contains p s.
Proof.
  unfold strip. rewrite rstrip_take. unfold lstrip. rewrite dropwhile_drop.
  apply contains_take_drop.
Qed.

Lemma search_fence_contains s g :
  search_fence s = Some g -> contains json_fence s.
Proof.
  induction s as [|c s IH]; simpl.
  - unfold fence_here. simpl. done.
  - destruct (fence_here (c :: s)) as [g'|] eqn:E.
    + intros _. unfold fence_here in E.
      destruct (starts_with json_fence (c :: s)) eqn:Es; [|done].
      apply starts_with_spec in Es as [b ->]. by exists [], b.
    + intros (a & b & ->)%IH. by exists (c :: a), b.
Qed.

Lemma no_fence_no_match s :
  has_sub json_fence s = false -> search_fence (strip s) = None.
Proof.
  intros H. destruct (search_fence (strip s)) as [g|] eqn:E; [|done].
  apply search_fence_contains, contains_strip, has_sub_spec in E. congruence.
Qed.

Lemma dropwhile_app_keep p a b :
  match b with c :: _ => p c = false | [] => False end ->
  dropwhile p (a ++ b) = dropwhile p a ++ b.
Proof.
  intros Hb. induction a as [|x a IH]; simpl.
  - destruct b as [|c b]; [done|]. simpl. by rewrite Hb.
  - destruct (p x); [apply IH|done].
Qed.

(** Stripping a text around a middle part that starts and ends with
    characters that are not whitespace. *)
Lemma strip_around pre mid suf :
  mid <> [] -> head_solid mid -> last_solid mid ->
  strip (pre ++ mid ++ suf) = lstrip pre ++ mid ++ rstrip suf.
Proof.
  intros Hne Hh Hl. unfold strip, lstrip.
  rewrite (dropwhile_app_keep is_space pre (mid ++ suf)).
  2:{ destruct mid; [done|]. exact Hh. }
  unfold rstrip. rewrite !rev_app_distr, <- app_assoc.
  rewrite (dropwhile_app_keep is_space (rev suf)).
  2:{ unfold last_solid in Hl. destruct (rev mid) eqn:E; [|exact Hl].
      apply (f_equal (@rev N)) in E. rewrite rev_involutive in E. done. }
  rewrite !rev_app_distr, !rev_involutive. by rewrite <- !app_assoc.
Qed.

Lemma has_char_app c a b : has_char c (a ++ b) = has_char c a || has_char c b.
Proof. apply existsb_app. Qed.

Lemma has_char_drop c k s : has_char c s = false -> has_char c (drop k s) = false.
Proof.
  rewrite <- (take_drop k s) at 1. rewrite has_char_app.
  by intros [_ ?]%orb_false_iff.
Qed.

Lemma has_char_take c k s : has_char c s = false -> has_char c (take k s) = false.
Proof.
  rewrite <- (take_drop k s) at 1. rewrite has_char_app.
  by intros [? _]%orb_false_iff.
Qed.

Lemma has_char_lstrip c s : has_char c s = false -> has_char c (lstrip s) = false.
Proof. unfold lstrip. rewrite dropwhile_drop. apply has_char_drop. Qed.

Lemma has_char_rstrip c s : has_char c s = false -> has_char c (rstrip s) = false.
Proof. rewrite rstrip_take. apply has_char_take. Qed.

Lemma dropwhile_not_char c a b :
  has_char c a = false ->
  dropwhile (fun x => negb (N.eqb x c)) (a ++ c :: b) = c :: b.
Proof.
  induction a as [|x a IH]; simpl.
  - by rewrite N.eqb_refl.
  - intros [Hx Ha]%orb_false_iff. rewrite N.eqb_sym, Hx. simpl. by apply IH.
Qed.

Lemma last_index_of_none c s : forall pos,
  has_char c s = false -> last_index_of c pos s = None.
Proof.
  induction s as [|x s IH]; intros pos; simpl; [done|].
  intros [Hx Hs]%orb_false_iff. rewrite IH by done.
  by rewrite N.eqb_sym, Hx.
Qed.

Lemma last_index_of_last c a b : forall pos,
  has_char c b = false ->
  last_index_of c pos (a ++ c :: b) = Some (pos + length a)%nat.
Proof.
  induction a as [|x a IH]; intros pos Hb; simpl.
  - rewrite last_index_of_none by done. rewrite N.eqb_refl. f_equal. lia.
  - rewrite IH by done. f_equal. lia.
Qed.

(** The greedy brace pattern finds exactly a text in braces when no
    opening brace comes before it and no closing brace after it. *)
Lemma search_braces_exact pre body suf :
  has_char 123 pre = false -> has_char 125 suf = false ->
  search_braces (pre ++ (123%N :: body ++ [125%N]) ++ suf)
  = Some (123%N :: body ++ [125%N]).
Proof.
  intros Hpre Hsuf. unfold search_braces.
  change ((123%N :: body ++ [125%N]) ++ suf)
    with (123%N :: ((body ++ [125%N]) ++ suf)).
  rewrite dropwhile_not_char by done.
  rewrite <- app_assoc. simpl app.
  rewrite last_index_of_last by done. simpl Nat.add.
  f_equal. f_equal.
  replace (S (length body)) with (length (body ++ [125%N]))
    by (rewrite length_app; simpl; lia).
  change (body ++ 125%N :: suf) with (body ++ [125%N] ++ suf).
  by rewrite app_assoc, take_app_length.
Qed.

Lemma braces_shape ser :
  head ser = Some 123%N -> last ser = Some 125%N ->
  exists body, ser = 123%N :: body ++ [125%N].
Proof.
  intros Hh [ser' ->]%last_Some. destruct ser' as [|c body]; [done|].
  injection Hh as ->. by exists body.
Qed.

Lemma extract_embedded pre ser suf obj :
  json_loads ser = Ok obj ->
  head ser = Some 123%N -> last ser = Some 125%N ->
  has_char 123 pre = false -> has_char 125 suf = false ->
  has_sub json_fence (pre ++ ser ++ suf) = false ->
  _extract_json_obj (pre ++ ser ++ suf) = Ok obj.
Proof.
  intros Hloads Hh Hl Hpre Hsuf Hfence.
  destruct (braces_shape ser Hh Hl) as [body Hser].
  assert (strip (pre ++ ser ++ suf) = lstrip pre ++ ser ++ rstrip suf) as Hs.
  { apply strip_around.
    - by rewrite Hser.
    - by rewrite Hser.
    - rewrite Hser, app_comm_cons. by apply last_solid_snoc. }
  unfold _extract_json_obj.
  rewrite (no_fence_no_match _ Hfence). rewrite Hs.
  assert (nonempty (pre ++ ser ++ suf) = true) as ->.
  { rewrite Hser. apply nonempty_true. by destruct pre. }
  assert (nonempty (lstrip pre ++ ser ++ rstrip suf) = true) as ->.
  { rewrite Hser. apply nonempty_true. by destruct (lstrip pre). }
  cbn [andb negb]. cbv zeta.
  rewrite Hser at 1. rewrite app_assoc, <- (app_assoc (lstrip pre)).
  rewrite search_braces_exact;
    [|by apply has_char_lstrip|by apply has_char_rstrip].
  rewrite <- Hser. unfold try_loads at 1. by rewrite Hloads.
Qed.

End ExtractorFacts.

(** C6, as stated, fails: with an opening brace in the prose before the
    object, the greedy brace pattern spans from that brace to the end of
    the object, no strategy parses, and the extractor raises. *)
Lemma extract_json_round_trip_counterexample :
  json_loads small_object_text = Ok small_object
  /\ _extract_json_obj (braces_prose ++ small_object_text ++ [])
     = Raise (ValueError
                (parse_error_message (braces_prose ++ small_object_text))).
Proof. split; vm_compute; reflexivity. Qed.

(** C6, amended. For every JSON object and every serialization of it, a
    text in braces that [json.loads] reads back as the object, embedding
    the serialization in prose with no opening brace before it and no
    closing brace after it, in a text that holds no json fence, gives a
    text on which the extractor returns the object. *)
Theorem extract_json_round_trip pre ser suf members :
  json_loads ser = Ok (JObj members) ->
  head ser = Some 123%N -> last ser = Some 125%N ->
  has_char 123 pre = false -> has_char 125 suf = false ->
  has_sub json_fence (pre ++ ser ++ suf) = false ->
  _extract_json_obj (pre ++ ser ++ suf) = Ok (JObj members).
Proof. apply extract_embedded. Qed.

Lemma extract_json_round_trip_witness :
  _extract_json_obj (plain_prose ++ small_object_text ++ str " Thanks.")
  = Ok small_object.
Proof.
  apply (extract_json_round_trip plain_prose small_object_text
           (str " Thanks.") [(str "a", JInt 1)]);
    vm_compute; reflexivity.
Defined.

(** C10. The texts "[1, 2]" and "5" hold no opening brace; the fence
    pattern and the brace pattern find nothing in them, they do not start
    with a quote, the cleanup of trailing commas leaves them as they are,
    and the last strategy parses the whole text: the extractor returns an
    array and a number, and raises nothing. *)
Theorem extract_json_non_object :
  (has_char 123 (str "[1, 2]") = false
   /\ search_fence (str "[1, 2]") = None
   /\ search_braces (str "[1, 2]") = None
   /\ starts_with [34%N] (lstrip (str "[1, 2]")) = false
   /\ sub_trailing_comma 93 false (sub_trailing_comma 125 false (str "[1, 2]"))
      = str "[1, 2]"
   /\ _extract_json_obj (str "[1, 2]") = Ok (JArr [JInt 1; JInt 2]))
  /\ (has_char 123 (str "5") = false
      /\ search_fence (str "5") = None
      /\ search_braces (str "5") = None
      /\ starts_with [34%N] (lstrip (str "5")) = false
      /\ _extract_json_obj (str "5") = Ok (JInt 5)).
Proof. repeat split; vm_compute; reflexivity. Qed.

(** ** The invoker *)

Section InvokerFacts.

Context {T : Type}.
Variable world : nat -> request T -> post_outcome.
Variables model clauses_text : pystr.
Variable temperature : T.
Variable playbook_rules : option pystr.

Let body :=
  risk_review_body world model clauses_text temperature playbook_rules.

Ltac scan_cases :=
  repeat (first
    [ done
    | match goal with
      | |- context [match ?x with _ => _ end] => destruct x eqn:?
      end ]).

Lemma join_surrogates_digits c rest n :
  join_surrogates c rest <> TooManyDigits n.
Proof. unfold join_surrogates. scan_cases. Qed.

Lemma scanstring_digits fuel : forall acc s n,
  scanstring fuel acc s <> TooManyDigits n.
Proof.
  induction fuel as [|f IH]; intros acc s n; cbn [scanstring]; [done|].
  pose proof join_surrogates_digits as Hj.
  scan_cases; try apply IH.
  intros [= <-]. by eapply Hj.
Qed.

Lemma match_number_digits s n :
  match_number s = TooManyDigits n -> (INT_MAX_STR_DIGITS < n)%nat.
Proof.
  unfold match_number.
  destruct (match s with 45%N :: r => (true, r) | _ => (false, s) end)
    as [neg s1].
  destruct s1 as [|d r]; [done|]. destruct (ascii_digit d); [|done].
  destruct (if N.eqb d 48 then ([d], r)
            else (d :: takewhile ascii_digit r, dropwhile ascii_digit r))
    as [ip s2].
  destruct (match scan_fraction s2 with
            | Some (ds, rest) => (Some ds, rest)
            | None => (None, s2)
            end) as [fp s3].
  destruct (match scan_exponent s3 with
            | Some (e, rest) => (Some e, rest)
            | None => (None, s3)
            end) as [ep s4].
  destruct fp, ep; try done.
  destruct (Nat.ltb_spec INT_MAX_STR_DIGITS (length ip)); [|done].
  by intros [= <-].
Qed.

Lemma object_members_digits scan_value fuel : forall acc s n,
  (forall s' n', scan_value s' = TooManyDigits n' ->
     (INT_MAX_STR_DIGITS < n')%nat) ->
  object_members scan_value fuel acc s = TooManyDigits n ->
  (INT_MAX_STR_DIGITS < n)%nat.
Proof.
  induction fuel as [|f IH]; intros acc s n Hv; cbn [object_members];
    [done|].
  pose proof scanstring_digits as Hs.
  scan_cases; try (by apply IH); intros [= <-];
    first [by eapply Hv | by edestruct Hs].
Qed.

Lemma array_items_digits scan_value fuel : forall acc s n,
  (forall s' n', scan_value s' = TooManyDigits n' ->
     (INT_MAX_STR_DIGITS < n')%nat) ->
  array_items scan_value fuel acc s = TooManyDigits n ->
  (INT_MAX_STR_DIGITS < n)%nat.
Proof.
  induction fuel as [|f IH]; intros acc s n Hv; cbn [array_items]; [done|].
  scan_cases; try (by apply IH); intros [= <-]; by eapply Hv.
Qed.

Lemma scan_once_digits fuel : forall s n,
  scan_once fuel s = TooManyDigits n -> (INT_MAX_STR_DIGITS < n)%nat.
Proof.
  induction fuel as [|f IH]; intros s n; [done|].
  cbn [scan_once]. destruct s as [|c r]; [done|].
  pose proof scanstring_digits as Hs.
  destruct (N.eqb c 34).
  { destruct (scanstring (S (length r)) [] r) eqn:E; try done.
    by edestruct Hs. }
  destruct (N.eqb c 123).
  { scan_cases; by apply object_members_digits. }
  destruct (N.eqb c 91).
  { scan_cases; by apply array_items_digits. }
  repeat (destruct (starts_with _ (c :: r)); [done|]).
  apply match_number_digits.
Qed.

Lemma json_loads_raises s e :
  json_loads s = Raise e ->
  e = JSONDecodeError \/ e = RecursionError \/ int_limit_error e.
Proof.
  unfold json_loads. destruct (starts_with _ s); [intros [= <-]; auto|].
  destruct (scan_once _ _) as [v rest| | |n] eqn:E.
  - destruct (nonempty _); [intros [= <-]; auto|done].
  - intros [= <-]; auto.
  - intros [= <-]; auto.
  - intros [= <-]. right; right. exists n. split; [|done].
    by eapply scan_once_digits.
Qed.

Lemma int_limit_error_value e : int_limit_error e -> is_ValueError e = true.
Proof. by intros (n & _ & ->). Qed.

Lemma int_limit_error_not_decode : ~ int_limit_error JSONDecodeError.
Proof. by intros (n & _ & ?). Qed.

Lemma join_items_raises out e :
  join_items out = Raise e -> is_ValueError e = false.
Proof.
  induction out as [|v out IH]; simpl; [done|].
  destruct v; try (by intros [= <-]).
  destruct (join_items out); simpl; [done|]. intros [= <-]. by apply IH.
Qed.

Lemma ndjson_lines_raises lines : forall out e,
  ndjson_lines lines out = Raise e ->
  is_ValueError e = false \/ int_limit_error e.
Proof.
  induction lines as [|l lines IH]; intros out e; simpl; [done|].
  destruct (nonempty (strip l)); [|apply IH].
  destruct (json_loads (strip l)) as [data|e'] eqn:E.
  - destruct (response_field data); apply IH.
  - apply json_loads_raises in E as [->|[->|E]]; [apply IH| |].
    + intros [= <-]. by left.
    + destruct e'; try (intros [= <-]; by right).
      by destruct int_limit_error_not_decode.
Qed.

Lemma parse_ndjson_raises t e :
  parse_ndjson t = Raise e -> is_ValueError e = false \/ int_limit_error e.
Proof.
  unfold parse_ndjson.
  destruct (ndjson_lines (splitlines t) []) as [out|e'] eqn:E; simpl.
  - destruct out as [|v out]; [done|].
    destruct (join_items (v :: out)) as [parts|e''] eqn:Ej; simpl; [done|].
    intros [= <-]. left. by eapply join_items_raises.
  - intros [= <-]. by eapply ndjson_lines_raises.
Qed.

Lemma parse_body_raises t e :
  _parse_ollama_response_body t = Raise e ->
  is_ValueError e = false \/ int_limit_error e.
Proof.
  unfold _parse_ollama_response_body. destruct (nonempty (strip t)); [|done].
  destruct (json_loads (strip t)) as [data|e'] eqn:E.
  - destruct (response_field data) as [v|]; [|apply parse_ndjson_raises].
    destruct (or_empty v); try done; intros [= <-]; by left.
  - apply json_loads_raises in E as [->|[->|E]];
      [apply parse_ndjson_raises|intros [= <-]; by left|].
    destruct e'; try (intros [= <-]; by right).
    by destruct int_limit_error_not_decode.
Qed.

Lemma fault_error_not_value_error m resp e :
  fault_error m resp = Some e -> is_ValueError e = false.
Proof.
  destruct resp as [| |st b]; simpl; try (by intros [= <-]).
  destruct (is_error_status st); [|done].
  destruct (st =? 404); by intros [= <-].
Qed.

Lemma response_text_raises m resp e :
  response_text m resp = Raise e ->
  (fault_error m resp = Some e /\ is_ValueError e = false)
  \/ (fault_error m resp = None
      /\ (is_ValueError e = false \/ int_limit_error e)).
Proof.
  unfold response_text. destruct (fault_error m resp) as [e'|] eqn:E.
  - intros [= <-]. left. split; [done|].
    by eapply fault_error_not_value_error.
  - destruct resp; try done. intros H%parse_body_raises. auto.
Qed.

(** A [ValueError] of a generation call is the one of the digit limit. *)
Lemma response_text_value_error m resp e :
  response_text m resp = Raise e -> is_ValueError e = true ->
  fault_error m resp = None /\ int_limit_error e.
Proof.
  intros [[_ H]|[Hf [H|H]]]%response_text_raises V; try congruence. done.
Qed.

Lemma response_text_ok m resp raw :
  response_text m resp = Ok raw -> fault_error m resp = None.
Proof. unfold response_text. by destruct (fault_error m resp). Qed.

Lemma transport_fault_error m resp :
  transport_fault resp = true ->
  exists msg, fault_error m resp = Some (RuntimeError msg).
Proof.
  destruct resp as [| |st b]; simpl; [by eexists|done|].
  intros ->. destruct (st =? 404); by eexists.
Qed.

(** *** Traces that grow by one event *)

Lemma no_fault_nil : no_fault (@nil (event T)).
Proof. intros i ? ? H. by rewrite lookup_nil in H. Qed.

Lemma sleeps_justified_nil : sleeps_justified (@nil (event T)).
Proof. intros i ? H. by rewrite lookup_nil in H. Qed.

Lemma no_fault_generate tr (req : request T) resp :
  no_fault tr -> fault_error (req_model req) resp = None ->
  no_fault (tr ++ [Generate req resp]).
Proof.
  intros Htr Hr i req' resp' [[_ H]|[_ [= <- <-]]]%lookup_snoc_Some; eauto.
Qed.

Lemma no_fault_sleep (tr : list (event T)) secs :
  no_fault tr -> no_fault (tr ++ [Sleep secs]).
Proof.
  intros Htr i req' resp' [[_ H]|[_ [=]]]%lookup_snoc_Some; eauto.
Qed.

Lemma sleeps_justified_generate tr (req : request T) resp :
  sleeps_justified tr -> sleeps_justified (tr ++ [Generate req resp]).
Proof.
  intros Htr j secs [[Hj H]|[_ [=]]]%lookup_snoc_Some.
  destruct (Htr j secs H) as (ev & H1 & Hev & Hf).
  exists ev. split; [done|]. split; [|done]. by apply lookup_app_l_Some.
Qed.

Lemma sleeps_justified_sleep (tr : list (event T)) ev secs :
  sleeps_justified tr -> last tr = Some ev ->
  failed_fallback ev \/ refused_body ev ->
  sleeps_justified (tr ++ [Sleep secs]).
Proof.
  intros Htr Hl Hf j secs' [[Hj H]|[-> _]]%lookup_snoc_Some.
  - destruct (Htr j secs' H) as (ev' & H1 & Hev & Hf').
    exists ev'. split; [done|]. split; [|done]. by apply lookup_app_l_Some.
  - exists ev. rewrite last_lookup in Hl.
    assert (length tr <> 0%nat) as Hne.
    { intros E. apply nil_length_inv in E. by subst tr. }
    split; [lia|]. split; [|done]. apply lookup_app_l_Some.
    by replace (length tr - 1)%nat with (pred (length tr)) by lia.
Qed.

Lemma no_fault_is_last (tr : list (event T)) res :
  no_fault tr -> fault_is_last tr res.
Proof. intros Htr i req resp e H He. by rewrite (Htr i req resp H) in He. Qed.

Lemma fault_is_last_generate tr (req : request T) resp e :
  no_fault tr -> fault_error (req_model req) resp = Some e ->
  fault_is_last (tr ++ [Generate req resp]) (Raise e).
Proof.
  intros Htr He i req' resp' e' [[_ H]|[-> [= <- <-]]]%lookup_snoc_Some He'.
  - by rewrite (Htr i req' resp' H) in He'.
  - rewrite He in He'. injection He' as <-. split; [done|].
    rewrite length_app. simpl. lia.
Qed.

(** *** One attempt *)

(** An attempt on a trace without faults and with justified sleeps: its
    trace has justified sleeps and a fault only as its last event; when
    the attempt raises a [ValueError] the trace has no fault and ends
    with a failed fallback or with a call whose body was refused. *)
Lemma body_spec tr r tr' :
  no_fault tr -> sleeps_justified tr -> body tr = (r, tr') ->
  fault_is_last tr' r /\ sleeps_justified tr'
  /\ (forall e, r = Raise e -> is_ValueError e = true ->
        no_fault tr'
        /\ exists ev, last tr' = Some ev
                      /\ (failed_fallback ev \/ refused_body ev)).
Proof.
  intros Hnf Hsl. unfold body, risk_review_body, _ollama_generate.
  set (prompt := risk_prompt clauses_text playbook_rules).
  set (req1 := Request model prompt temperature true).
  set (resp1 := world (calls tr) req1).
  set (tr1 := tr ++ [Generate req1 resp1]).
  assert (sleeps_justified tr1) as Hsl1
    by (by apply sleeps_justified_generate).
  destruct (response_text model resp1) as [raw1|e1] eqn:E1.
  2:{ intros [= <- <-].
      destruct (response_text_raises _ _ _ E1) as [[Hf Hv]|[Hf Hv]].
      - split; [by apply fault_is_last_generate|]. split; [done|].
        intros e [= <-] He. congruence.
      - assert (no_fault tr1) as Hnf1 by (by apply no_fault_generate).
        split; [by apply no_fault_is_last|].
        split; [done|]. intros e [= <-] He. split; [done|].
        exists (Generate req1 resp1). split; [apply last_snoc|]. right.
        exists req1, resp1, e1. split; [done|]. split; [done|].
        by destruct Hv as [Hv|Hv]; [congruence|]. }
  assert (no_fault tr1) as Hnf1.
  { apply no_fault_generate; [done|]. by eapply response_text_ok. }
  destruct (_extract_json_obj raw1) as [v1|e1] eqn:X1.
  { intros [= <- <-]. split; [by apply no_fault_is_last|].
    split; [done|]. by intros e [=]. }
  destruct (is_ValueError e1) eqn:V1.
  2:{ intros [= <- <-]. split; [by apply no_fault_is_last|].
      split; [done|]. intros e [= <-] He. congruence. }
  set (req2 := Request model prompt temperature false).
  set (resp2 := world (calls tr1) req2).
  set (tr2 := tr1 ++ [Generate req2 resp2]).
  assert (sleeps_justified tr2) as Hsl2
    by (by apply sleeps_justified_generate).
  destruct (response_text model resp2) as [raw2|e2] eqn:E2.
  2:{ intros [= <- <-].
      destruct (response_text_raises _ _ _ E2) as [[Hf Hv]|[Hf Hv]].
      - split; [by apply fault_is_last_generate|]. split; [done|].
        intros e [= <-] He. congruence.
      - assert (no_fault tr2) as Hnf2 by (by apply no_fault_generate).
        split; [by apply no_fault_is_last|].
        split; [done|]. intros e [= <-] He. split; [done|].
        exists (Generate req2 resp2). split; [apply last_snoc|]. right.
        exists req2, resp2, e2. split; [done|]. split; [done|].
        by destruct Hv as [Hv|Hv]; [congruence|]. }
  assert (no_fault tr2) as Hnf2.
  { apply no_fault_generate; [done|]. by eapply response_text_ok. }
  destruct (_extract_json_obj raw2) as [v2|e3] eqn:X2.
  { intros [= <- <-]. split; [by apply no_fault_is_last|].
    split; [done|]. by intros e [=]. }
  intros [= <- <-]. split; [by apply no_fault_is_last|]. split; [done|].
  intros e [= <-] He. split; [done|].
  exists (Generate req2 resp2). split; [apply last_snoc|]. left.
  by exists req2, resp2, raw2, e3.
Qed.

(** *** The retry policy *)

Lemma retry_call_spec left : forall attempt_number tr r tr',
  no_fault tr -> sleeps_justified tr ->
  retry_call left attempt_number body tr = (r, tr') ->
  fault_is_last tr' r /\ sleeps_justified tr'.
Proof.
  induction left as [|left IH]; intros n tr r tr' Hnf Hsl; simpl;
    destruct (body tr) as [r1 tr1] eqn:Eb;
    destruct (body_spec tr r1 tr1 Hnf Hsl Eb) as (Hlast & Hsl1 & Hve);
    destruct r1 as [v|e]; try (by intros [= <- <-]);
    destruct (is_ValueError e) eqn:V; try (by intros [= <- <-]);
    destruct (Hve e eq_refl V) as (Hnf1 & ev & Hev & Hf).
  - intros [= <- <-]. split; [by apply no_fault_is_last|done].
  - apply IH; [by apply no_fault_sleep|].
    by eapply sleeps_justified_sleep.
Qed.

Lemma run_risk_review_spec r tr :
  run_risk_review world model clauses_text temperature playbook_rules
  = (r, tr) ->
  fault_is_last tr r /\ sleeps_justified tr.
Proof.
  apply retry_call_spec; [apply no_fault_nil | apply sleeps_justified_nil].
Qed.

End InvokerFacts.

Section InvokerBounds.

Context {T : Type}.
Variable world : nat -> request T -> post_outcome.
Variables model clauses_text : pystr.
Variable temperature : T.
Variable playbook_rules : option pystr.

Let body :=
  risk_review_body world model clauses_text temperature playbook_rules.
Let fails :=
  extraction_fails world model clauses_text temperature playbook_rules.
Let succeeds :=
  extraction_succeeds world model clauses_text temperature playbook_rules.

Lemma calls_snoc (tr : list (event T)) ev :
  calls (tr ++ [ev]) = (calls tr + if is_generate ev then 1 else 0)%nat.
Proof.
  unfold calls. rewrite List.filter_app, length_app. simpl.
  by destruct (is_generate ev).
Qed.

Lemma cycles_snoc (tr : list (event T)) ev :
  cycles (tr ++ [ev]) = (cycles tr + if is_cycle_start ev then 1 else 0)%nat.
Proof.
  unfold cycles. rewrite List.filter_app, length_app. simpl.
  by destruct (is_cycle_start ev).
Qed.

(** An attempt makes one or two calls and is one cycle. *)
Lemma body_counts tr r tr' :
  body tr = (r, tr') ->
  (calls tr < calls tr' <= calls tr + 2)%nat /\ cycles tr' = S (cycles tr).
Proof.
  unfold body, risk_review_body, _ollama_generate.
  destruct (response_text model _) as [raw1|e1].
  2:{ intros [= <- <-]. rewrite calls_snoc, cycles_snoc. simpl. lia. }
  destruct (_extract_json_obj raw1) as [v1|e1].
  { intros [= <- <-]. rewrite calls_snoc, cycles_snoc. simpl. lia. }
  destruct (is_ValueError e1).
  2:{ intros [= <- <-]. rewrite calls_snoc, cycles_snoc. simpl. lia. }
  destruct (response_text model _) as [raw2|e2].
  2:{ intros [= <- <-]. rewrite !calls_snoc, !cycles_snoc. simpl. lia. }
  destruct (_extract_json_obj raw2) as [v2|e3];
    intros [= <- <-]; rewrite !calls_snoc, !cycles_snoc; simpl; lia.
Qed.

Lemma retry_call_counts left : forall attempt_number tr r tr',
  retry_call left attempt_number body tr = (r, tr') ->
  (calls tr' <= calls tr + 2 * S left)%nat
  /\ (cycles tr' <= cycles tr + S left)%nat.
Proof.
  induction left as [|left IH]; intros n tr r tr'; simpl;
    destruct (body tr) as [r1 tr1] eqn:Eb;
    destruct (body_counts tr r1 tr1 Eb) as [Hc Hy];
    destruct r1 as [v|e]; try (intros [= <- <-]; lia);
    destruct (is_ValueError e); try (intros [= <- <-]; lia).
  intros H%IH. rewrite calls_snoc, cycles_snoc in H. simpl in H. lia.
Qed.

Lemma run_risk_review_counts r tr :
  run_risk_review world model clauses_text temperature playbook_rules
  = (r, tr) ->
  (calls tr <= 6)%nat /\ (cycles tr <= 3)%nat.
Proof.
  intros H%retry_call_counts. change (calls []) with 0%nat in H.
  change (cycles []) with 0%nat in H. lia.
Qed.

(** An attempt whose two calls give texts that fail extraction raises a
    [ValueError] after two calls. *)
Lemma body_fails tr :
  Nat.even (calls tr) = true ->
  fails (calls tr) -> fails (S (calls tr)) ->
  exists e tr',
    body tr = (Raise e, tr') /\ is_ValueError e = true
    /\ calls tr' = S (S (calls tr)).
Proof.
  intros Hev (raw1 & e1 & R1 & X1 & V1) (raw2 & e2 & R2 & X2 & V2).
  unfold reply, risk_request in R1, R2. rewrite Hev in R1.
  rewrite Nat.even_succ, <- Nat.negb_even, Hev in R2. simpl in R2.
  unfold body, risk_review_body, _ollama_generate.
  rewrite R1, X1, V1, calls_snoc. simpl is_generate. cbv iota.
  rewrite Nat.add_1_r, R2, X2.
  eexists _, _. split; [reflexivity|]. split; [done|].
  rewrite !calls_snoc. simpl. lia.
Qed.

(** An attempt whose first call gives a text that passes extraction
    returns that text after one call. *)
Lemma body_succeeds_first tr raw :
  Nat.even (calls tr) = true -> succeeds (calls tr) raw ->
  exists tr', body tr = (Ok raw, tr') /\ calls tr' = S (calls tr).
Proof.
  intros Hev (R1 & v & X1).
  unfold reply, risk_request in R1. rewrite Hev in R1.
  unfold body, risk_review_body, _ollama_generate. rewrite R1, X1.
  eexists. split; [reflexivity|]. rewrite calls_snoc. simpl. lia.
Qed.

(** An attempt whose first text fails extraction and whose fallback text
    passes returns the fallback text after two calls. *)
Lemma body_succeeds_second tr raw :
  Nat.even (calls tr) = true ->
  fails (calls tr) -> succeeds (S (calls tr)) raw ->
  exists tr', body tr = (Ok raw, tr') /\ calls tr' = S (S (calls tr)).
Proof.
  intros Hev (raw1 & e1 & R1 & X1 & V1) (R2 & v & X2).
  unfold reply, risk_request in R1, R2. rewrite Hev in R1.
  rewrite Nat.even_succ, <- Nat.negb_even, Hev in R2. simpl in R2.
  unfold body, risk_review_body, _ollama_generate.
  rewrite R1, X1, V1, calls_snoc. simpl is_generate. cbv iota.
  rewrite Nat.add_1_r, R2, X2.
  eexists. split; [reflexivity|]. rewrite !calls_snoc. simpl. lia.
Qed.

Lemma run_risk_review_third_cycle raw :
  fails 0%nat -> fails 1%nat -> fails 2%nat -> fails 3%nat ->
  succeeds 4%nat raw \/ (fails 4%nat /\ succeeds 5%nat raw) ->
  exists tr,
    run_risk_review world model clauses_text temperature playbook_rules
    = (Ok raw, tr)
    /\ (calls tr <= 6)%nat /\ cycles tr = 3%nat.
Proof.
  intros F0 F1 F2 F3 H3. unfold run_risk_review. simpl retry_call.
  fold body.
  destruct (body_fails []) as (e1 & tr1 & B1 & V1 & C1); [done..|].
  rewrite B1, V1.
  set (tr1' := tr1 ++ [Sleep (wait_exponential 1 2 10 1)]).
  assert (calls tr1' = 2%nat) as C1'.
  { unfold tr1'. rewrite calls_snoc, C1. reflexivity. }
  destruct (body_fails tr1') as (e2 & tr2 & B2 & V2 & C2);
    [by rewrite C1'..|].
  rewrite B2, V2.
  set (tr2' := tr2 ++ [Sleep (wait_exponential 1 2 10 (1 + 1))]).
  assert (calls tr2' = 4%nat) as C2'.
  { unfold tr2'. rewrite calls_snoc, C2, C1'. reflexivity. }
  assert (exists tr3, body tr2' = (Ok raw, tr3)) as [tr3 B3].
  { destruct H3 as [S4|[F4 S5]].
    - destruct (body_succeeds_first tr2' raw) as (tr3 & B3 & _);
        [by rewrite C2'..|]. by exists tr3.
    - destruct (body_succeeds_second tr2' raw) as (tr3 & B3 & _);
        [by rewrite C2'..|]. by exists tr3. }
  rewrite B3. exists tr3. split; [done|].
  destruct (body_counts _ _ _ B1) as [_ Y1].
  destruct (body_counts _ _ _ B2) as [_ Y2].
  destruct (body_counts _ _ _ B3) as [K3 Y3].
  unfold tr2' in Y3, K3. rewrite cycles_snoc in Y3.
  rewrite calls_snoc, C2 in K3.
  unfold tr1' in Y2. rewrite cycles_snoc in Y2. rewrite C1' in K3.
  simpl in *. change (cycles []) with 0%nat in Y1. lia.
Qed.

End InvokerBounds.

(** C7, as stated, fails. A status that is not a success status is not
    always fatal: only the statuses 400 to 599 raise, so that with a
    collaborator that always answers 302 the bodies are parsed, every
    attempt fails extraction and the run retries until it gives up after
    six calls and two sleeps. And the retry policy is not entered on
    extraction failures only: a body of 4301 digits makes the parser of
    the body raise the [ValueError] of the integer conversion, and the run
    sleeps and starts a new attempt after a call in json mode, with no
    fallback call and no extraction. *)
Lemma run_risk_review_status_counterexample :
  run_risk_review always_redirect (str "m") (str "c") 20 None
  = (Raise RetryError,
     exhausted_trace always_redirect (str "m") (str "c") 20 None)
  /\ run_risk_review digits_then_unreachable (str "m") (str "c") 20 None
     = (Raise (RuntimeError unreachable_message),
        [Generate (Request (str "m") (risk_prompt (str "c") None) 20 true)
           (Response 200 long_integer);
         Sleep 2;
         Generate (Request (str "m") (risk_prompt (str "c") None) 20 true)
           ConnectionError])
  /\ response_text (str "m") (Response 200 long_integer)
     = Raise (ValueError (int_limit_message 4301)).
Proof. repeat split; vm_compute; reflexivity. Qed.

(** C7, amended. In every run of [run_risk_review], a generation call that
    fails at the transport level (the collaborator cannot be reached, or
    the status is one of 400 to 599, 404 being reported as a model that is
    not found) is the last event of the run: the run raises the
    [RuntimeError] of that failure, with no further call and no sleep.
    Every sleep of the retry policy comes directly after a fallback call
    whose text failed extraction with a [ValueError], or after a call
    whose response body the decoder refused with the [ValueError] of an
    integer of more than 4300 digits. *)
Theorem run_risk_review_transport_fault {T : Type}
    (world : nat -> request T -> post_outcome) (model clauses_text : pystr)
    (temperature : T) (playbook_rules : option pystr)
    (i : nat) (req : request T) (resp : post_outcome) :
  snd (run_risk_review world model clauses_text temperature playbook_rules)
    !! i = Some (Generate req resp) ->
  transport_fault resp = true ->
  (exists msg,
     fault_error (req_model req) resp = Some (RuntimeError msg)
     /\ fst (run_risk_review world model clauses_text temperature
               playbook_rules) = Raise (RuntimeError msg))
  /\ length (snd (run_risk_review world model clauses_text temperature
                    playbook_rules)) = S i
  /\ sleeps_justified
       (snd (run_risk_review world model clauses_text temperature
               playbook_rules)).
Proof.
  destruct (run_risk_review world model clauses_text temperature
              playbook_rules) as [r tr] eqn:E.
  apply run_risk_review_spec in E as [Hlast Hsl]. simpl.
  intros Hi Hf.
  destruct (transport_fault_error (req_model req) resp Hf) as [msg Hmsg].
  destruct (Hlast i req resp _ Hi Hmsg) as [-> Hlen].
  split; [by exists msg|]. done.
Qed.

Lemma run_risk_review_transport_fault_witness :
  (exists msg,
     fault_error (str "m") ConnectionError = Some (RuntimeError msg)
     /\ fst (run_risk_review unreachable_at_second (str "m") (str "c") 20 None)
        = Raise (RuntimeError msg))
  /\ length (snd (run_risk_review unreachable_at_second (str "m") (str "c")
                    20 None)) = 2%nat
  /\ sleeps_justified
       (snd (run_risk_review unreachable_at_second (str "m") (str "c")
               20 None)).
Proof.
  apply (run_risk_review_transport_fault unreachable_at_second (str "m")
           (str "c") 20 None 1
           (Request (str "m") (risk_prompt (str "c") None) 20 false)
           ConnectionError).
  - vm_compute. reflexivity.
  - reflexivity.
Defined.

(** C8. When the texts of the four calls of the first two cycles fail
    extraction and the third cycle gives a text that passes, at its first
    call or at its fallback call, [run_risk_review] returns that text, in
    three cycles and at most six generation calls. No run, whatever the
    collaborator answers, makes more than six calls or more than three
    cycles. *)
Theorem run_risk_review_retry_bound {T : Type}
    (world : nat -> request T -> post_outcome) (model clauses_text : pystr)
    (temperature : T) (playbook_rules : option pystr) (raw : pystr) :
  extraction_fails world model clauses_text temperature playbook_rules 0 ->
  extraction_fails world model clauses_text temperature playbook_rules 1 ->
  extraction_fails world model clauses_text temperature playbook_rules 2 ->
  extraction_fails world model clauses_text temperature playbook_rules 3 ->
  extraction_succeeds world model clauses_text temperature playbook_rules 4 raw
  \/ (extraction_fails world model clauses_text temperature playbook_rules 4
      /\ extraction_succeeds world model clauses_text temperature
           playbook_rules 5 raw) ->
  (exists tr,
     run_risk_review world model clauses_text temperature playbook_rules
     = (Ok raw, tr)
     /\ (calls tr <= 6)%nat /\ cycles tr = 3%nat)
  /\ (forall (world' : nat -> request T -> post_outcome) m c t p,
        (calls (snd (run_risk_review world' m c t p)) <= 6)%nat
        /\ (cycles (snd (run_risk_review world' m c t p)) <= 3)%nat).
Proof.
  intros F0 F1 F2 F3 H3. split.
  - by apply run_risk_review_third_cycle.
  - intros world' m c t p.
    destruct (run_risk_review world' m c t p) as [r tr] eqn:E.
    by apply run_risk_review_counts in E.
Qed.

Lemma run_risk_review_retry_bound_witness :
  (exists tr,
     run_risk_review garbage_then_object (str "m") (str "c") 20 None
     = (Ok small_object_text, tr)
     /\ (calls tr <= 6)%nat /\ cycles tr = 3%nat)
  /\ (forall (world' : nat -> request Z -> post_outcome) m c t p,
        (calls (snd (run_risk_review world' m c t p)) <= 6)%nat
        /\ (cycles (snd (run_risk_review world' m c t p)) <= 3)%nat).
Proof.
  apply (run_risk_review_retry_bound garbage_then_object (str "m") (str "c")
           20 None small_object_text).
  - exists garbage_text, (ValueError (parse_error_message garbage_text)).
    repeat split; vm_compute; reflexivity.
  - exists garbage_text, (ValueError (parse_error_message garbage_text)).
    repeat split; vm_compute; reflexivity.
  - exists garbage_text, (ValueError (parse_error_message garbage_text)).
    repeat split; vm_compute; reflexivity.
  - exists garbage_text, (ValueError (parse_error_message garbage_text)).
    repeat split; vm_compute; reflexivity.
  - left. split; [vm_compute; reflexivity|]. exists small_object.
    vm_compute. reflexivity.
Defined.

(* ===================================================================== *)
(** * Part III: further properties of the code                             *)
(* ===================================================================== *)

(** ** The sentence cut, again *)

Section SentenceCut.

Lemma strip_app_spaces x ws :
  Forall (fun c => is_space c = true) ws -> strip (x ++ ws) = strip x.
Proof.
  induction ws as [|c ws IH] using rev_ind; intros H.
  - by rewrite app_nil_r.
  - apply Forall_app in H as [Hws Hc]. apply Forall_cons in Hc as [Hc _].
    rewrite app_assoc, strip_snoc_space by done. by apply IH.
Qed.

Lemma strip_snoc_solid x p :
  is_space p = false -> strip (x ++ [p]) = lstrip x ++ [p].
Proof.
  intros Hp. unfold strip, lstrip.
  rewrite (dropwhile_app_keep is_space x [p]) by done.
  unfold rstrip. rewrite rev_app_distr. simpl. rewrite Hp. simpl.
  by rewrite rev_involutive.
Qed.

Lemma punct_not_space p : is_sentence_punct p = true -> is_space p = false.
Proof.
  unfold is_sentence_punct. intros H.
  repeat (apply orb_true_iff in H as [H|H]);
    apply N.eqb_eq in H; subst p; reflexivity.
Qed.

(** Every match of the sentence pattern is a punctuation character and the
    whitespace run after it. *)
Lemma finditer_split w : forall pos s e,
  (s, e) ∈ SENTENCE_END_RE_finditer pos w ->
  exists a p run b,
    w = a ++ p :: run ++ b
    /\ (pos + length a = s)%nat /\ (e = s + 1 + length run)%nat
    /\ is_sentence_punct p = true
    /\ Forall (fun c => is_space c = true) run.
Proof.
  induction w as [|c w IH]; intros pos s e; simpl.
  { intros H. by apply elem_of_nil in H. }
  assert (forall s e, (s, e) ∈ SENTENCE_END_RE_finditer (S pos) w ->
    exists a p run b,
      c :: w = a ++ p :: run ++ b
      /\ (pos + length a = s)%nat /\ (e = s + 1 + length run)%nat
      /\ is_sentence_punct p = true
      /\ Forall (fun c => is_space c = true) run) as Hrest.
  { intros s' e' H.
    destruct (IH _ _ _ H) as (a & p & run & b & -> & H1 & H2 & H3 & H4).
    exists (c :: a), p, run, b. simpl. repeat split; try done; lia. }
  destruct (is_sentence_punct c && starts_with_space w) eqn:E;
    [|by apply Hrest].
  intros [[= -> ->] | H]%elem_of_cons; [|by apply Hrest].
  apply andb_true_iff in E as [Hp _].
  exists [], c, (takewhile is_space w), (dropwhile is_space w).
  rewrite takewhile_dropwhile. simpl. repeat split; try done; try lia.
  apply takewhile_all.
Qed.

(** Where a sentence ends inside the window, the pattern has a match. *)
Lemma finditer_complete w i : forall pos,
  sentence_end_at w i -> SENTENCE_END_RE_finditer pos w <> [].
Proof.
  revert i. induction w as [|c w IH]; intros i pos (p & x & Hp & Hpp & Hx & Hxs).
  { destruct i; discriminate. }
  simpl. destruct i as [|i].
  - injection Hp as ->. rewrite Hpp.
    destruct w as [|y w]; [done|]. injection Hx as ->. simpl. by rewrite Hxs.
  - destruct (is_sentence_punct c && starts_with_space w); [done|].
    apply (IH i). by exists p, x.
Qed.

Lemma split_at_sentence_short t max_len :
  len t <= max_len -> _split_at_sentence t max_len = (t, []).
Proof.
  intros H. unfold _split_at_sentence.
  by rewrite (proj2 (Z.leb_le (len t) max_len)).
Qed.

Lemma split_at_sentence_facts t max_len before after :
  0 < max_len -> _split_at_sentence t max_len = (before, after) ->
  solid before ++ solid after = solid t
  /\ (len t <= max_len -> before = t /\ after = [])
  /\ (max_len < len t ->
      len before <= max_len /\ (length after < length t)%nat
      /\ strip before = before /\ strip after = after).
Proof.
  intros Hpos E. destruct (Z.le_gt_cases (len t) max_len) as [Hle|Hgt].
  - rewrite split_at_sentence_short in E by done. injection E as <- <-.
    split; [by rewrite app_nil_r|]. split; [done|lia].
  - destruct (split_at_sentence_cut t max_len Hpos Hgt)
      as (e & He & E' & Hb & _).
    rewrite E' in E. injection E as <- <-.
    split; [by rewrite !solid_strip, solid_take_drop|].
    split; [lia|]. intros _. split; [done|].
    split; [by apply cut_rest_shorter|]. by rewrite !strip_strip.
Qed.

Lemma split_at_sentence_at_end t max_len i :
  0 <= max_len -> max_len < len t ->
  sentence_end_at t i -> (Z.of_nat i < max_len) ->
  exists p,
    last (fst (_split_at_sentence t max_len)) = Some p
    /\ is_sentence_punct p = true.
Proof.
  intros Hpos Hlen Hi Hin. unfold _split_at_sentence.
  rewrite (proj2 (Z.leb_gt (len t) max_len)) by done.
  rewrite slice_to_nonneg by lia.
  remember (take (Z.to_nat (max_len + 1)) t) as w eqn:Ew0.
  assert (sentence_end_at w i) as Hw.
  { destruct Hi as (p & c & Hp & Hpp & Hc & Hcs). exists p, c.
    subst w. split; [apply lookup_take_Some; split; [done|lia]|].
    split; [done|]. split; [apply lookup_take_Some; split; [done|lia]|done]. }
  destruct (last (SENTENCE_END_RE_finditer 0 w)) as [[s e]|] eqn:El.
  2:{ apply last_None in El. by apply (finditer_complete w i 0) in Hw. }
  apply last_Some_elem_of, finditer_split in El
    as (a & p & run & b & Ew & Hs & He & Hp & Hrun).
  exists p. split; [|done]. simpl fst.
  rewrite slice_to_nonneg, Nat2Z.id by lia.
  assert (take e t = (a ++ [p]) ++ run) as ->.
  { assert (t = ((a ++ [p]) ++ run) ++ (b ++ drop (Z.to_nat (max_len + 1)) t))
      as Et.
    { rewrite <- (take_drop (Z.to_nat (max_len + 1)) t) at 1.
      rewrite <- Ew0, Ew. repeat (rewrite <- app_assoc; simpl). done. }
    rewrite Et. apply take_app_length'. rewrite !length_app. simpl. lia. }
  rewrite strip_app_spaces by done.
  rewrite strip_snoc_solid by (by apply punct_not_space).
  apply last_snoc.
Qed.

End SentenceCut.

(** X1. For a positive bound, [_split_at_sentence] returns two parts that
    hold the characters of the text, whitespace apart. A text within the
    bound comes back whole with an empty rest; for a longer text the first
    part is within the bound, the rest is strictly shorter than the text,
    and both parts are stripped. *)
Theorem split_at_sentence_contract t max_len before after :
  0 < max_len -> _split_at_sentence t max_len = (before, after) ->
  solid before ++ solid after = solid t
  /\ (len t <= max_len -> before = t /\ after = [])
  /\ (max_len < len t ->
      len before <= max_len /\ (length after < length t)%nat
      /\ strip before = before /\ strip after = after).
Proof. apply split_at_sentence_facts. Qed.

Lemma split_at_sentence_contract_witness :
  solid (str "One two.") ++ solid (str "Three four! Five six?")
  = solid three_sentences
  /\ (len three_sentences <= 12
      -> str "One two." = three_sentences /\ str "Three four! Five six?" = [])
  /\ (12 < len three_sentences ->
      len (str "One two.") <= 12
      /\ (length (str "Three four! Five six?") < length three_sentences)%nat
      /\ strip (str "One two.") = str "One two."
      /\ strip (str "Three four! Five six?") = str "Three four! Five six?").
Proof.
  apply (split_at_sentence_contract three_sentences 12); reflexivity.
Defined.

(** X2. When a sentence ends inside the first [max_len] characters of a
    text longer than [max_len], the first part that [_split_at_sentence]
    returns ends with a terminal punctuation character: the cut falls
    after a sentence, not inside one. *)
Theorem split_at_sentence_ends_sentence t max_len i :
  0 <= max_len -> max_len < len t ->
  sentence_end_at t i -> Z.of_nat i < max_len ->
  exists p,
    last (fst (_split_at_sentence t max_len)) = Some p
    /\ is_sentence_punct p = true.
Proof. apply split_at_sentence_at_end. Qed.

Lemma split_at_sentence_ends_sentence_witness :
  exists p,
    last (fst (_split_at_sentence three_sentences 25)) = Some p
    /\ is_sentence_punct p = true.
Proof.
  apply (split_at_sentence_ends_sentence three_sentences 25 19).
  - discriminate.
  - reflexivity.
  - exists 33%N, 32%N. repeat split; reflexivity.
  - reflexivity.
Defined.

(** ** Oversized chunks in general *)

Section LargeChunk.

Lemma last_index_of_range c l : forall pos k,
  last_index_of c pos l = Some k -> (pos <= k < pos + length l)%nat.
Proof.
  induction l as [|x l IH]; intros pos k; simpl; [done|].
  destruct (last_index_of c (S pos) l) as [k'|] eqn:E.
  - intros [= <-]. apply IH in E. lia.
  - destruct (N.eqb x c); [|done]. intros [= <-]. lia.
Qed.

Lemma takewhile_prefix p s k :
  (k <= length (takewhile p s))%nat -> take k s = take k (takewhile p s).
Proof.
  intros H. rewrite <- (takewhile_dropwhile p s) at 1.
  by rewrite take_app_le.
Qed.

Lemma last_newline_in_run_spaces s k :
  last_newline_in_run s = Some k ->
  Forall (fun c => is_space c = true) (take k s).
Proof.
  unfold last_newline_in_run.
  destruct (last_index_of 10 0 (takewhile is_space s)) as [j|] eqn:E; [|done].
  intros [= <-]. apply last_index_of_range in E.
  rewrite (takewhile_prefix is_space) by lia.
  apply Forall_take, takewhile_all.
Qed.

(** The paragraphs of a text hold its characters, whitespace apart. *)
Lemma split_paragraphs_go_solid s : forall skip cur,
  Forall (fun c => is_space c = true) (take skip s) ->
  solid (concat (split_paragraphs_go skip cur s)) = solid cur ++ solid s.
Proof.
  induction s as [|c s IH]; intros skip cur Hskip; simpl.
  { by rewrite !app_nil_r. }
  assert (solid (concat (split_paragraphs_go 0 (cur ++ [c]) s))
          = solid cur ++ solid (c :: s)) as Hgo.
  { rewrite IH by (rewrite take_0; constructor).
    rewrite solid_app, <- app_assoc.
    change (c :: s) with ([c] ++ s). by rewrite (solid_app [c] s). }
  destruct skip as [|k].
  - destruct (N.eqb_spec c 10) as [->|]; [|exact Hgo].
    destruct (last_newline_in_run s) as [k|] eqn:E; [|exact Hgo].
    simpl concat. rewrite solid_app, IH by (by apply last_newline_in_run_spaces).
    done.
  - simpl in Hskip. apply Forall_cons in Hskip as [Hc Hs].
    rewrite IH by done. simpl. by rewrite Hc.
Qed.

Lemma split_paragraphs_solid t :
  solid (concat (split_paragraphs t)) = solid t.
Proof.
  unfold split_paragraphs.
  by rewrite split_paragraphs_go_solid by (rewrite take_0; constructor).
Qed.

Lemma labels_ok_snoc sec out t :
  labels_ok sec out -> labels_ok sec (out ++ [Chunk (piece_title sec out) t]).
Proof.
  destruct out as [|c0 rest]; simpl.
  - intros _. split; [done|constructor].
  - intros [H0 Hr]. split; [done|]. apply Forall_app. split; [done|].
    by repeat constructor.
Qed.

(** One paragraph of an oversized chunk: the pieces added to [out]. *)
Lemma split_part_pieces sec max_chars out part0 :
  0 < max_chars -> labels_ok sec out ->
  Forall (fun p => piece_stripped max_chars (text p)) out ->
  exists out',
    split_part sec max_chars out part0 = Some out'
    /\ labels_ok sec out'
    /\ Forall (fun p => piece_stripped max_chars (text p)) out'
    /\ solid (concat (texts out'))
       = solid (concat (texts out)) ++ solid part0.
Proof.
  intros Hpos Hlab Hout. unfold split_part.
  destruct (nonempty (strip part0)) eqn:En.
  2:{ exists out. split; [done|]. split; [done|]. split; [done|].
      apply nonempty_false in En.
      by rewrite <- (solid_strip part0), En, app_nil_r. }
  destruct (split_part_loop_inv sec max_chars
    (fun o part =>
       labels_ok sec o
       /\ Forall (fun p => piece_stripped max_chars (text p)) o
       /\ strip part = part
       /\ solid (concat (texts o)) ++ solid part
          = solid (concat (texts out)) ++ solid part0)
    Hpos) with (fuel := S (length (strip part0))) (out := out)
      (part := strip part0) as (o & part & -> & (Hl & Ho & Hp & Hs) & Hle).
  - intros o part e (Hl & Ho & Hp & Hs) Hgt He Hb Hn.
    assert (head_solid part) as Hh by (rewrite <- Hp; apply strip_head_solid).
    split; [by apply labels_ok_snoc|]. split; [|split].
    + apply Forall_app. split; [done|]. constructor; [|constructor].
      cbn [text]. split; [by apply Hn|]. split; [done|apply strip_strip].
    + apply strip_strip.
    + rewrite texts_snoc, solid_concat_snoc. cbn [text].
      rewrite <- app_assoc, !solid_strip, solid_take_drop. done.
  - lia.
  - split; [done|]. split; [done|]. split; [apply strip_strip|].
    by rewrite solid_strip.
  - destruct (nonempty part) eqn:Ep.
    + eexists. split; [reflexivity|]. split; [by apply labels_ok_snoc|].
      split.
      * apply Forall_app. split; [done|]. constructor; [|constructor].
        cbn [text]. split; [by apply nonempty_true|]. done.
      * by rewrite texts_snoc, solid_concat_snoc.
    + eexists. split; [reflexivity|]. split; [done|]. split; [done|].
      apply nonempty_false in Ep. subst part. simpl in Hs.
      by rewrite app_nil_r in Hs.
Qed.

Lemma split_parts_pieces sec max_chars parts : forall out,
  0 < max_chars -> labels_ok sec out ->
  Forall (fun p => piece_stripped max_chars (text p)) out ->
  exists out',
    split_parts sec max_chars out parts = Some out'
    /\ labels_ok sec out'
    /\ Forall (fun p => piece_stripped max_chars (text p)) out'
    /\ solid (concat (texts out'))
       = solid (concat (texts out)) ++ solid (concat parts).
Proof.
  induction parts as [|p parts IH]; intros out Hpos Hl Ho; simpl.
  { exists out. by rewrite app_nil_r. }
  destruct (split_part_pieces sec max_chars out p Hpos Hl Ho)
    as (o1 & -> & Hl1 & Ho1 & Hs1).
  destruct (IH o1 Hpos Hl1 Ho1) as (o2 & -> & Hl2 & Ho2 & Hs2).
  exists o2. split; [done|]. split; [done|]. split; [done|].
  by rewrite Hs2, Hs1, solid_app, app_assoc.
Qed.

Lemma split_large_chunk_general c max_chars :
  0 < max_chars ->
  exists out,
    _split_large_chunk c max_chars = Some out
    /\ solid (concat (texts out)) = solid (text c)
    /\ (len (text c) <= max_chars \/ solid (text c) = [] -> out = [c])
    /\ (max_chars < len (text c) -> solid (text c) <> [] ->
        out <> []
        /\ Forall (fun p => piece_stripped max_chars (text p)) out
        /\ labels_ok (str_or (section c) UNKNOWN) out).
Proof.
  intros Hpos. unfold _split_large_chunk.
  destruct (Z.leb_spec (len (text c)) max_chars) as [Hle|Hgt].
  { exists [c]. split; [done|]. split; [simpl; by rewrite app_nil_r|].
    split; [done|lia]. }
  destruct (split_parts_pieces (str_or (section c) UNKNOWN) max_chars
              (split_paragraphs (text c)) [] Hpos I)
    as (out & -> & Hl & Ho & Hs); [constructor|].
  simpl in Hs. rewrite split_paragraphs_solid in Hs.
  destruct out as [|o out].
  - exists [c]. split; [done|]. simpl in Hs.
    split; [simpl; by rewrite app_nil_r|]. split; [done|].
    intros _ Hne. by rewrite <- Hs in Hne.
  - exists (o :: out). split; [done|]. split; [done|]. split.
    + intros [H|H]; [lia|]. rewrite H in Hs.
      apply Forall_cons in Ho as [(Hne & _ & Hst) _].
      assert (solid (text o) <> []) as Hso.
      { apply head_solid_nonempty_solid; [|done].
        rewrite <- Hst. apply strip_head_solid. }
      change (texts (o :: out)) with (text o :: texts out) in Hs.
      simpl concat in Hs. rewrite solid_app in Hs.
      by apply app_eq_nil in Hs as [? _].
    + intros _ _. done.
Qed.

End LargeChunk.

(** X3. For a positive bound [_split_large_chunk] returns a list of pieces
    that hold the characters of the chunk's text, whitespace apart. A chunk
    within the bound, or one whose text is all whitespace, comes back
    alone and unchanged. Otherwise there is at least one piece, every
    piece is not empty, stripped and within the bound, the first piece
    carries the section of the chunk (UNKNOWN when it has none) and every
    later piece that section followed by " (cont.)". *)
Theorem split_large_chunk_pieces c max_chars :
  0 < max_chars ->
  exists out,
    _split_large_chunk c max_chars = Some out
    /\ solid (concat (texts out)) = solid (text c)
    /\ (len (text c) <= max_chars \/ solid (text c) = [] -> out = [c])
    /\ (max_chars < len (text c) -> solid (text c) <> [] ->
        out <> []
        /\ Forall (fun p => piece_stripped max_chars (text p)) out
        /\ labels_ok (str_or (section c) UNKNOWN) out).
Proof. apply split_large_chunk_general. Qed.

Lemma split_large_chunk_pieces_witness :
  exists out,
    _split_large_chunk two_paragraph_chunk 10 = Some out
    /\ solid (concat (texts out)) = solid (text two_paragraph_chunk)
    /\ (len (text two_paragraph_chunk) <= 10
        \/ solid (text two_paragraph_chunk) = [] -> out = [two_paragraph_chunk])
    /\ (10 < len (text two_paragraph_chunk) ->
        solid (text two_paragraph_chunk) <> [] ->
        out <> []
        /\ Forall (fun p => piece_stripped 10 (text p)) out
        /\ labels_ok (str_or (section two_paragraph_chunk) UNKNOWN) out).
Proof. apply (split_large_chunk_pieces two_paragraph_chunk 10). reflexivity. Defined.

(** ** Blank documents *)

Section BlankDocument.

Lemma solid_nil_strip s : solid s = [] -> strip s = [].
Proof.
  intros H. pose proof (strip_head_solid s) as Hh.
  destruct (strip s) as [|c r] eqn:E; [done|].
  assert (solid (c :: r) = []) as Hs by (by rewrite <- E, solid_strip).
  simpl in Hs, Hh. by rewrite Hh in Hs.
Qed.

Lemma solid_concat_nil ls :
  solid (concat ls) = [] -> Forall (fun l => solid l = []) ls.
Proof.
  induction ls as [|l ls IH]; [constructor|]. simpl.
  rewrite solid_app. intros [? ?]%app_eq_nil. constructor; auto.
Qed.

Lemma scan_lines_blank max_chars lines st :
  Forall (fun l => l = []) lines -> scan_lines max_chars st lines = Some st.
Proof.
  induction 1 as [|l lines -> _ IH]; [done|]. simpl. exact IH.
Qed.

Lemma chunk_text_of_blank doc max_chars :
  solid doc = [] -> chunk_text doc max_chars = Some [].
Proof.
  intros H. unfold chunk_text. rewrite scan_lines_blank; [done|].
  apply Forall_map. rewrite <- splitlines_solid in H.
  apply solid_concat_nil in H. eapply Forall_impl; [exact H|].
  intros l Hl. simpl. by apply solid_nil_strip.
Qed.

Lemma chunk_text_of_nonblank doc max_chars :
  0 < max_chars -> solid doc <> [] ->
  exists c segs, chunk_text doc max_chars = Some (c :: segs).
Proof.
  intros Hpos Hne.
  destruct (chunk_text_ok doc max_chars Hpos) as (segs & E & _ & Hs).
  destruct segs as [|c segs]; [by rewrite <- Hs in Hne|]. by exists c, segs.
Qed.

End BlankDocument.

(** X4. A document that holds only whitespace (empty, or blank lines
    only) gives no segment, whatever the bound is, positive or not. *)
Theorem chunk_text_blank doc max_chars :
  solid doc = [] -> chunk_text doc max_chars = Some [].
Proof. apply chunk_text_of_blank. Qed.

Lemma chunk_text_blank_witness : chunk_text blank_doc 0 = Some [].
Proof. apply (chunk_text_blank blank_doc 0). reflexivity. Defined.

(** X5. A document with a character that is not whitespace gives at least
    one segment, for every positive bound. *)
Theorem chunk_text_nonblank doc max_chars :
  0 < max_chars -> solid doc <> [] ->
  exists c segs, chunk_text doc max_chars = Some (c :: segs).
Proof. apply chunk_text_of_nonblank. Qed.

Lemma chunk_text_nonblank_witness :
  exists c segs, chunk_text long_line_doc 4 = Some (c :: segs).
Proof.
  apply (chunk_text_nonblank long_line_doc 4); [reflexivity|discriminate].
Defined.

(** ** The labels of the segments *)

Section Labels.

Lemma heading_of_mono seen ln h : heading_of seen h -> heading_of (seen ++ [ln]) h.
Proof. intros (? & ? & ?). split; [|done]. apply elem_of_app. by left. Qed.

Lemma label_from_mono seen ln l : label_from seen l -> label_from (seen ++ [ln]) l.
Proof. intros [?|?]; [by left|right; by apply heading_of_mono]. Qed.

Lemma heading_of_snoc seen ln h :
  heading_of (seen ++ [ln]) h -> heading_of seen h \/ h = ln.
Proof.
  intros ([H|H]%elem_of_app & ? & ?); [by left|].
  right. by apply list_elem_of_singleton in H.
Qed.

Lemma sections_snoc cs c : sections (cs ++ [c]) = sections cs ++ [section c].
Proof. unfold sections. by rewrite map_app. Qed.

Lemma title_of_heading seen h :
  heading_of seen h -> title_or_unknown (Some h) = h.
Proof.
  intros (_ & Hne & _). unfold title_or_unknown, str_or.
  by rewrite (proj2 (nonempty_true h) Hne).
Qed.

Lemma title_label seen st :
  (forall h, current_title st = Some h -> heading_of seen h) ->
  label_from seen (title_or_unknown (current_title st)).
Proof.
  intros Ht. destruct (current_title st) as [h|] eqn:E; [|by left].
  specialize (Ht h eq_refl). rewrite (title_of_heading seen h Ht). by right.
Qed.

(** A chunk emitted under the current title keeps the invariant, whatever
    becomes of the buffer, when the title is dropped with it. *)
Lemma label_inv_emit seen st t lines' title' :
  label_inv seen st ->
  (title' = current_title st \/ (title' = None /\ lines' = [])) ->
  label_inv seen
    (SegState (chunks st ++ [Chunk (title_or_unknown (current_title st)) t])
       lines' title').
Proof.
  intros (Hc & Ht & Hh) Htitle. split; [|split]; cbn [chunks current_lines current_title].
  - rewrite sections_snoc. apply Forall_app. split; [done|].
    constructor; [|constructor]. by apply title_label.
  - intros h E. destruct Htitle as [->|[-> _]]; [by apply Ht|done].
  - intros h Hhd. left. rewrite sections_snoc. apply elem_of_app.
    destruct (Hh h Hhd) as [Hin|[E _]]; [by left|right].
    rewrite E, (title_of_heading seen h Hhd). cbn [section].
    apply list_elem_of_singleton. done.
Qed.

Lemma label_inv_size_step seen st before after :
  label_inv seen st -> before <> [] -> current_lines st <> [] ->
  label_inv seen (size_step st before after).
Proof.
  intros Hinv Hb Hne. unfold size_step.
  rewrite (proj2 (nonempty_true _) Hb).
  apply label_inv_emit; try done; auto.
  destruct (nonempty after) eqn:E; [by left|by right].
Qed.

Lemma label_inv_flush seen st :
  label_inv seen st -> Forall good_text (current_lines st) ->
  label_inv seen (flush None st)
  /\ forall h, heading_of seen h -> h ∈ sections (chunks (flush None st)).
Proof.
  intros Hinv Hg. unfold flush. cbn [lines_truthy].
  destruct (current_lines st) as [|l ls] eqn:E.
  - destruct Hinv as (Hc & Ht & Hh).
    assert (forall h, heading_of seen h -> h ∈ sections (chunks st)) as Hall.
    { intros h Hhd. destruct (Hh h Hhd) as [?|[_ Hne]]; [done|].
      by rewrite E in Hne. }
    split; [|exact Hall]. split; [done|]. split; [by intros h [=]|].
    intros h Hhd. left. by apply Hall.
  - destruct (good_join (l :: ls) Hg) as [Ht Hne]; [done|].
    revert Ht Hne. generalize (join nl (l :: ls)). intros t Ht Hne.
    rewrite tidy_strip_id by done. rewrite (proj2 (nonempty_true _) Hne).
    assert (label_inv seen
              (SegState (chunks st ++ [Chunk (title_or_unknown (current_title st)) t])
                 [] None)) as Hinv'.
    { apply label_inv_emit; [done|by right]. }
    split; [exact Hinv'|]. intros h Hhd.
    destruct Hinv' as (_ & _ & Hh'). destruct (Hh' h Hhd) as [?|[[=] _]].
    done.
Qed.

Lemma label_inv_push seen st ln :
  label_inv seen st -> heading_candidate ln = false ->
  label_inv (seen ++ [ln])
    (SegState (chunks st) (current_lines st ++ [ln]) (current_title st)).
Proof.
  intros (Hc & Ht & Hh) Hln. split; [|split]; cbn [chunks current_lines current_title].
  - eapply Forall_impl; [exact Hc|]. intros l. apply label_from_mono.
  - intros h E. by apply heading_of_mono, Ht.
  - intros h Hfull. destruct (heading_of_snoc _ _ _ Hfull) as [Hhd| ->].
    + destruct (Hh h Hhd) as [?|[? _]]; [by left|right].
      split; [done|]. by intros [_ ?]%app_eq_nil.
    + destruct Hfull as (_ & _ & Hfull). congruence.
Qed.

Lemma label_inv_heading seen st ln :
  label_inv seen st -> ln <> [] -> heading_candidate ln = true ->
  current_lines st = [] ->
  (forall h, heading_of seen h -> h ∈ sections (chunks st)) ->
  label_inv (seen ++ [ln]) (SegState (chunks st) (current_lines st ++ [ln]) (Some ln)).
Proof.
  intros (Hc & Ht & Hh) Hne Hln Hnil Hall.
  assert (heading_of (seen ++ [ln]) ln) as Hhd.
  { split; [|done]. apply elem_of_app. right. by apply list_elem_of_singleton. }
  split; [|split]; cbn [chunks current_lines current_title].
  - eapply Forall_impl; [exact Hc|]. intros l. apply label_from_mono.
  - by intros h [= <-].
  - intros h [Hh'| ->]%heading_of_snoc.
    + left. by apply Hall.
    + right. split; [done|]. by intros [_ ?]%app_eq_nil.
Qed.

(** The scan keeps both invariants. *)
Lemma line_step_labels solid_seen seen max_chars st ln :
  0 < max_chars -> tidy ln ->
  seg_inv solid_seen st -> label_inv seen st ->
  exists st',
    line_step max_chars st ln = Some st'
    /\ seg_inv (solid_seen ++ solid ln) st'
    /\ label_inv (seen ++ (if nonempty ln then [ln] else [])) st'.
Proof.
  intros Hpos Hln Hseg Hlab. unfold line_step.
  destruct (nonempty ln) eqn:Hne.
  2:{ apply nonempty_false in Hne as ->. exists st. by rewrite !app_nil_r. }
  apply nonempty_true in Hne.
  set (st1 := if heading_candidate ln
              then SegState (chunks (flush None st))
                     (current_lines (flush None st) ++ [ln]) (Some ln)
              else SegState (chunks st) (current_lines st ++ [ln])
                     (current_title st)).
  assert (seg_inv (solid_seen ++ solid ln) st1
          /\ label_inv (seen ++ [ln]) st1) as [Hseg1 Hlab1].
  { unfold st1. destruct (heading_candidate ln) eqn:Hh.
    - destruct (flush_inv _ _ Hseg) as [Hseg' Hnil].
      destruct (label_inv_flush seen st Hlab) as [Hlab' Hall];
        [apply Hseg|].
      split; [by apply seg_inv_push|]. by apply label_inv_heading.
    - split; [by apply seg_inv_push|]. by apply label_inv_push. }
  clearbody st1.
  destruct (size_loop_inv
              (fun s => seg_inv (solid_seen ++ solid ln) s
                        /\ label_inv (seen ++ [ln]) s) max_chars Hpos)
    with (fuel := S (length (join nl (current_lines st1)))) (st := st1)
    as (st' & E & Hs' & Hl'); [|lia|done|by exists st'].
  intros s e [Hs Hl] t Hgt He _ Hb. split; [by apply seg_inv_size_step|].
  destruct Hs as (_ & Hlines & _).
  assert (current_lines s <> []) as Hcur.
  { intros E0. subst t. rewrite E0 in Hgt. simpl in Hgt. unfold len in Hgt.
    simpl in Hgt. lia. }
  apply label_inv_size_step; [done| |done].
  apply Hb. by apply tidy_join.
Qed.

Lemma scan_lines_labels max_chars lines : forall solid_seen seen st,
  0 < max_chars -> Forall tidy lines ->
  seg_inv solid_seen st -> label_inv seen st ->
  exists st',
    scan_lines max_chars st lines = Some st'
    /\ seg_inv (solid_seen ++ solid (concat lines)) st'
    /\ label_inv (seen ++ List.filter nonempty lines) st'.
Proof.
  induction lines as [|ln lines IH]; intros ss seen st Hpos Hall Hseg Hlab;
    simpl.
  { exists st. by rewrite !app_nil_r. }
  apply Forall_cons in Hall as [Hln Hall].
  destruct (line_step_labels ss seen max_chars st ln Hpos Hln Hseg Hlab)
    as (st1 & -> & Hs1 & Hl1).
  destruct (IH _ _ st1 Hpos Hall Hs1 Hl1) as (st2 & -> & Hs2 & Hl2).
  exists st2. split; [done|]. rewrite solid_app, app_assoc. split; [done|].
  destruct (nonempty ln); by rewrite <- app_assoc in Hl2.
Qed.

Lemma label_from_nonempty seen l : label_from seen l -> l <> [].
Proof. intros [->|(_ & ? & _)]; done. Qed.

(** The post-pass keeps the label of a chunk on its first piece and gives
    the later pieces that label with the continuation suffix. *)
Lemma post_pass_labels max_chars cs : forall out,
  0 < max_chars -> Forall good_text (texts cs) ->
  Forall (fun l => l <> []) (sections cs) ->
  post_pass max_chars cs = Some out ->
  Forall (fun l => exists l0, l0 ∈ sections cs
                              /\ (l = l0 \/ l = l0 ++ cont_suffix))
    (sections out)
  /\ forall l0, l0 ∈ sections cs -> l0 ∈ sections out.
Proof.
  induction cs as [|c cs IH]; intros out Hpos Hg Hne; simpl.
  { intros [= <-]. split; [constructor|done]. }
  apply Forall_cons in Hg as [Hgc Hg]. apply Forall_cons in Hne as [Hnc Hne].
  destruct (post_pass max_chars cs) as [r|] eqn:Er.
  2:{ by destruct (if len (text c) >? max_chars then _ else _). }
  destruct (IH r Hpos Hg Hne eq_refl) as [Hr1 Hr2].
  assert (exists l,
    (if len (text c) >? max_chars then _split_large_chunk c max_chars
     else Some [c]) = Some l
    /\ labels_ok (section c) l /\ l <> []) as (l & -> & Hl & Hlne).
  { destruct (Z.gtb_spec (len (text c)) max_chars) as [Hgt|Hle].
    - destruct (split_large_chunk_general c max_chars Hpos)
        as (o & -> & _ & _ & Ho).
      destruct Ho as (Hone & _ & Hlab); [lia| |].
      { apply head_solid_nonempty_solid; [apply Hgc|apply Hgc]. }
      exists o. split; [done|]. split; [|done].
      unfold str_or in Hlab. by rewrite (proj2 (nonempty_true _) Hnc) in Hlab.
    - exists [c]. split; [done|]. split; [|done]. split; [done|constructor]. }
  intros [= <-]. unfold sections in *. rewrite map_app. split.
  - apply Forall_app. split.
    + destruct l as [|c0 rest]; [done|]. destruct Hl as [H0 Hrest].
      simpl. constructor.
      * exists (section c). split; [apply elem_of_cons; by left|by left].
      * apply Forall_map. eapply Forall_impl; [exact Hrest|].
        intros x Hx. simpl. exists (section c).
        split; [apply elem_of_cons; by left|by right].
    + eapply Forall_impl; [exact Hr1|]. intros x (l0 & Hin & Hx).
      exists l0. split; [apply elem_of_cons; by right|done].
  - intros l0 [->|Hin]%elem_of_cons; apply elem_of_app.
    + left. destruct l as [|c0 rest]; [done|]. destruct Hl as [H0 _].
      simpl. rewrite H0. apply elem_of_cons. by left.
    + right. by apply Hr2.
Qed.

Lemma chunk_text_label_facts doc max_chars :
  0 < max_chars ->
  exists segs,
    chunk_text doc max_chars = Some segs
    /\ Forall (label_ok (source_lines doc)) (sections segs)
    /\ forall h, heading_of (source_lines doc) h -> h ∈ sections segs.
Proof.
  intros Hpos. unfold chunk_text.
  destruct (scan_lines_labels max_chars (map strip (splitlines doc)) [] []
              (SegState [] [] None)) as (st & -> & Hseg & Hlab);
    [done|apply stripped_lines_tidy
    |split; [constructor|split; [constructor|done]]| |].
  { split; [constructor|]. split; [by intros h [=]|].
    intros h (Hin & _). by apply elem_of_nil in Hin. }
  simpl app in Hlab. fold (source_lines doc) in Hlab.
  destruct (label_inv_flush _ st Hlab) as [(Hc & _ & _) Hall]; [apply Hseg|].
  apply flush_inv in Hseg as [(Hg & _ & _) _].
  revert Hc Hall Hg. generalize (flush None st). intros st1 Hc Hall Hg.
  destruct (post_pass_ok max_chars (chunks st1) Hpos Hg) as (out & E & _ & _).
  rewrite E. exists out. split; [done|].
  destruct (post_pass_labels max_chars (chunks st1) out Hpos Hg) as [H1 H2];
    [|done|].
  { eapply Forall_impl; [exact Hc|]. intros l. apply label_from_nonempty. }
  split.
  - eapply Forall_impl; [exact H1|]. intros l (l0 & Hin & Hl).
    rewrite Forall_forall in Hc. specialize (Hc l0 Hin).
    destruct Hl as [->| ->]; [by left|right; by exists l0].
  - intros h Hhd. by apply H2, Hall.
Qed.

End Labels.

(** X6. For every document and every positive bound, the label of every
    segment is UNKNOWN or a line of the document, stripped, that passes the
    test for a section header, with or without the suffix " (cont.)"; and
    every such header line of the document is the label of some segment. *)
Theorem chunk_text_labels doc max_chars :
  0 < max_chars ->
  exists segs,
    chunk_text doc max_chars = Some segs
    /\ Forall (label_ok (source_lines doc)) (sections segs)
    /\ forall h, heading_of (source_lines doc) h -> h ∈ sections segs.
Proof. apply chunk_text_label_facts. Qed.

Lemma chunk_text_labels_witness :
  exists segs,
    chunk_text scenario_doc 20 = Some segs
    /\ Forall (label_ok (source_lines scenario_doc)) (sections segs)
    /\ forall h, heading_of (source_lines scenario_doc) h -> h ∈ sections segs.
Proof. apply (chunk_text_labels scenario_doc 20). reflexivity. Defined.

(** ** The selection of evidence *)

Section Ranking.

Context {K : Type} (key : nat -> K) (ltk : K -> K -> bool).
Hypothesis ltk_asym : asymmetric ltk.
Hypothesis ltk_negtrans : negatively_transitive ltk.

Lemma insert_by_elem x l y : y ∈ insert_by key ltk x l <-> y = x \/ y ∈ l.
Proof.
  induction l as [|z l IH]; simpl.
  - rewrite list_elem_of_singleton. split; [auto|]. intros [?|H]; [done|].
    by apply elem_of_nil in H.
  - destruct (ltk (key z) (key x)); rewrite !elem_of_cons; [|tauto].
    rewrite IH. tauto.
Qed.

Lemma insert_by_ranked x l :
  Forall (fun y => (x < y)%nat) l ->
  StronglySorted (ranks_before key ltk) l ->
  StronglySorted (ranks_before key ltk) (insert_by key ltk x l).
Proof.
  intros Hx Hs. induction Hs as [|y l Hs IH Hy]; simpl.
  { repeat constructor. }
  apply Forall_cons in Hx as [Hxy Hx].
  destruct (ltk (key y) (key x)) eqn:E.
  - constructor; [by apply IH|]. apply Forall_forall. intros z Hz.
    apply insert_by_elem in Hz as [->|Hz].
    + split; [by apply ltk_asym|by left].
    + rewrite Forall_forall in Hy. by apply Hy.
  - constructor; [by constructor|]. constructor.
    + split; [done|by right].
    + rewrite Forall_forall in Hx, Hy. apply Forall_forall. intros z Hz.
      destruct (Hy z Hz) as [Hzy _]. split; [|right; by apply Hx].
      by apply (ltk_negtrans _ (key y)).
Qed.

Lemma sorted_by_seq_elem s n y :
  y ∈ sorted_by key ltk (seq s n) <-> (s <= y < s + n)%nat.
Proof.
  revert s. induction n as [|n IH]; intros s; simpl.
  - split; [by intros H%elem_of_nil|lia].
  - change (foldr (insert_by key ltk) [] (seq (S s) n))
      with (sorted_by key ltk (seq (S s) n)).
    rewrite insert_by_elem, IH. lia.
Qed.

Lemma sorted_by_ranked s n :
  StronglySorted (ranks_before key ltk) (sorted_by key ltk (seq s n)).
Proof.
  revert s. induction n as [|n IH]; intros s; simpl; [constructor|].
  apply insert_by_ranked; [|apply IH]. apply Forall_forall.
  intros y Hy. apply (sorted_by_seq_elem (S s) n) in Hy. lia.
Qed.

(** An index that a slice from the start keeps ranks before every index
    of the range that the slice leaves out. *)
Lemma slice_to_ranked n k i j :
  i ∈ slice_to (sorted_by key ltk (seq 0 n)) k ->
  j ∉ slice_to (sorted_by key ltk (seq 0 n)) k ->
  (j < n)%nat ->
  ranks_before key ltk i j.
Proof.
  intros Hi Hj Hn.
  assert (exists m, slice_to (sorted_by key ltk (seq 0 n)) k
                    = take m (sorted_by key ltk (seq 0 n))) as [m E].
  { unfold slice_to. destruct (k <? 0); by eexists. }
  rewrite E in Hi, Hj.
  pose proof (sorted_by_ranked 0 n) as Hs.
  rewrite <- (take_drop m (sorted_by key ltk (seq 0 n))) in Hs.
  eapply StronglySorted_app_1_elem_of; [exact Hs|exact Hi|].
  assert (j ∈ sorted_by key ltk (seq 0 n)) as Hin
    by (apply sorted_by_seq_elem; lia).
  rewrite <- (take_drop m (sorted_by key ltk (seq 0 n))) in Hin.
  apply elem_of_app in Hin as [?|?]; done.
Qed.

End Ranking.

Section SortKeys.

Context {K1 K2 : Type} (key1 : nat -> K1) (ltk1 : K1 -> K1 -> bool)
  (key2 : nat -> K2) (ltk2 : K2 -> K2 -> bool) (P : nat -> Prop).
Hypothesis same_order : forall x y,
  P x -> P y -> ltk1 (key1 y) (key1 x) = ltk2 (key2 y) (key2 x).

(** Sorting depends on the comparisons between the keys of the elements
    only. *)
Lemma insert_by_ext x l :
  P x -> Forall P l -> insert_by key1 ltk1 x l = insert_by key2 ltk2 x l.
Proof.
  intros Hx Hl. induction Hl as [|y l Hy Hl IH]; simpl; [done|].
  by rewrite (same_order x y Hx Hy), IH.
Qed.

Lemma sorted_by_ext l :
  Forall P l -> sorted_by key1 ltk1 l = sorted_by key2 ltk2 l.
Proof.
  induction 1 as [|x l Hx Hl IH]; simpl; [done|].
  change (foldr (insert_by key1 ltk1) [] l) with (sorted_by key1 ltk1 l).
  change (foldr (insert_by key2 ltk2) [] l) with (sorted_by key2 ltk2 l).
  rewrite <- IH. apply insert_by_ext; [done|].
  by rewrite sorted_by_perm.
Qed.

End SortKeys.

Section Selection.

Context {score : Type}.
Variable fzero : score.
Variables fadd fmul : score -> score -> score.
Variable fneg : score -> score.
Variable flt : score -> score -> bool.
Variable embed_texts : list pystr -> list (list score).

Lemma top_indices_ranked q_emb chunk_embs k i j si sj :
  asymmetric flt -> negatively_transitive flt ->
  i ∈ top_indices fzero fadd fmul fneg flt q_emb chunk_embs k ->
  j ∉ top_indices fzero fadd fmul fneg flt q_emb chunk_embs k ->
  map (_dot fzero fadd fmul q_emb) chunk_embs !! i = Some si ->
  map (_dot fzero fadd fmul q_emb) chunk_embs !! j = Some sj ->
  flt (fneg sj) (fneg si) = false
  /\ (flt (fneg si) (fneg sj) = true \/ (i < j)%nat).
Proof.
  intros Ha Hn Hi Hj Esi Esj. unfold top_indices in Hi, Hj.
  assert (j < length (map (_dot fzero fadd fmul q_emb) chunk_embs))%nat as Hlt
    by (apply lookup_lt_is_Some; by eexists).
  revert Hi Hj Esi Esj Hlt.
  generalize (map (_dot fzero fadd fmul q_emb) chunk_embs). intros scores.
  intros Hi Hj Esi Esj Hlt.
  set (key2 := fun n : nat => fneg (nth n scores si)).
  assert (forall n s, scores !! n = Some s -> key2 n = fneg s) as Hkey.
  { intros n s Hs. unfold key2. by rewrite (nth_lookup_Some _ _ _ _ Hs). }
  match type of Hi with
  | _ ∈ slice_to (sorted_by ?key ?ltk ?l) _ =>
      assert (sorted_by key ltk l = sorted_by key2 flt l) as E
  end.
  { apply (sorted_by_ext _ _ _ _ (fun n => (n < length scores)%nat)).
    - intros x y [sx Hx]%lookup_lt_is_Some [sy Hy]%lookup_lt_is_Some.
      by rewrite Hx, Hy, (Hkey _ _ Hx), (Hkey _ _ Hy).
    - apply Forall_forall. intros n Hn'. apply elem_of_seq in Hn'. lia. }
  rewrite E in Hi, Hj.
  destruct (slice_to_ranked key2 flt Ha Hn _ k i j Hi Hj Hlt) as [H1 H2].
  by rewrite (Hkey _ _ Esi), (Hkey _ _ Esj) in H1, H2.
Qed.

End Selection.

(** X7. The indices a topic query selects are the best ranked: when the
    order on scores is asymmetric and negatively transitive (as that of
    floating-point numbers other than NaN), no segment left out has a
    negated score strictly below that of a selected one, so none left out
    scores higher; and between equal scores the earlier segment wins. *)
Theorem top_indices_best
    {score : Type} (fzero : score) (fadd fmul : score -> score -> score)
    (fneg : score -> score) (flt : score -> score -> bool)
    (q_emb : list score) (chunk_embs : list (list score))
    (top_k_per_query : Z) (i j : nat) (si sj : score) :
  asymmetric flt -> negatively_transitive flt ->
  i ∈ top_indices fzero fadd fmul fneg flt q_emb chunk_embs top_k_per_query ->
  j ∉ top_indices fzero fadd fmul fneg flt q_emb chunk_embs top_k_per_query ->
  map (_dot fzero fadd fmul q_emb) chunk_embs !! i = Some si ->
  map (_dot fzero fadd fmul q_emb) chunk_embs !! j = Some sj ->
  flt (fneg sj) (fneg si) = false
  /\ (flt (fneg si) (fneg sj) = true \/ (i < j)%nat).
Proof. apply top_indices_ranked. Qed.

Lemma top_indices_best_witness :
  Z.ltb (Z.opp 6) (Z.opp 12) = false
  /\ (Z.ltb (Z.opp 12) (Z.opp 6) = true \/ (0 < 1)%nat).
Proof.
  apply (top_indices_best 0 Z.add Z.mul Z.opp Z.ltb [3]
           (length_embedder (map text three_chunks)) 2 0%nat 1%nat 12 6).
  - intros a b H. apply Z.ltb_lt in H. apply Z.ltb_ge. lia.
  - intros a b c H1 H2. apply Z.ltb_ge in H1, H2. apply Z.ltb_ge. lia.
  - vm_compute. apply elem_of_cons. right. apply elem_of_cons. by left.
  - vm_compute. intros H. apply elem_of_cons in H as [H|H]; [discriminate|].
    apply elem_of_cons in H as [H|H]; [discriminate|].
    by apply elem_of_nil in H.
  - reflexivity.
  - reflexivity.
Defined.

Section Evidence.

Context {score : Type}.
Variable fzero : score.
Variables fadd fmul : score -> score -> score.
Variable fneg : score -> score.
Variable flt : score -> score -> bool.
Variable embed_texts : list pystr -> list (list score).

Lemma size_union_le (X Y : gset nat) :
  (size (X ∪ Y) <= size X + size Y)%nat.
Proof.
  rewrite size_union_alt.
  assert (size (Y ∖ X) <= size Y)%nat as Hle
    by (apply subseteq_size; intros i [Hi _]%elem_of_difference; exact Hi).
  lia.
Qed.

Lemma size_list_to_set_le (l : list nat) :
  (size (list_to_set l : gset nat) <= length l)%nat.
Proof.
  induction l as [|x l IH].
  { change (size (∅ : gset nat) <= 0)%nat. by rewrite size_empty. }
  change (size ({[x]} ∪ list_to_set l : gset nat) <= S (length l))%nat.
  pose proof (size_union_le {[x]} (list_to_set l)) as H.
  rewrite size_singleton in H. lia.
Qed.

Lemma length_slice_to {A} (l : list A) k :
  0 <= k -> Z.of_nat (length (slice_to l k)) <= k.
Proof. intros H. rewrite slice_to_nonneg by done. rewrite length_take. lia. Qed.

Lemma length_sorted_by {K} (key : nat -> K) ltk l :
  length (sorted_by key ltk l) = length l.
Proof. by rewrite sorted_by_perm. Qed.

(** The queries add at most [top_k_per_query] indices each. *)
Lemma collect_indices_size queries chunk_embs k : forall s s',
  0 <= k ->
  collect_indices fzero fadd fmul fneg flt embed_texts queries chunk_embs k s
    = Ok s' ->
  Z.of_nat (size s') <= Z.of_nat (size s) + Z.of_nat (length queries) * k.
Proof.
  induction queries as [|q queries IH]; intros s s' Hk; simpl.
  { intros [= <-]. lia. }
  destruct (embed_texts [q]) as [|q_emb rest]; [done|]. intros H.
  apply IH in H; [|done].
  pose proof (size_union_le s (list_to_set
    (top_indices fzero fadd fmul fneg flt q_emb chunk_embs k))) as H1.
  pose proof (size_list_to_set_le
    (top_indices fzero fadd fmul fneg flt q_emb chunk_embs k)) as H2.
  pose proof (length_slice_to
    (sorted_by (fun i => option_map fneg
                  (map (_dot fzero fadd fmul q_emb) chunk_embs !! i))
       (fun a b => match a, b with
                   | Some x, Some y => flt x y
                   | _, _ => false
                   end)
       (seq 0 (length (map (_dot fzero fadd fmul q_emb) chunk_embs)))) k Hk)
    as H3.
  change (Z.of_nat (length
    (top_indices fzero fadd fmul fneg flt q_emb chunk_embs k)) <= k) in H3.
  lia.
Qed.

(** With [top_k_per_query] at least the number of vectors, every query
    selects every index. *)
Lemma top_indices_all q_emb chunk_embs k :
  Z.of_nat (length chunk_embs) <= k ->
  top_indices fzero fadd fmul fneg flt q_emb chunk_embs k
  ≡ₚ seq 0 (length chunk_embs).
Proof.
  intros Hk. unfold top_indices. rewrite slice_to_nonneg by lia.
  rewrite take_ge.
  - by rewrite sorted_by_perm, length_map.
  - rewrite length_sorted_by, length_seq, length_map. lia.
Qed.

Lemma collect_indices_all queries chunk_embs k : forall s,
  Z.of_nat (length chunk_embs) <= k ->
  Forall (fun q => embed_texts [q] <> []) queries ->
  exists s',
    collect_indices fzero fadd fmul fneg flt embed_texts queries
      chunk_embs k s = Ok s'
    /\ forall i, i ∈ s' <->
         i ∈ s \/ (queries <> [] /\ (i < length chunk_embs)%nat).
Proof.
  induction queries as [|q queries IH]; intros s Hk Hq; simpl.
  { exists s. split; [done|]. intros i. split; [auto|]. by intros [?|[? _]]. }
  apply Forall_cons in Hq as [Hq Hqs].
  destruct (embed_texts [q]) as [|q_emb rest]; [done|].
  destruct (IH (s ∪ list_to_set
              (top_indices fzero fadd fmul fneg flt q_emb chunk_embs k)) Hk Hqs)
    as (s' & -> & Hs').
  exists s'. split; [done|]. intros i. rewrite Hs', elem_of_union.
  rewrite elem_of_list_to_set, (top_indices_all q_emb chunk_embs k Hk).
  rewrite elem_of_seq. split.
  - intros [[?|?]|[_ ?]]; [by left|right|right]; split; (done || lia).
  - intros [?|[_ ?]]; [by left; left|left; right; lia].
Qed.

Lemma sorted_seq s n : StronglySorted Nat.le (seq s n).
Proof.
  revert s. induction n as [|n IH]; intros s; simpl; constructor; [apply IH|].
  apply Forall_forall. intros y Hy%elem_of_seq. unfold Nat.le. lia.
Qed.

Lemma sorted_set_range (s : gset nat) n :
  (forall i, i ∈ s <-> (i < n)%nat) -> sorted_set s = seq 0 n.
Proof.
  intros Hs. unfold sorted_set.
  apply (StronglySorted_unique Nat.le).
  - apply StronglySorted_merge_sort; apply _.
  - apply sorted_seq.
  - rewrite merge_sort_Permutation. apply NoDup_Permutation.
    + apply NoDup_elements.
    + apply NoDup_seq.
    + intros i. rewrite elem_of_elements, Hs, elem_of_seq. lia.
Qed.

Lemma pick_seq {A} (xs : list A) : forall pre,
  pick (pre ++ xs) (seq (length pre) (length xs)) = Ok xs.
Proof.
  induction xs as [|x xs IH]; intros pre; simpl; [done|].
  rewrite list_lookup_middle by done.
  specialize (IH (pre ++ [x])). rewrite length_app in IH. simpl in IH.
  rewrite Nat.add_1_r, <- app_assoc in IH. simpl in IH. by rewrite IH.
Qed.

Lemma retrieve_evidence_everything chunks k max_chars :
  length (embed_texts (map text chunks)) = length chunks ->
  Forall (fun q => embed_texts [q] <> []) RISK_QUERIES ->
  Z.of_nat (length chunks) <= k ->
  retrieve_evidence_for_risk fzero fadd fmul fneg flt embed_texts
    chunks k max_chars
  = Ok (if decide (chunks = []) then []
        else cap_evidence max_chars (join blank_line (map text chunks))).
Proof.
  intros Hlen Hq Hk. unfold retrieve_evidence_for_risk.
  destruct chunks as [|c0 chunks0] eqn:Ec; [done|]. rewrite <- Ec in *.
  rewrite decide_False by (by rewrite Ec).
  destruct (collect_indices_all RISK_QUERIES (embed_texts (map text chunks))
              k ∅) as (s & -> & Hs); [lia|done|].
  pose proof (pick_seq chunks []) as Hp. simpl in Hp.
  simpl. rewrite (sorted_set_range s (length chunks)).
  - by rewrite Hp.
  - intros i. rewrite Hs, Hlen. split.
    + intros [H|[_ H]]; [by apply elem_of_empty in H|done].
    + intros H. right. done.
Qed.

Lemma retrieve_evidence_few chunks k max_chars :
  chunks <> [] ->
  length (embed_texts (map text chunks)) = length chunks ->
  Forall (fun q => embed_texts [q] <> []) RISK_QUERIES ->
  0 <= k ->
  exists idxs out,
    bundle_of chunks idxs out
    /\ retrieve_evidence_for_risk fzero fadd fmul fneg flt embed_texts
         chunks k max_chars = Ok (cap_evidence max_chars out)
    /\ Z.of_nat (length idxs) <= 8 * k
    /\ (length idxs <= length chunks)%nat.
Proof.
  intros Hne Hlen Hq Hk.
  destruct (retrieve_evidence_ok fzero fadd fmul fneg flt embed_texts
              chunks k max_chars Hne Hlen Hq) as (s & out & Hs & Hb & Hr).
  exists (sorted_set s), out. split; [done|]. split; [done|].
  assert (length (sorted_set s) = size s) as ->.
  { unfold sorted_set. by rewrite merge_sort_Permutation. }
  split.
  - apply collect_indices_size in Hs; [|done]. rewrite size_empty in Hs.
    change (length RISK_QUERIES) with 8%nat in Hs. lia.
  - destruct (collect_indices_ok fzero fadd fmul fneg flt embed_texts
                RISK_QUERIES (embed_texts (map text chunks)) k ∅ Hq)
      as (s2 & Hs2 & Hin).
    rewrite Hs in Hs2. injection Hs2 as <-.
    assert (s ⊆ list_to_set (seq 0 (length chunks))) as Hsub.
    { intros i Hi. apply elem_of_list_to_set, elem_of_seq.
      destruct (Hin i Hi) as [H|H]; [by apply elem_of_empty in H|].
      rewrite Hlen in H. lia. }
    apply subseteq_size in Hsub.
    rewrite size_list_to_set, length_seq in Hsub by apply NoDup_seq. done.
Qed.

Lemma cap_evidence_len max_chars out :
  0 <= max_chars ->
  len (cap_evidence max_chars out)
  = if len out >? max_chars then max_chars + len truncation_notice
    else len out.
Proof.
  intros H. unfold cap_evidence.
  destruct (Z.gtb_spec (len out) max_chars) as [Hgt|Hle]; [|done].
  unfold len in *. rewrite length_app, slice_to_nonneg, length_take by done.
  lia.
Qed.

Lemma retrieve_evidence_len chunks k max_chars out :
  0 <= max_chars ->
  retrieve_evidence_for_risk fzero fadd fmul fneg flt embed_texts
    chunks k max_chars = Ok out ->
  len out <= max_chars + 47
  /\ (max_chars < len out ->
      len out = max_chars + 47
      /\ slice_from out max_chars = truncation_notice).
Proof.
  intros Hm. unfold retrieve_evidence_for_risk.
  destruct chunks as [|c0 chunks0] eqn:Ec.
  { intros [= <-]. change (len []) with 0. split; lia. }
  rewrite <- Ec. clear Ec.
  destruct (collect_indices _ _ _ _ _ _ _ _ _ _) as [s|]; [|done]. simpl.
  destruct (pick chunks (sorted_set s)) as [ev|]; [|done]. simpl.
  intros [= <-]. generalize (join blank_line (map text ev)). intros t.
  pose proof (cap_evidence_len max_chars t Hm) as Hl.
  change (len truncation_notice) with 47 in Hl.
  destruct (Z.gtb_spec (len t) max_chars) as [Hgt|Hle].
  - split; [lia|]. intros _. split; [done|].
    unfold cap_evidence. rewrite (proj2 (Z.gtb_gt _ _)) by lia.
    rewrite slice_from_nonneg, slice_to_nonneg by done.
    rewrite drop_app_length'; [done|]. rewrite length_take. unfold len in Hgt.
    lia.
  - split; [lia|]. intros H. lia.
Qed.

End Evidence.

(** X8. When [top_k_per_query] is at least the number of segments (and
    the embedding collaborator gives one vector per text), every segment is
    selected: the selector returns the texts of all segments, in document
    order, joined by blank lines and capped at [max_chars]; for no segment
    it returns the empty text. *)
Theorem retrieve_evidence_all_segments
    {score : Type} (fzero : score) (fadd fmul : score -> score -> score)
    (fneg : score -> score) (flt : score -> score -> bool)
    (embed_texts : list pystr -> list (list score))
    (chunks : list chunk) (top_k_per_query max_chars : Z) :
  length (embed_texts (map text chunks)) = length chunks ->
  Forall (fun q => embed_texts [q] <> []) RISK_QUERIES ->
  Z.of_nat (length chunks) <= top_k_per_query ->
  retrieve_evidence_for_risk fzero fadd fmul fneg flt embed_texts
    chunks top_k_per_query max_chars
  = Ok (if decide (chunks = []) then []
        else cap_evidence max_chars (join blank_line (map text chunks))).
Proof. apply retrieve_evidence_everything. Qed.

Lemma retrieve_evidence_all_segments_witness :
  retrieve_with_lengths two_chunks 5 100
  = Ok (str "aaaa" ++ blank_line ++ str "bbbb").
Proof.
  apply (retrieve_evidence_all_segments 0 Z.add Z.mul Z.opp Z.ltb
           length_embedder two_chunks 5 100).
  - reflexivity.
  - repeat constructor; discriminate.
  - simpl. lia.
Defined.

(** X9. For a segment list that is not empty and a [top_k_per_query] that
    is not negative, the evidence is made of at most [8 * top_k_per_query]
    segments (eight topic queries, each adding at most that many), and of
    no more segments than there are. *)
Theorem retrieve_evidence_selection_size
    {score : Type} (fzero : score) (fadd fmul : score -> score -> score)
    (fneg : score -> score) (flt : score -> score -> bool)
    (embed_texts : list pystr -> list (list score))
    (chunks : list chunk) (top_k_per_query max_chars : Z) :
  chunks <> [] ->
  length (embed_texts (map text chunks)) = length chunks ->
  Forall (fun q => embed_texts [q] <> []) RISK_QUERIES ->
  0 <= top_k_per_query ->
  exists idxs out,
    bundle_of chunks idxs out
    /\ retrieve_evidence_for_risk fzero fadd fmul fneg flt embed_texts
         chunks top_k_per_query max_chars = Ok (cap_evidence max_chars out)
    /\ Z.of_nat (length idxs) <= 8 * top_k_per_query
    /\ (length idxs <= length chunks)%nat.
Proof. apply retrieve_evidence_few. Qed.

Lemma retrieve_evidence_selection_size_witness :
  exists idxs out,
    bundle_of three_chunks idxs out
    /\ retrieve_with_lengths three_chunks 1 100
       = Ok (cap_evidence 100 out)
    /\ Z.of_nat (length idxs) <= 8 * 1
    /\ (length idxs <= length three_chunks)%nat.
Proof.
  apply (retrieve_evidence_selection_size 0 Z.add Z.mul Z.opp Z.ltb
           length_embedder three_chunks 1 100).
  - discriminate.
  - reflexivity.
  - repeat constructor; discriminate.
  - lia.
Defined.

(** X10. For a [max_chars] that is not negative, a text the selector
    returns has at most [max_chars + 47] characters, not [max_chars]: a
    text longer than [max_chars] is one that was cut, it has exactly
    [max_chars + 47] characters and ends with the truncation notice of 47
    characters, which follows the first [max_chars] characters. *)
Theorem retrieve_evidence_length_cap
    {score : Type} (fzero : score) (fadd fmul : score -> score -> score)
    (fneg : score -> score) (flt : score -> score -> bool)
    (embed_texts : list pystr -> list (list score))
    (chunks : list chunk) (top_k_per_query max_chars : Z) (out : pystr) :
  0 <= max_chars ->
  retrieve_evidence_for_risk fzero fadd fmul fneg flt embed_texts
    chunks top_k_per_query max_chars = Ok out ->
  len out <= max_chars + 47
  /\ (max_chars < len out ->
      len out = max_chars + 47
      /\ slice_from out max_chars = truncation_notice).
Proof. apply retrieve_evidence_len. Qed.

Lemma retrieve_evidence_length_cap_witness :
  len (str "aaa" ++ truncation_notice) <= 3 + 47
  /\ (3 < len (str "aaa" ++ truncation_notice) ->
      len (str "aaa" ++ truncation_notice) = 3 + 47
      /\ slice_from (str "aaa" ++ truncation_notice) 3 = truncation_notice).
Proof.
  apply (retrieve_evidence_length_cap 0 Z.add Z.mul Z.opp Z.ltb
           length_embedder two_chunks 5 3).
  - lia.
  - vm_compute. reflexivity.
Defined.

(** ** The runs of the risk review *)

Section RunFacts.

Context {T : Type}.
Variable world : nat -> request T -> post_outcome.
Variables model clauses_text : pystr.
Variable temperature : T.
Variable playbook_rules : option pystr.

Let body :=
  risk_review_body world model clauses_text temperature playbook_rules.
Let fails :=
  extraction_fails world model clauses_text temperature playbook_rules.
Let call :=
  call_event world model clauses_text temperature playbook_rules.

Lemma generations_snoc (tr : list (event T)) ev :
  generations (tr ++ [ev])
  = generations tr ++ (if is_generate ev then [ev] else []).
Proof. unfold generations. rewrite List.filter_app. simpl. by destruct ev. Qed.

Lemma calls_generations (tr : list (event T)) :
  calls tr = length (generations tr).
Proof. done. Qed.

Let in_order :=
  numbered world model clauses_text temperature playbook_rules.

Lemma numbered_call tr :
  in_order tr -> in_order (tr ++ [call (calls tr)]).
Proof.
  unfold in_order, numbered. fold call. intros H.
  rewrite calls_snoc, generations_snoc. simpl.
  rewrite Nat.add_1_r, seq_S, map_app, H. done.
Qed.

Lemma numbered_sleep tr secs : in_order tr -> in_order (tr ++ [Sleep secs]).
Proof.
  unfold in_order, numbered. intros H.
  rewrite calls_snoc, generations_snoc. simpl.
  by rewrite Nat.add_0_r, app_nil_r.
Qed.

Let pattern :=
  call_pattern world model clauses_text temperature playbook_rules.

Lemma pattern_nil : pattern [].
Proof. intros i req resp H. by destruct i. Qed.

Lemma pattern_sleep tr secs : pattern tr -> pattern (tr ++ [Sleep secs]).
Proof.
  unfold pattern, call_pattern. intros H.
  rewrite generations_snoc. simpl. by rewrite app_nil_r.
Qed.

Lemma pattern_first_call tr :
  pattern tr ->
  pattern (tr ++ [Generate
                    (Request model (risk_prompt clauses_text playbook_rules)
                       temperature true)
                    (world (calls tr)
                       (Request model
                          (risk_prompt clauses_text playbook_rules)
                          temperature true))]).
Proof.
  intros H i req resp. rewrite generations_snoc. cbn [is_generate].
  intros [[Hi Hl]|[Hi [= <- <-]]]%lookup_snoc_Some.
  - destruct (H i req resp Hl) as (Hr & Hw & Hf). split; [done|].
    split; [done|]. intros Hm.
    destruct (Hf Hm) as (req' & resp' & raw & e & H1 & Hp & Hrest).
    exists req', resp', raw, e. split; [done|]. split; [|done].
    by apply lookup_app_l_Some.
  - split; [done|]. split; [by rewrite Hi|]. done.
Qed.

Lemma pattern_fallback tr req1 raw e :
  pattern (tr ++ [Generate req1 (world (calls tr) req1)]) ->
  req_json_mode req1 = true ->
  response_text model (world (calls tr) req1) = Ok raw ->
  _extract_json_obj raw = Raise e -> is_ValueError e = true ->
  pattern ((tr ++ [Generate req1 (world (calls tr) req1)])
           ++ [Generate
                 (Request model (risk_prompt clauses_text playbook_rules)
                    temperature false)
                 (world (S (calls tr))
                    (Request model (risk_prompt clauses_text playbook_rules)
                       temperature false))]).
Proof.
  intros H Hm Hr Hx Hv i req resp. rewrite generations_snoc.
  cbn [is_generate].
  assert (length (generations (tr ++ [Generate req1 (world (calls tr) req1)]))
          = S (calls tr)) as Hlen.
  { rewrite generations_snoc, length_app. simpl.
    rewrite <- calls_generations. lia. }
  intros [[Hi Hl]|[Hi [= <- <-]]]%lookup_snoc_Some.
  - destruct (H i req resp Hl) as (Hq & Hw & Hf). split; [done|].
    split; [done|]. intros Hm'.
    destruct (Hf Hm') as (req' & resp' & raw' & e' & H1 & Hp & Hrest).
    exists req', resp', raw', e'. split; [done|]. split; [|done].
    by apply lookup_app_l_Some.
  - rewrite Hlen in Hi. subst i. split; [done|]. split; [done|]. intros _.
    exists req1, (world (calls tr) req1), raw, e.
    split; [lia|]. split; [|done].
    apply lookup_app_l_Some. rewrite generations_snoc. cbn [is_generate].
    replace (S (calls tr) - 1)%nat with (length (generations tr))
      by (rewrite <- calls_generations; lia).
    by rewrite lookup_app_r, Nat.sub_diag.
Qed.

(** One attempt: its calls keep the pattern, and a text it returns is the
    answer to its last call and passes extraction. *)
Lemma body_run tr r tr' :
  pattern tr -> body tr = (r, tr') ->
  pattern tr'
  /\ (forall raw, r = Ok raw ->
        (exists v, _extract_json_obj raw = Ok v)
        /\ exists req resp, last tr' = Some (Generate req resp)
                            /\ response_text (req_model req) resp = Ok raw).
Proof.
  intros Hp. unfold body, risk_review_body, _ollama_generate.
  set (prompt := risk_prompt clauses_text playbook_rules).
  set (req1 := Request model prompt temperature true).
  pose proof (pattern_first_call tr Hp) as Hp1. fold prompt req1 in Hp1.
  assert (calls (tr ++ [Generate req1 (world (calls tr) req1)])
          = S (calls tr)) as C1.
  { rewrite calls_snoc. simpl. lia. }
  destruct (response_text model (world (calls tr) req1)) as [raw1|e1] eqn:R1.
  2:{ intros [= <- <-]. split; [done|]. by intros raw [=]. }
  destruct (_extract_json_obj raw1) as [v1|x1] eqn:X1.
  { intros [= <- <-]. split; [done|]. intros raw [= <-].
    split; [by exists v1|]. exists req1, (world (calls tr) req1).
    by rewrite last_snoc. }
  destruct (is_ValueError x1) eqn:V1.
  2:{ intros [= <- <-]. split; [done|]. by intros raw [=]. }
  rewrite C1.
  set (req2 := Request model prompt temperature false).
  pose proof (pattern_fallback tr req1 raw1 x1 Hp1 eq_refl R1 X1 V1) as Hp2.
  fold prompt req2 in Hp2.
  destruct (response_text model (world (S (calls tr)) req2))
    as [raw2|e2] eqn:R2.
  2:{ intros [= <- <-]. split; [done|]. by intros raw [=]. }
  destruct (_extract_json_obj raw2) as [v2|x2] eqn:X2.
  - intros [= <- <-]. split; [done|]. intros raw [= <-].
    split; [by exists v2|]. exists req2, (world (S (calls tr)) req2).
    by rewrite last_snoc.
  - intros [= <- <-]. split; [done|]. by intros raw [=].
Qed.

Lemma retry_call_run left : forall attempt_number tr r tr',
  pattern tr ->
  retry_call left attempt_number body tr = (r, tr') ->
  pattern tr'
  /\ (forall raw, r = Ok raw ->
        (exists v, _extract_json_obj raw = Ok v)
        /\ exists req resp, last tr' = Some (Generate req resp)
                            /\ response_text (req_model req) resp = Ok raw).
Proof.
  induction left as [|left IH]; intros n tr r tr' Hp; simpl;
    destruct (body tr) as [r1 tr1] eqn:Eb;
    destruct (body_run tr r1 tr1 Hp Eb) as (Hp1 & Hok);
    destruct r1 as [v|e]; try (intros [= <- <-]; split; [done|];
                               intros raw [= <-]; by apply Hok);
    destruct (is_ValueError e) eqn:V;
    try (intros [= <- <-]; split; [done|]; by intros raw [=]).
  apply IH. by apply pattern_sleep.
Qed.

Lemma run_risk_review_run r tr :
  run_risk_review world model clauses_text temperature playbook_rules
  = (r, tr) ->
  pattern tr
  /\ (forall raw, r = Ok raw ->
        (exists v, _extract_json_obj raw = Ok v)
        /\ exists req resp, last tr = Some (Generate req resp)
                            /\ response_text (req_model req) resp = Ok raw).
Proof. apply retry_call_run. apply pattern_nil. Qed.

(** When no body is refused, an attempt starts after an even number of
    calls and the calls are numbered, in json mode at the even numbers. *)
Lemma body_numbered tr r tr' :
  no_refused_body world model ->
  in_order tr -> Nat.even (calls tr) = true -> body tr = (r, tr') ->
  in_order tr'
  /\ (forall e, r = Raise e -> is_ValueError e = true ->
        calls tr' = S (S (calls tr))).
Proof.
  intros Hno Hn Hev. unfold body, risk_review_body, _ollama_generate.
  set (prompt := risk_prompt clauses_text playbook_rules).
  assert (Generate (Request model prompt temperature true)
            (world (calls tr) (Request model prompt temperature true))
          = call (calls tr)) as E1.
  { unfold call, call_event, risk_request. by rewrite Hev. }
  rewrite E1.
  assert (in_order (tr ++ [call (calls tr)])) as Hn1 by (by apply numbered_call).
  assert (calls (tr ++ [call (calls tr)]) = S (calls tr)) as C1.
  { rewrite calls_snoc. simpl. lia. }
  destruct (response_text model (world (calls tr) _)) as [raw1|e1] eqn:R1.
  2:{ intros [= <- <-]. split; [done|].
      intros e [= <-] V. apply Hno in R1. congruence. }
  destruct (_extract_json_obj raw1) as [v1|x1] eqn:X1.
  { intros [= <- <-]. split; [done|]. by intros e [=]. }
  destruct (is_ValueError x1) eqn:V1.
  2:{ intros [= <- <-]. split; [done|]. intros e [= <-] V. congruence. }
  rewrite C1.
  assert (Generate (Request model prompt temperature false)
            (world (S (calls tr)) (Request model prompt temperature false))
          = call (S (calls tr))) as E2.
  { unfold call, call_event, risk_request.
    by rewrite Nat.even_succ, <- Nat.negb_even, Hev. }
  rewrite E2.
  assert (in_order ((tr ++ [call (calls tr)]) ++ [call (S (calls tr))]))
    as Hn2.
  { pose proof (numbered_call _ Hn1) as H. by rewrite C1 in H. }
  assert (calls ((tr ++ [call (calls tr)]) ++ [call (S (calls tr))])
          = S (S (calls tr))) as C2.
  { rewrite calls_snoc, C1. simpl. lia. }
  destruct (response_text model (world (S (calls tr)) _)) as [raw2|e2] eqn:R2.
  2:{ intros [= <- <-]. split; [done|].
      intros e [= <-] V. apply Hno in R2. congruence. }
  destruct (_extract_json_obj raw2) as [v2|x2] eqn:X2.
  - intros [= <- <-]. split; [done|]. by intros e [=].
  - intros [= <- <-]. split; [done|]. intros e _ _. done.
Qed.

Lemma retry_call_numbered left : forall attempt_number tr r tr',
  no_refused_body world model ->
  in_order tr -> Nat.even (calls tr) = true ->
  retry_call left attempt_number body tr = (r, tr') ->
  in_order tr'.
Proof.
  induction left as [|left IH]; intros n tr r tr' Hno Hn Hev; simpl;
    destruct (body tr) as [r1 tr1] eqn:Eb;
    destruct (body_numbered tr r1 tr1 Hno Hn Hev Eb) as (Hn1 & Hve);
    destruct r1 as [v|e]; try (by intros [= <- <-]);
    destruct (is_ValueError e) eqn:V; try (by intros [= <- <-]).
  apply IH; [done|by apply numbered_sleep|].
  rewrite calls_snoc, (Hve e eq_refl V). cbn [is_generate].
  by rewrite Nat.add_0_r, Nat.even_succ_succ.
Qed.

Lemma run_risk_review_numbered r tr :
  no_refused_body world model ->
  run_risk_review world model clauses_text temperature playbook_rules
  = (r, tr) ->
  generations tr = map call (seq 0 (calls tr)).
Proof. intros Hno. by apply retry_call_numbered. Qed.

(** An attempt whose two texts fail extraction: its trace. *)
Lemma body_fails_trace tr n :
  calls tr = n -> Nat.even n = true -> fails n -> fails (S n) ->
  exists e,
    body tr = (Raise e, tr ++ [call n; call (S n)]) /\ is_ValueError e = true.
Proof.
  intros <- Hev (raw1 & e1 & R1 & X1 & V1) (raw2 & e2 & R2 & X2 & V2).
  unfold reply in R1, R2.
  unfold body, risk_review_body, _ollama_generate.
  unfold call, call_event.
  unfold risk_request in *. rewrite Hev in *.
  rewrite Nat.even_succ, <- Nat.negb_even, Hev in *. simpl negb in *.
  rewrite R1, X1, V1, calls_snoc. simpl is_generate. cbv iota.
  rewrite Nat.add_1_r, R2, X2.
  exists e2. split; [|done]. by rewrite <- app_assoc.
Qed.

Lemma run_risk_review_gives_up :
  (forall n, (n < 6)%nat -> fails n) ->
  run_risk_review world model clauses_text temperature playbook_rules
  = (Raise RetryError,
     exhausted_trace world model clauses_text temperature playbook_rules).
Proof.
  intros Hf. unfold run_risk_review, exhausted_trace. fold call.
  destruct (body_fails_trace [] 0) as (e1 & B1 & V1);
    [done|done|apply Hf; lia|apply Hf; lia|].
  simpl retry_call. fold body. rewrite B1, V1.
  change (wait_exponential 1 2 10 1) with 2.
  destruct (body_fails_trace (([] ++ [call 0%nat; call 1%nat]) ++ [Sleep 2])
              2) as (e2 & B2 & V2);
    [done|done|apply Hf; lia|apply Hf; lia|].
  rewrite B2, V2.
  change (wait_exponential 1 2 10 (1 + 1)) with 2.
  destruct (body_fails_trace
              (((([] ++ [call 0%nat; call 1%nat]) ++ [Sleep 2])
                ++ [call 2%nat; call 3%nat]) ++ [Sleep 2]) 4)
    as (e3 & B3 & V3);
    [done|done|apply Hf; lia|apply Hf; lia|].
  rewrite B3, V3. done.
Qed.

End RunFacts.

(** X11. When the texts of all six generation calls fail extraction with
    a [ValueError], [run_risk_review] gives up with [RetryError] after
    exactly three attempts of two calls each, having slept two seconds
    after the first attempt and two seconds after the second. *)
Theorem run_risk_review_exhausted {T : Type}
    (world : nat -> request T -> post_outcome) (model clauses_text : pystr)
    (temperature : T) (playbook_rules : option pystr) :
  (forall n, (n < 6)%nat ->
     extraction_fails world model clauses_text temperature playbook_rules n) ->
  run_risk_review world model clauses_text temperature playbook_rules
  = (Raise RetryError,
     exhausted_trace world model clauses_text temperature playbook_rules).
Proof. apply run_risk_review_gives_up. Qed.

Lemma run_risk_review_exhausted_witness :
  run_risk_review always_garbage (str "m") (str "c") 20 None
  = (Raise RetryError,
     exhausted_trace always_garbage (str "m") (str "c") 20 None).
Proof.
  apply (run_risk_review_exhausted always_garbage (str "m") (str "c") 20 None).
  intros n Hn.
  exists garbage_text, (ValueError (parse_error_message garbage_text)).
  destruct n as [|[|[|[|[|[|n]]]]]]; [..|lia];
    repeat split; vm_compute; reflexivity.
Defined.

(** X12. A text that [run_risk_review] returns passes extraction, and it
    is the answer to the last generation call of the run: the run never
    returns a text that [_extract_json_obj] refuses. *)
Theorem run_risk_review_returns_extractable {T : Type}
    (world : nat -> request T -> post_outcome) (model clauses_text : pystr)
    (temperature : T) (playbook_rules : option pystr)
    (raw : pystr) (tr : list (event T)) :
  run_risk_review world model clauses_text temperature playbook_rules
  = (Ok raw, tr) ->
  (exists v, _extract_json_obj raw = Ok v)
  /\ exists req resp,
       last tr = Some (Generate req resp)
       /\ response_text (req_model req) resp = Ok raw.
Proof.
  intros H.
  by apply (run_risk_review_run world model clauses_text temperature
              playbook_rules (Ok raw) tr H).
Qed.

Lemma run_risk_review_returns_extractable_witness :
  (exists v, _extract_json_obj small_object_text = Ok v)
  /\ exists req resp,
       last (snd (run_risk_review garbage_then_object (str "m") (str "c")
                    20 None))
       = Some (Generate req resp)
       /\ response_text (req_model req) resp = Ok small_object_text.
Proof.
  apply (run_risk_review_returns_extractable garbage_then_object (str "m")
           (str "c") 20 None small_object_text).
  vm_compute. reflexivity.
Defined.

(** X13. In every run of [run_risk_review], whatever the collaborator
    answers, the generation calls are numbered from zero and all send the
    same model, prompt and temperature; a call without json mode comes
    only directly after a call in json mode whose text failed extraction
    with a [ValueError]. When no response body is refused by the decoder
    with a [ValueError], call [n] is in json mode exactly when [n] is
    even. *)
Theorem run_risk_review_call_pattern {T : Type}
    (world : nat -> request T -> post_outcome) (model clauses_text : pystr)
    (temperature : T) (playbook_rules : option pystr) :
  call_pattern world model clauses_text temperature playbook_rules
    (snd (run_risk_review world model clauses_text temperature playbook_rules))
  /\ (no_refused_body world model ->
      generations
        (snd (run_risk_review world model clauses_text temperature
                playbook_rules))
      = map (call_event world model clauses_text temperature playbook_rules)
          (seq 0 (calls (snd (run_risk_review world model clauses_text
                                temperature playbook_rules))))).
Proof.
  destruct (run_risk_review world model clauses_text temperature
              playbook_rules) as [r tr] eqn:E.
  split.
  - by apply run_risk_review_run in E as [E _].
  - intros Hno. by eapply run_risk_review_numbered.
Qed.

Lemma run_risk_review_call_pattern_witness :
  generations
    (snd (run_risk_review always_garbage (str "m") (str "c") 20 None))
  = map (call_event always_garbage (str "m") (str "c") 20 None)
      (seq 0 (calls (snd (run_risk_review always_garbage (str "m") (str "c")
                            20 None)))).
Proof.
  apply (run_risk_review_call_pattern always_garbage (str "m") (str "c") 20
           None).
  intros n req e H.
  change (response_text (str "m") (Response 200 garbage_text) = Raise e) in H.
  vm_compute in H. discriminate H.
Defined.

(** ** The failures and the strategies of the extractor *)

Section ExtractorStrategies.

Lemma try_loads_raises s otherwise e :
  try_loads s otherwise = Raise e ->
  e = RecursionError \/ int_limit_error e \/ otherwise = Raise e.
Proof.
  unfold try_loads. destruct (json_loads s) as [v|e'] eqn:E; [done|].
  apply json_loads_raises in E as [->|[->|E]]; [by right; right| |].
  - intros [= <-]. by left.
  - destruct e'; try (intros [= <-]; right; by left).
    by destruct int_limit_error_not_decode.
Qed.

Lemma try_loads_ok s otherwise v :
  json_loads s = Ok v -> try_loads s otherwise = Ok v.
Proof. unfold try_loads. by intros ->. Qed.

Lemma strip_nil_solid s : strip s = [] <-> solid s = [].
Proof.
  split; [|apply solid_nil_strip]. intros E. by rewrite <- solid_strip, E.
Qed.

Lemma extract_json_raises text e :
  solid text <> [] -> _extract_json_obj text = Raise e ->
  e = RecursionError
  \/ e = ValueError (parse_error_message (strip text))
  \/ int_limit_error e.
Proof.
  intros Hs. unfold _extract_json_obj.
  assert (strip text <> []) as Hne by (by rewrite strip_nil_solid).
  assert (text <> []) as Hne' by (by intros ->).
  rewrite (proj2 (nonempty_true _) Hne), (proj2 (nonempty_true _) Hne').
  simpl negb. cbv iota.
  set (step4 := try_loads _ (Raise (ValueError _))).
  assert (step4 = Raise e ->
          e = RecursionError
          \/ e = ValueError (parse_error_message (strip text))
          \/ int_limit_error e) as H4.
  { intros [?|[?|[= <-]]]%try_loads_raises; auto. }
  set (step3 := if starts_with _ _ then _ else step4).
  assert (step3 = Raise e ->
          e = RecursionError
          \/ e = ValueError (parse_error_message (strip text))
          \/ int_limit_error e) as H3.
  { unfold step3. destruct (starts_with _ _); [|done].
    intros [?|[?|?]]%try_loads_raises; auto. }
  set (step2 := match search_braces _ with Some g => _ | None => step3 end).
  assert (step2 = Raise e ->
          e = RecursionError
          \/ e = ValueError (parse_error_message (strip text))
          \/ int_limit_error e) as H2.
  { unfold step2. destruct (search_braces _); [|done].
    intros [?|[?|?]]%try_loads_raises; auto. }
  destruct (search_fence _); [|done].
  intros [?|[?|?]]%try_loads_raises; auto.
Qed.

Lemma extract_json_of_blank text :
  solid text = [] -> _extract_json_obj text = Raise (ValueError no_json_message).
Proof.
  intros Hs%solid_nil_strip. unfold _extract_json_obj. rewrite Hs.
  by rewrite andb_false_r.
Qed.

End ExtractorStrategies.

(** X14. The failures of the extractor. On a text that holds only
    whitespace (or nothing) [_extract_json_obj] raises the [ValueError]
    "No JSON object found in model output."; on any other text a
    [ValueError] it raises is "Could not parse JSON from: ", the first
    hundred characters of the stripped text and "...", or the one of the
    conversion of an integer of more than 4300 digits, which [json.loads]
    raises and no strategy catches: the [JSONDecodeError] of a strategy
    is never let through. *)
Theorem extract_json_failure text :
  (solid text = []
   /\ _extract_json_obj text = Raise (ValueError no_json_message))
  \/ (solid text <> []
      /\ forall e, _extract_json_obj text = Raise e ->
           e = RecursionError
           \/ e = ValueError (parse_error_message (strip text))
           \/ int_limit_error e).
Proof.
  destruct (decide (solid text = [])) as [H|H].
  - left. split; [done|]. by apply extract_json_of_blank.
  - right. split; [done|]. intros e. by apply extract_json_raises.
Qed.

Section ExtractorRecovery.

Lemma has_char_dropwhile c p s :
  has_char c s = false -> has_char c (dropwhile p s) = false.
Proof. rewrite dropwhile_drop. apply has_char_drop. Qed.

Lemma has_char_strip c s : has_char c s = false -> has_char c (strip s) = false.
Proof. intros H. unfold strip. by apply has_char_rstrip, has_char_lstrip. Qed.

(** Without an opening brace neither pattern matches. *)
Lemma search_fence_no_brace s : has_char 123 s = false -> search_fence s = None.
Proof.
  induction s as [|c s IH]; intros H.
  - done.
  - assert (fence_here (c :: s) = None) as E.
    { unfold fence_here. destruct (starts_with json_fence (c :: s)); [|done].
      pose proof (has_char_dropwhile 123 is_space (drop 7 (c :: s))
                    (has_char_drop 123 7 (c :: s) H)) as Hd.
      destruct (dropwhile is_space (drop 7 (c :: s))) as [|x r]; [done|].
      cbn [has_char existsb] in Hd. apply orb_false_iff in Hd as [Hx _].
      destruct (N.eqb_spec 123 x) as [|Hne]; [done|].
      destruct x as [|p]; [done|].
      repeat (destruct p as [p|p|]; try done). }
    change (search_fence (c :: s))
      with (match fence_here (c :: s) with
            | Some g => Some g
            | None => search_fence s
            end).
    rewrite E. apply IH. cbn [has_char existsb] in H.
    by apply orb_false_iff in H as [_ ?].
Qed.

Lemma search_braces_no_brace s :
  has_char 123 s = false -> search_braces s = None.
Proof.
  intros H. unfold search_braces.
  assert (dropwhile (fun c => negb (N.eqb c 123)) s = []) as ->; [|done].
  apply dropwhile_all. induction s as [|x s IH]; [constructor|].
  cbn [has_char existsb] in H. apply orb_false_iff in H as [Hx Hs].
  constructor; [|by apply IH]. by rewrite N.eqb_sym, Hx.
Qed.

Lemma extract_json_braceless text v :
  has_char 123 text = false ->
  head (strip text) = Some 34%N ->
  json_loads (123%N :: strip text) = Ok v ->
  _extract_json_obj text = Ok v.
Proof.
  intros Hb Hq Hl. unfold _extract_json_obj.
  destruct (strip text) as [|c r] eqn:Es; [done|]. injection Hq as ->.
  assert (text <> []) as Hne by (intros ->; done).
  rewrite (proj2 (nonempty_true _) Hne). simpl negb. cbv iota.
  assert (has_char 123 (34%N :: r) = false) as Hb'
    by (rewrite <- Es; by apply has_char_strip).
  rewrite (search_fence_no_brace _ Hb'), (search_braces_no_brace _ Hb').
  assert (lstrip (34%N :: r) = 34%N :: r) as -> by done.
  change (starts_with [34%N] (34%N :: r)) with true. cbv iota.
  by apply try_loads_ok.
Qed.

(** The lazy group of the fence pattern ends at the closing brace that
    the fence follows, when no fence occurs before. *)
Lemma starts_with_app_stop p a c r :
  has_char c p = false -> a <> [] ->
  starts_with p (a ++ c :: r) = true -> starts_with p a = true.
Proof.
  revert a. induction p as [|x p IH]; intros a Hc Ha; [done|].
  destruct a as [|y a]; [done|]. simpl.
  apply orb_false_iff in Hc as [Hx Hp].
  intros [Hxy H]%andb_true_iff. rewrite Hxy. simpl.
  destruct a as [|z a].
  - destruct p as [|x' p]; [done|]. simpl in H.
    apply andb_true_iff in H as [H _]. apply N.eqb_eq in H as ->.
    simpl in Hp. by rewrite N.eqb_refl in Hp.
  - by apply IH.
Qed.

Lemma has_sub_dropwhile p f s :
  has_sub p (dropwhile f s) = true -> has_sub p s = true.
Proof.
  rewrite !has_sub_spec, dropwhile_drop. intros (a & b & E).
  exists (take (length (takewhile f s)) s ++ a), b.
  by rewrite <- app_assoc, <- E, take_drop.
Qed.

Lemma has_sub_cons p c s : has_sub p s = true -> has_sub p (c :: s) = true.
Proof. simpl. intros ->. by rewrite orb_true_r. Qed.

Lemma has_sub_starts p s : starts_with p s = true -> has_sub p s = true.
Proof. destruct s; simpl; intros ->; done. Qed.

Lemma lazy_close_exact ws rest : forall body,
  Forall (fun c => is_space c = true) ws ->
  has_sub fence (body ++ [125%N]) = false ->
  lazy_close (body ++ 125%N :: ws ++ fence ++ rest) = Some (body ++ [125%N]).
Proof.
  intros body Hws. induction body as [|c body IH]; intros Hf.
  - change ([] ++ 125%N :: ws ++ fence ++ rest)
      with (125%N :: ws ++ fence ++ rest).
    cbn [lazy_close]. rewrite N.eqb_refl.
    rewrite (dropwhile_app_keep is_space ws (fence ++ rest)) by done.
    rewrite (dropwhile_all is_space ws Hws). done.
  - change ((c :: body) ++ 125%N :: ws ++ fence ++ rest)
      with (c :: (body ++ 125%N :: ws ++ fence ++ rest)).
    cbn [lazy_close].
    assert (has_sub fence (body ++ [125%N]) = false) as Hf'.
    { destruct (has_sub fence (body ++ [125%N])) eqn:E; [|done].
      pose proof (has_sub_cons fence c _ E) as E'.
      change (c :: body ++ [125%N]) with ((c :: body) ++ [125%N]) in E'.
      congruence. }
    rewrite (IH Hf').
    assert (starts_with fence
              (dropwhile is_space (body ++ 125%N :: ws ++ fence ++ rest))
            = false) as ->.
    { rewrite (dropwhile_app_keep is_space body (125%N :: ws ++ fence ++ rest))
        by done.
      destruct (dropwhile is_space body) as [|d ds] eqn:Ed; [done|].
      destruct (starts_with fence ((d :: ds) ++ 125%N :: ws ++ fence ++ rest))
        eqn:Es; [|done].
      apply starts_with_app_stop in Es; [|done|done].
      rewrite <- Ed in Es. apply has_sub_starts, has_sub_dropwhile in Es.
      assert (has_sub fence (body ++ [125%N]) = true) as Ht.
      { apply has_sub_spec. apply has_sub_spec in Es as (a & b & ->).
        exists a, (b ++ [125%N]). by rewrite <- !app_assoc. }
      congruence. }
    by rewrite andb_false_r.
Qed.

Lemma search_fence_skip pre s :
  has_char 96 pre = false -> search_fence (pre ++ s) = search_fence s.
Proof.
  induction pre as [|c pre IH]; [done|]. intros [Hc Hp]%orb_false_iff.
  change (search_fence ((c :: pre) ++ s))
    with (match fence_here (c :: pre ++ s) with
          | Some g => Some g
          | None => search_fence (pre ++ s)
          end).
  assert (fence_here (c :: pre ++ s) = None) as ->; [|by apply IH].
  unfold fence_here.
  assert (starts_with json_fence (c :: pre ++ s) = false) as ->; [|done].
  change (N.eqb 96 c && starts_with (tail json_fence) (pre ++ s) = false).
  by rewrite Hc.
Qed.

Lemma extract_json_in_fence pre ws1 ser ws2 suf v :
  has_char 96 pre = false ->
  Forall (fun c => is_space c = true) ws1 ->
  Forall (fun c => is_space c = true) ws2 ->
  head ser = Some 123%N -> last ser = Some 125%N ->
  has_sub fence ser = false ->
  json_loads ser = Ok v ->
  _extract_json_obj (pre ++ json_fence ++ ws1 ++ ser ++ ws2 ++ fence ++ suf)
  = Ok v.
Proof.
  intros Hpre Hw1 Hw2 Hh Hl Hf Hv.
  destruct (braces_shape ser Hh Hl) as [body Hser].
  set (mid := json_fence ++ ws1 ++ ser ++ ws2 ++ fence).
  assert (pre ++ json_fence ++ ws1 ++ ser ++ ws2 ++ fence ++ suf
          = pre ++ mid ++ suf) as ->.
  { unfold mid. by rewrite <- !app_assoc. }
  assert (strip (pre ++ mid ++ suf) = lstrip pre ++ mid ++ rstrip suf) as Hs.
  { apply strip_around; [done|done|].
    unfold mid, last_solid. rewrite !app_assoc, rev_app_distr. done. }
  unfold _extract_json_obj. rewrite Hs.
  assert (nonempty (pre ++ mid ++ suf) = true) as ->.
  { apply nonempty_true. intros [_ [E _]%app_eq_nil]%app_eq_nil. done. }
  assert (nonempty (lstrip pre ++ mid ++ rstrip suf) = true) as ->.
  { apply nonempty_true. intros [_ [E _]%app_eq_nil]%app_eq_nil. done. }
  simpl negb. cbv iota.
  assert (search_fence (lstrip pre ++ mid ++ rstrip suf) = Some ser) as ->;
    [|by apply try_loads_ok].
  rewrite search_fence_skip by (by apply has_char_lstrip).
  assert (fence_here (mid ++ rstrip suf) = Some ser) as E.
  { unfold fence_here, mid. rewrite <- !app_assoc.
    assert (starts_with json_fence
              (json_fence ++ ws1 ++ ser ++ ws2 ++ fence ++ rstrip suf) = true)
      as -> by (apply starts_with_spec; by eexists).
    change (drop 7 (json_fence ++ ws1 ++ ser ++ ws2 ++ fence ++ rstrip suf))
      with (ws1 ++ ser ++ ws2 ++ fence ++ rstrip suf).
    rewrite (dropwhile_app_keep is_space ws1) by (by rewrite Hser).
    rewrite (dropwhile_all is_space ws1 Hw1), Hser.
    change ([] ++ (123%N :: body ++ [125%N]) ++ ws2 ++ fence ++ rstrip suf)
      with (123%N :: (body ++ [125%N]) ++ ws2 ++ fence ++ rstrip suf).
    cbv iota beta.
    assert ((body ++ [125%N]) ++ ws2 ++ fence ++ rstrip suf
            = body ++ 125%N :: ws2 ++ fence ++ rstrip suf) as ->
      by (by rewrite <- app_assoc).
    rewrite lazy_close_exact; [done|done|].
    rewrite Hser in Hf.
    change (has_sub fence (123%N :: body ++ [125%N]))
      with (starts_with fence (123%N :: body ++ [125%N])
            || has_sub fence (body ++ [125%N])) in Hf.
    by apply orb_false_iff in Hf as [_ ?]. }
  destruct (mid ++ rstrip suf) as [|c r] eqn:Em.
  - by unfold fence_here in E.
  - simpl. by rewrite E.
Qed.

End ExtractorRecovery.

(** X15. The recovery of a missing opening brace. On a text with no
    opening brace at all whose first character, whitespace apart, is a
    double quote, [_extract_json_obj] returns what the decoder reads from
    an opening brace followed by the stripped text, when it reads it. *)
Theorem extract_json_missing_brace text v :
  has_char 123 text = false ->
  head (strip text) = Some 34%N ->
  json_loads (123%N :: strip text) = Ok v ->
  _extract_json_obj text = Ok v.
Proof. apply extract_json_braceless. Qed.

Lemma extract_json_missing_brace_witness :
  _extract_json_obj braceless_reply = Ok small_object.
Proof.
  apply (extract_json_missing_brace braceless_reply small_object);
    vm_compute; reflexivity.
Defined.

(** X16. A fenced block wins over braces around it. When the text holds,
    after prose without a backtick, a fence labelled json, whitespace, a
    serialized object that starts with an opening brace, ends with a closing
    brace and holds no fence, whitespace and a closing fence,
    [_extract_json_obj] returns the object, whatever follows the closing
    fence and whatever braces the prose holds. *)
Theorem extract_json_fenced pre ws1 ser ws2 suf v :
  has_char 96 pre = false ->
  Forall (fun c => is_space c = true) ws1 ->
  Forall (fun c => is_space c = true) ws2 ->
  head ser = Some 123%N -> last ser = Some 125%N ->
  has_sub fence ser = false ->
  json_loads ser = Ok v ->
  _extract_json_obj (pre ++ json_fence ++ ws1 ++ ser ++ ws2 ++ fence ++ suf)
  = Ok v.
Proof. apply extract_json_in_fence. Qed.

Lemma extract_json_fenced_witness :
  _extract_json_obj fenced_reply = Ok small_object.
Proof.
  apply (extract_json_fenced (str "Sure {here}: ") nl small_object_text nl
           (str " {done}") small_object).
  - reflexivity.
  - by repeat constructor.
  - by repeat constructor.
  - reflexivity.
  - reflexivity.
  - reflexivity.
  - vm_compute. reflexivity.
Defined.

(** ** The text of a response body *)

Section ResponseBody.

Lemma parse_ndjson_stripped t r :
  strip t = t -> parse_ndjson t = Ok r -> strip r = r.
Proof.
  intros Ht. unfold parse_ndjson.
  destruct (ndjson_lines (splitlines t) []) as [out|e]; simpl; [|done].
  destruct out as [|v out]; [by intros [= <-]|].
  destruct (join_items (v :: out)) as [parts|e]; simpl; [|done].
  intros [= <-]. apply strip_strip.
Qed.

Lemma parse_body_stripped t r :
  _parse_ollama_response_body t = Ok r ->
  strip r = r /\ (solid t = [] -> r = []).
Proof.
  unfold _parse_ollama_response_body.
  destruct (nonempty (strip t)) eqn:Hne.
  2:{ intros [= <-]. done. }
  apply nonempty_true in Hne. intros H. split.
  - destruct (json_loads (strip t)) as [data|e].
    + destruct (response_field data) as [v|].
      * destruct (or_empty v); try done. injection H as <-. apply strip_strip.
      * eapply parse_ndjson_stripped; [apply strip_strip|exact H].
    + destruct e; try done.
      eapply parse_ndjson_stripped; [apply strip_strip|exact H].
  - intros Hs%solid_nil_strip. done.
Qed.

End ResponseBody.

(** X17. [_parse_ollama_response_body] either returns a text without
    whitespace at its ends, which is empty when the body holds only
    whitespace, or raises. The only [ValueError] it raises is the one of
    the conversion of an integer of more than 4300 digits, which goes
    through its handlers of [JSONDecodeError] and [TypeError]; a
    [JSONDecodeError] never leaves it. *)
Theorem parse_body_outcome body :
  (exists r,
     _parse_ollama_response_body body = Ok r
     /\ strip r = r /\ (solid body = [] -> r = []))
  \/ (exists e,
        _parse_ollama_response_body body = Raise e
        /\ (is_ValueError e = false \/ int_limit_error e)).
Proof.
  destruct (_parse_ollama_response_body body) as [r|e] eqn:E.
  - left. exists r. split; [done|]. by apply parse_body_stripped.
  - right. exists e. split; [done|]. by apply parse_body_raises in E.
Qed.

(** ** From the text of an upload to the evidence *)

Section AnalysisFacts.

Context {score : Type}.
Variable fzero : score.
Variables fadd fmul : score -> score -> score.
Variable fneg : score -> score.
Variable flt : score -> score -> bool.
Variable embed_texts : list pystr -> list (list score).

Lemma solid_blank_line : solid blank_line = [].
Proof. reflexivity. Qed.

Lemma solid_join_blank ls : solid (join blank_line ls) = solid (concat ls).
Proof.
  induction ls as [|l ls IH]; [done|]. destruct ls as [|l2 ls].
  - simpl. by rewrite app_nil_r.
  - rewrite join_cons by done. simpl concat.
    rewrite !solid_app, solid_blank_line, IH. simpl concat.
    by rewrite !solid_app.
Qed.

Lemma sublist_concat {A} (l1 l2 : list (list A)) :
  sublist l1 l2 -> sublist (concat l1) (concat l2).
Proof.
  induction 1 as [|x l1 l2 _ IH|x l1 l2 _ IH]; simpl.
  - done.
  - by apply sublist_app.
  - by apply sublist_inserts_l.
Qed.

Lemma sublist_solid a b : sublist a b -> sublist (solid a) (solid b).
Proof.
  induction 1 as [|x l1 l2 _ IH|x l1 l2 _ IH]; simpl.
  - done.
  - destruct (negb (is_space x)); [by apply sublist_skip|done].
  - destruct (negb (is_space x)); [by apply sublist_cons|done].
Qed.

Lemma picked_shift {A} (x : A) l k idxs picked :
  Forall (fun j => (k < j)%nat) idxs ->
  Forall2 (fun j c => (x :: l) !! (j - k)%nat = Some c) idxs picked ->
  Forall2 (fun j c => l !! (j - S k)%nat = Some c) idxs picked.
Proof.
  intros Hk H2. induction H2 as [|j c idxs picked Hj _ IH]; [constructor|].
  apply Forall_cons in Hk as [Hkj Hk]. constructor; [|by apply IH].
  replace (j - k)%nat with (S (j - S k)) in Hj by lia. exact Hj.
Qed.

(** Items picked at strictly ascending indices form a sublist. *)
Lemma picked_sublist_from {A} (l : list A) : forall k idxs picked,
  Forall (fun j => (k <= j)%nat) idxs ->
  StronglySorted lt idxs ->
  Forall2 (fun j c => l !! (j - k)%nat = Some c) idxs picked ->
  sublist picked l.
Proof.
  induction l as [|x l IH]; intros k idxs picked Hk Hs H2.
  - destruct H2 as [|j c idxs picked Hj _]; [done|].
    by destruct (j - k)%nat.
  - destruct H2 as [|j c idxs picked Hj H2]; [apply sublist_nil_l|].
    apply StronglySorted_inv in Hs as [Hs Hlt].
    apply Forall_cons in Hk as [Hkj Hk].
    destruct (decide (j = k)) as [->|Hne].
    + rewrite Nat.sub_diag in Hj. injection Hj as <-. apply sublist_skip.
      apply (IH (S k) idxs picked).
      * eapply Forall_impl; [exact Hlt|]. intros i Hi. simpl in Hi. lia.
      * done.
      * apply (picked_shift x l k); [|done].
        eapply Forall_impl; [exact Hlt|]. intros i Hi. simpl in Hi. lia.
    + apply sublist_cons. apply (IH (S k) (j :: idxs) (c :: picked)).
      * constructor; [lia|]. eapply Forall_impl; [exact Hlt|].
        intros i Hi. simpl in Hi. lia.
      * by constructor.
      * apply (picked_shift x l k); [|by constructor].
        constructor; [lia|]. eapply Forall_impl; [exact Hlt|].
        intros i Hi. simpl in Hi. lia.
Qed.

Lemma picked_sublist {A} (l : list A) idxs picked :
  StronglySorted lt idxs ->
  Forall2 (fun j c => l !! j = Some c) idxs picked ->
  sublist picked l.
Proof.
  intros Hs H2. apply (picked_sublist_from l 0 idxs picked); [|done|].
  - apply Forall_forall. intros; lia.
  - eapply Forall2_impl; [exact H2|]. intros j c. by rewrite Nat.sub_0_r.
Qed.

Lemma bundle_solid chunks idxs out :
  bundle_of chunks idxs out ->
  sublist (solid out) (solid (concat (texts chunks))).
Proof.
  intros (Hs & picked & H2 & ->). rewrite solid_join_blank.
  apply sublist_solid, sublist_concat. unfold texts.
  apply (fmap_sublist text). by eapply picked_sublist.
Qed.

Lemma cap_evidence_short max_chars out :
  len out <= max_chars -> cap_evidence max_chars out = out.
Proof.
  intros H. unfold cap_evidence.
  by destruct (Z.gtb_spec (len out) max_chars); [lia|].
Qed.

Lemma cap_evidence_long max_chars out :
  0 <= max_chars -> max_chars < len out ->
  len (cap_evidence max_chars out) = max_chars + 47.
Proof.
  intros H0 H. rewrite cap_evidence_len by done.
  by destruct (Z.gtb_spec (len out) max_chars); [|lia].
Qed.

Lemma evidence_of_text_facts doc top_k :
  (forall ts, length (embed_texts ts) = length ts) ->
  exists segs out,
    evidence_of_text fzero fadd fmul fneg flt embed_texts doc top_k
    = Some (segs, Ok out)
    /\ len out <= 14047
    /\ (len out <= 14000 -> sublist (solid out) (solid doc))
    /\ (Z.of_nat (length segs) <= top_k ->
        len (join blank_line (texts segs)) <= 14000 ->
        solid out = solid doc).
Proof.
  intros Hemb. unfold evidence_of_text.
  destruct (chunk_text_ok doc DEFAULT_MAX_CHARS) as (segs & -> & _ & Hsolid);
    [done|].
  assert (Forall (fun q => embed_texts [q] <> []) RISK_QUERIES) as Hq.
  { apply Forall_forall. intros q _ E.
    pose proof (Hemb [q]) as H. by rewrite E in H. }
  assert (length (embed_texts (map text segs)) = length segs) as Hlen
    by (by rewrite Hemb, length_map).
  destruct (decide (segs = [])) as [->|Hne].
  { exists [], []. split; [done|]. change (len []) with 0.
    split; [lia|]. split; [intros _; apply sublist_nil_l|].
    intros _ _. by rewrite <- Hsolid. }
  destruct (retrieve_evidence_ok fzero fadd fmul fneg flt embed_texts
              segs top_k EVIDENCE_MAX_CHARS Hne Hlen Hq)
    as (s & out & Hs & Hb & Hr).
  exists segs, (cap_evidence EVIDENCE_MAX_CHARS out).
  rewrite Hr. split; [done|].
  pose proof (bundle_solid segs (sorted_set s) out Hb) as Hsub.
  rewrite Hsolid in Hsub.
  change EVIDENCE_MAX_CHARS with 14000 in *.
  destruct (Z.le_gt_cases (len out) 14000) as [Hle|Hgt].
  - rewrite cap_evidence_short by done.
    split; [lia|]. split; [done|]. intros Hk Hfit.
    pose proof (retrieve_evidence_everything fzero fadd fmul fneg flt
                  embed_texts segs top_k 14000 Hlen Hq Hk)
      as Hall.
    rewrite Hr, decide_False in Hall by done. injection Hall as Hall.
    rewrite cap_evidence_short in Hall by done.
    rewrite (cap_evidence_short _ (join _ _)) in Hall by done.
    rewrite Hall. fold (texts segs). by rewrite solid_join_blank.
  - rewrite cap_evidence_long by done.
    split; [lia|]. split; [lia|]. intros Hk Hfit.
    pose proof (retrieve_evidence_everything fzero fadd fmul fneg flt
                  embed_texts segs top_k 14000 Hlen Hq Hk)
      as Hall.
    rewrite Hr, decide_False in Hall by done. injection Hall as Hall.
    rewrite (cap_evidence_short _ (join _ _)) in Hall by done.
    fold (texts segs) in Hall.
    rewrite Hall, <- Hsolid. by rewrite solid_join_blank.
Qed.

End AnalysisFacts.

(** X18. From the text of an upload to the evidence. With an embedding
    collaborator that gives one vector per text, segmenting a text with
    the default bound and selecting the evidence always succeeds; the
    evidence has at most 14047 characters; an evidence of at most 14000
    characters (one that was not cut) holds, whitespace apart, only
    characters of the text, in the order of the text; and when the number
    of results is at least the number of segments and the joined segments
    fit, the evidence holds all the characters of the text that are not
    whitespace. *)
Theorem evidence_of_text_keeps_order
    {score : Type} (fzero : score) (fadd fmul : score -> score -> score)
    (fneg : score -> score) (flt : score -> score -> bool)
    (embed_texts : list pystr -> list (list score))
    (text : pystr) (top_k : Z) :
  (forall ts, length (embed_texts ts) = length ts) ->
  exists segs out,
    evidence_of_text fzero fadd fmul fneg flt embed_texts text top_k
    = Some (segs, Ok out)
    /\ len out <= 14047
    /\ (len out <= 14000 -> sublist (solid out) (solid text))
    /\ (Z.of_nat (length segs) <= top_k ->
        len (join blank_line (texts segs)) <= 14000 ->
        solid out = solid text).
Proof. apply evidence_of_text_facts. Qed.

Lemma evidence_of_text_keeps_order_witness :
  exists segs out,
    evidence_of_text 0 Z.add Z.mul Z.opp Z.ltb length_embedder scenario_doc 5
    = Some (segs, Ok out)
    /\ len out <= 14047
    /\ (len out <= 14000 -> sublist (solid out) (solid scenario_doc))
    /\ (Z.of_nat (length segs) <= 5 ->
        len (join blank_line (texts segs)) <= 14000 ->
        solid out = solid scenario_doc).
Proof.
  apply (evidence_of_text_keeps_order 0 Z.add Z.mul Z.opp Z.ltb
           length_embedder scenario_doc 5).
  intros ts. apply length_map.
Defined.

(** ** The text of a document *)

Section Ingest.

Lemma page_parts_solid pages : forall text_parts,
  solid (concat (page_parts pages text_parts))
  = solid (concat text_parts) ++ solid (concat (map (default []) pages)).
Proof.
  induction pages as [|page pages IH]; intros parts; simpl.
  { by rewrite app_nil_r. }
  assert (match page with Some t => t | None => [] end = default [] page)
    as -> by (by destruct page).
  destruct (nonempty (strip (default [] page))) eqn:E.
  - rewrite IH, solid_concat_snoc, solid_app. by rewrite <- app_assoc.
  - apply nonempty_false, strip_nil_solid in E.
    by rewrite IH, solid_app, E.
Qed.

Lemma extract_text_from_pdf_facts pages :
  strip (extract_text_from_pdf pages) = extract_text_from_pdf pages
  /\ solid (extract_text_from_pdf pages)
     = solid (concat (map (default []) pages)).
Proof.
  unfold extract_text_from_pdf. split; [apply strip_strip|].
  by rewrite solid_strip, solid_join_blank, page_parts_solid.
Qed.

Lemma run_ocr_stripped conv t : _run_ocr conv = Ok t -> strip t = t.
Proof.
  unfold _run_ocr. destruct conv as [images|e]; simpl; [|done].
  destruct (ocr_parts images []) as [parts|e]; simpl; [|done].
  intros [= <-]. apply strip_strip.
Qed.

Lemma extract_with_ocr_facts pages conv :
  let text := extract_text_from_pdf pages in
  let r := extract_text_from_pdf_with_ocr pages conv in
  strip (fst r) = fst r
  /\ (snd r = true ->
      fst r <> [] /\ _run_ocr conv = Ok (fst r) /\ len text < 50)
  /\ (snd r = false -> fst r = text)
  /\ (50 <= len text -> r = (text, false)).
Proof.
  intros text r. unfold r, extract_text_from_pdf_with_ocr. fold text.
  destruct (extract_text_from_pdf_facts pages) as [Hs _]. fold text in Hs.
  rewrite Hs. unfold _MIN_TEXT_LEN.
  destruct (nonempty text && (len text >=? 50)) eqn:E.
  - simpl. split; [done|]. split; [done|]. done.
  - assert (len text < 50) as Hlt.
    { apply andb_false_iff in E as [E|E].
      - apply nonempty_false in E. rewrite E. done.
      - rewrite Z.geb_leb in E. apply Z.leb_gt in E. lia. }
    destruct (_run_ocr conv) as [ocr_text|e] eqn:Eo.
    + destruct (nonempty ocr_text) eqn:En; simpl.
      * split; [by eapply run_ocr_stripped|]. split; [|split; [done|lia]].
        intros _. split; [by apply nonempty_true|done].
      * split; [done|]. split; [done|]. split; [done|lia].
    + simpl. split; [done|]. split; [done|]. split; [done|lia].
Qed.

End Ingest.

(** X19. [extract_text_from_pdf] returns a text without whitespace at
    its ends that holds, whitespace apart, exactly the characters of the
    texts of the pages, in the order of the pages: the pages without text
    and the pages of whitespace are left out and nothing else is. *)
Theorem extract_text_from_pdf_keeps_characters pages :
  strip (extract_text_from_pdf pages) = extract_text_from_pdf pages
  /\ solid (extract_text_from_pdf pages)
     = solid (concat (map (default []) pages)).
Proof. apply extract_text_from_pdf_facts. Qed.

(** X20. [extract_text_from_pdf_with_ocr] never raises for a failure of
    the OCR, and the text it returns has no whitespace at its ends. It
    reports the OCR as used only when the text layer has fewer than 50
    characters and the OCR gave the returned text, which is then not
    empty; otherwise it returns the text layer. With a text layer of 50
    characters or more the outcome of the OCR is of no account. *)
Theorem extract_text_with_ocr_outcome pages convert_from_path :
  let text := extract_text_from_pdf pages in
  let r := extract_text_from_pdf_with_ocr pages convert_from_path in
  strip (fst r) = fst r
  /\ (snd r = true ->
      fst r <> [] /\ _run_ocr convert_from_path = Ok (fst r)
      /\ len text < 50)
  /\ (snd r = false -> fst r = text)
  /\ (50 <= len text -> r = (text, false)).
Proof. apply extract_with_ocr_facts. Qed.

(** ** The identifiers of the chunks of a contract *)

Section ChunkIds.

Lemma str_inj s1 s2 : str s1 = str s2 -> s1 = s2.
Proof.
  unfold str. intros H.
  rewrite <- (string_of_list_ascii_of_string s1),
    <- (string_of_list_ascii_of_string s2).
  f_equal. revert H.
  generalize (list_ascii_of_string s1) (list_ascii_of_string s2).
  induction l as [|a l IH]; intros [|b l']; simpl; try done.
  intros [= Hab Hl]. f_equal; [|by apply IH].
  by rewrite <- (ascii_N_embedding a), <- (ascii_N_embedding b), Hab.
Qed.

Lemma string_of_uint_inj d1 : forall d2,
  NilEmpty.string_of_uint d1 = NilEmpty.string_of_uint d2 -> d1 = d2.
Proof.
  induction d1 as [|d1 IH|d1 IH|d1 IH|d1 IH|d1 IH|d1 IH|d1 IH|d1 IH|d1 IH
                  |d1 IH];
    intros [|d2|d2|d2|d2|d2|d2|d2|d2|d2|d2]; simpl; try done;
    intros [= H]; f_equal; by apply IH.
Qed.

Lemma string_of_uint_digits d :
  Forall (fun c => c <> 95%N) (str (NilEmpty.string_of_uint d)).
Proof.
  induction d; simpl; try constructor; try done;
    unfold str in *; simpl; constructor; done.
Qed.

Lemma decimal_of_nat i :
  exists d, d <> Decimal.Nil
            /\ Z.to_int (Z.of_nat i) = Decimal.Pos d
            /\ decimal (Z.of_nat i) = str (NilEmpty.string_of_uint d).
Proof.
  unfold decimal. destruct (Z.of_nat i) as [|p|p] eqn:E; [| |lia].
  - exists (Decimal.D0 Decimal.Nil). done.
  - exists (Pos.to_uint p). pose proof (Unsigned.to_uint_nonnil p) as Hn.
    split; [done|]. split; [done|]. simpl.
    by destruct (Pos.to_uint p).
Qed.

Lemma decimal_inj i j :
  decimal (Z.of_nat i) = decimal (Z.of_nat j) -> i = j.
Proof.
  destruct (decimal_of_nat i) as (d1 & _ & T1 & ->).
  destruct (decimal_of_nat j) as (d2 & _ & T2 & ->).
  intros H%str_inj%string_of_uint_inj. subst d2.
  rewrite <- T2 in T1. apply to_int_inj in T1. lia.
Qed.

Lemma decimal_no_underscore i :
  Forall (fun c => c <> 95%N) (decimal (Z.of_nat i)).
Proof.
  destruct (decimal_of_nat i) as (d & _ & _ & ->).
  apply string_of_uint_digits.
Qed.

(** Two texts cut at a character that occurs in neither head, or in
    neither tail. *)
Lemma split_at_first {A} (x : A) (a : list A) : forall b a' b',
  Forall (fun c => c <> x) a -> Forall (fun c => c <> x) a' ->
  a ++ x :: b = a' ++ x :: b' -> a = a' /\ b = b'.
Proof.
  induction a as [|c a IH]; intros b [|c' a'] b' Ha Ha' E; simpl in E.
  - by injection E as ->.
  - injection E as <- _. by apply Forall_cons in Ha' as [? _].
  - injection E as -> _. by apply Forall_cons in Ha as [? _].
  - injection E as <- E. apply Forall_cons in Ha as [_ Ha].
    apply Forall_cons in Ha' as [_ Ha'].
    by destruct (IH b a' b' Ha Ha' E) as [-> ->].
Qed.

Lemma split_at_last {A} (x : A) (a b a' b' : list A) :
  Forall (fun c => c <> x) b -> Forall (fun c => c <> x) b' ->
  a ++ x :: b = a' ++ x :: b' -> a = a' /\ b = b'.
Proof.
  intros Hb Hb' E.
  assert (rev b ++ x :: rev a = rev b' ++ x :: rev a') as R.
  { apply (f_equal (@rev A)) in E. rewrite !rev_app_distr in E. simpl in E.
    by rewrite <- !app_assoc in E. }
  apply split_at_first in R as [Rb Ra]; [|by apply Forall_rev..].
  apply (f_equal (@rev A)) in Ra, Rb. rewrite !rev_involutive in Ra, Rb. done.
Qed.

Lemma chunk_id_inj c1 i c2 j :
  chunk_id c1 i = chunk_id c2 j -> c1 = c2 /\ i = j.
Proof.
  unfold chunk_id. change (str "_") with [95%N]. simpl app. intros E.
  apply split_at_last in E as [-> E]; [|apply decimal_no_underscore..].
  split; [done|]. by apply decimal_inj.
Qed.

Lemma upsert_ids_facts contract_id chunks :
  length (upsert_ids contract_id chunks) = length chunks
  /\ NoDup (upsert_ids contract_id chunks)
  /\ forall contract_id' chunks' x,
       x ∈ upsert_ids contract_id chunks ->
       x ∈ upsert_ids contract_id' chunks' ->
       contract_id = contract_id'.
Proof.
  unfold upsert_ids. split; [by rewrite length_map, length_seq|]. split.
  - apply NoDup_fmap_2; [|apply NoDup_seq].
    intros i j E. by apply chunk_id_inj in E as [_ ?].
  - intros c' chunks' x (i & -> & _)%list_elem_of_fmap
      (j & E & _)%list_elem_of_fmap.
    by apply chunk_id_inj in E as [? _].
Qed.

End ChunkIds.

(** X21. The identifiers [upsert_chunks] gives to the chunks of a
    contract, the contract identifier, an underscore and the index in
    decimal, are as many as the chunks and pairwise distinct, and no
    identifier belongs to two contracts with different identifiers: the
    index of one contract never overwrites a chunk of another. *)
Theorem upsert_ids_distinct contract_id chunks :
  length (upsert_ids contract_id chunks) = length chunks
  /\ NoDup (upsert_ids contract_id chunks)
  /\ forall contract_id' chunks' x,
       x ∈ upsert_ids contract_id chunks ->
       x ∈ upsert_ids contract_id' chunks' ->
       contract_id = contract_id'.
Proof. apply upsert_ids_facts. Qed.

(** ** The playbooks *)

Section Playbooks.

Lemma get_playbook_instructions_cases name :
  (name = str "Standard SMB"
   /\ get_playbook_instructions name = instructions standard_smb)
  \/ (name = str "Strict / Enterprise"
      /\ get_playbook_instructions name = instructions strict_enterprise)
  \/ (name = str "Light / Consultant"
      /\ get_playbook_instructions name = instructions light_consultant)
  \/ ((name ∉ get_playbook_names)
      /\ get_playbook_instructions name = instructions standard_smb).
Proof.
  unfold get_playbook_instructions, PLAYBOOKS. cbn [items_get].
  destruct (decide (str "Standard SMB" = name)) as [<-|H1]; [by left|].
  destruct (decide (str "Strict / Enterprise" = name)) as [<-|H2];
    [right; by left|].
  destruct (decide (str "Light / Consultant" = name)) as [<-|H3];
    [right; right; by left|].
  right; right; right. split; [|done].
  unfold get_playbook_names, PLAYBOOKS. cbn [map fst].
  intros H. repeat (apply elem_of_cons in H as [H|H]; [by subst|]).
  by apply elem_of_nil in H.
Qed.

Lemma playbook_instructions_used name clauses_text :
  risk_prompt clauses_text (Some (get_playbook_instructions name))
  = RISK_PROMPT (get_playbook_instructions name) clauses_text.
Proof.
  unfold risk_prompt, str_or.
  assert (nonempty (get_playbook_instructions name) = true) as ->; [|done].
  destruct (get_playbook_instructions_cases name)
    as [[_ ->]|[[_ ->]|[[_ ->]|[_ ->]]]]; reflexivity.
Qed.

End Playbooks.

(** X22. [get_playbook_instructions] gives the instructions of the
    playbook of that name, and those of the playbook "Standard SMB" for
    every name that is not one of the three of [get_playbook_names]; the
    instructions are never empty, so that a risk review that is given
    them never falls back on its own default instructions. *)
Theorem get_playbook_instructions_fallback name clauses_text :
  (forall p, (name, p) ∈ PLAYBOOKS ->
     get_playbook_instructions name = instructions p)
  /\ ((name ∉ get_playbook_names) ->
      get_playbook_instructions name = instructions standard_smb)
  /\ risk_prompt clauses_text (Some (get_playbook_instructions name))
     = RISK_PROMPT (get_playbook_instructions name) clauses_text.
Proof.
  split; [|split].
  - intros p Hp. unfold PLAYBOOKS in Hp.
    repeat (apply elem_of_cons in Hp as [Hp|Hp];
            [injection Hp as -> ->; vm_compute; reflexivity|]).
    by apply elem_of_nil in Hp.
  - intros Hn.
    destruct (get_playbook_instructions_cases name)
      as [[-> _]|[[-> _]|[[-> _]|[_ ->]]]]; try done;
      exfalso; apply Hn; unfold get_playbook_names, PLAYBOOKS; cbn [map fst];
      rewrite !elem_of_cons; auto.
  - apply playbook_instructions_used.
Qed.

(** ** The runs that return free text *)

Section FreeTextFacts.

Context {T : Type}.
Variable world : nat -> request T -> post_outcome.

Lemma response_text_stripped model resp :
  stripped_or_fault (response_text model resp).
Proof.
  destruct (response_text model resp) as [t|e] eqn:E; simpl.
  - unfold response_text in E. destruct (fault_error model resp); [done|].
    destruct resp as [| |st body]; try (by injection E as <-).
    by apply parse_body_stripped in E as [? _].
  - apply response_text_raises in E as [[_ ?]|[_ ?]]; auto.
Qed.

Lemma ollama_generate_stripped prompt model (temperature : T) json_mode tr :
  stripped_or_fault
    (fst (_ollama_generate world prompt model temperature json_mode tr)).
Proof. apply response_text_stripped. Qed.

End FreeTextFacts.

(** X23. [run_summary], [run_negotiation] and [run_chat] each make
    exactly one generation call, not in json mode, with their prompt built
    around the given texts, and give what that call gives, with no check of
    the text and no retry: a text without whitespace at its ends, whatever
    it holds, or an exception, which is a [ValueError] only when the body
    holds an integer of more than 4300 digits. *)
Theorem free_text_runs_single_call {T : Type}
    (world : nat -> request T -> post_outcome)
    (model clauses_text risks_json context history question : pystr)
    (temperature : T) (tr : list (event T)) :
  (single_call world model (SUMMARY_PROMPT clauses_text) temperature tr
     (run_summary world model clauses_text temperature tr)
   /\ stripped_or_fault
        (fst (run_summary world model clauses_text temperature tr)))
  /\ (single_call world model (NEGOTIATION_PROMPT risks_json) temperature tr
        (run_negotiation world model risks_json temperature tr)
      /\ stripped_or_fault
           (fst (run_negotiation world model risks_json temperature tr)))
  /\ (single_call world model (CHAT_PROMPT context history question)
        temperature tr
        (run_chat world model context history question temperature tr)
      /\ stripped_or_fault
           (fst (run_chat world model context history question temperature
                   tr))).
Proof.
  repeat split; apply ollama_generate_stripped.
Qed.

(** ** The stored contracts and outputs *)

Section Storage.

Lemma text_le_refl a : text_le a a = true.
Proof.
  induction a as [|x a IH]; simpl; [done|].
  by rewrite N.eqb_refl, IH, orb_true_r.
Qed.

Lemma text_le_cons x a y b :
  text_le (x :: a) (y :: b) = true
  <-> (x < y)%N \/ (x = y /\ text_le a b = true).
Proof.
  simpl. rewrite orb_true_iff, andb_true_iff, N.ltb_lt, N.eqb_eq. done.
Qed.

Lemma text_order_trans : Transitive text_order.
Proof.
  unfold text_order. intros a. induction a as [|x a IH]; intros b c; [done|].
  destruct b as [|y b]; [done|]. destruct c as [|z c]; [done|].
  rewrite !text_le_cons. intros [H1|[-> H1]] [H2|[-> H2]].
  - left. lia.
  - by left.
  - by left.
  - right. split; [done|]. by eapply IH.
Qed.

Lemma text_order_total : Total text_order.
Proof.
  unfold text_order. intros a. induction a as [|x a IH]; intros b; [by left|].
  destruct b as [|y b]; [by right|]. rewrite !text_le_cons.
  destruct (N.lt_trichotomy x y) as [H|[->|H]]; [by left; left| |by right; left].
  destruct (IH b); [left|right]; by right.
Qed.

Lemma text_order_antisym : AntiSymm eq text_order.
Proof.
  unfold text_order. intros a. induction a as [|x a IH]; intros b.
  - by destruct b.
  - destruct b as [|y b]; [done|]. rewrite !text_le_cons.
    intros [H1|[-> H1]] [H2|[E H2]]; try lia. f_equal. by apply IH.
Qed.

Lemma list_vendors_spec db table :
  contracts db = Some table ->
  exists vs,
    list_vendors db = Fetched vs
    /\ StronglySorted text_order vs /\ NoDup vs
    /\ forall v, v ∈ vs <->
         v <> [] /\ exists cid row,
                      table !! cid = Some row /\ vendor_name row = v.
Proof.
  intros E. unfold list_vendors. rewrite E. eexists. split; [done|].
  split; [|split].
  - apply StronglySorted_merge_sort;
      [apply text_order_trans|apply text_order_total].
  - rewrite merge_sort_Permutation. apply NoDup_remove_dups.
  - intros v. rewrite merge_sort_Permutation, elem_of_remove_dups.
    rewrite list_elem_of_In, filter_In, <- list_elem_of_In.
    rewrite <- (nonempty_true v).
    change (map (fun kv => vendor_name (snd kv)) (map_to_list table))
      with ((fun kv : pystr * contract_row => vendor_name (snd kv))
              <$> map_to_list table).
    rewrite list_elem_of_fmap. split.
    + intros [([cid row] & -> & Hin) Hv]. apply elem_of_map_to_list in Hin.
      split; [done|]. by exists cid, row.
    + intros [Hv (cid & row & Hin & <-)]. split; [|done].
      exists (cid, row). split; [done|]. by apply elem_of_map_to_list.
Qed.

Lemma init_db_fixed db : init_db (init_db db) = init_db db.
Proof. done. Qed.

Lemma save_outputs_facts now cid r s e db :
  (encodable cid && encodable r && encodable s && encodable e = true ->
   exists db',
     save_outputs now cid r s e (init_db db) = Fetched db'
     /\ load_outputs cid db' = Fetched (Some (r, s, e))
     /\ (forall cid', cid' <> cid ->
           load_outputs cid' db' = load_outputs cid' (init_db db))
     /\ list_vendors db' = list_vendors (init_db db)
     /\ init_db db' = db')
  /\ (encodable cid && encodable r && encodable s && encodable e = false ->
      save_outputs now cid r s e (init_db db) = UnicodeEncodeError).
Proof.
  unfold save_outputs, init_db. cbn [outputs contracts]. split.
  - intros E. rewrite E. eexists. split; [done|].
    apply andb_true_iff in E as [E _]. apply andb_true_iff in E as [E _].
    apply andb_true_iff in E as [E _].
    unfold load_outputs, list_vendors. cbn [outputs contracts].
    rewrite E, lookup_insert_eq. split; [done|]. split; [|done].
    intros cid' Hne. by rewrite lookup_insert_ne.
  - by intros ->.
Qed.

Lemma save_contract_overwrites now1 now2 cid v1 f1 v2 f2 db table :
  contracts db = Some table ->
  exists db1 db2,
    save_contract now1 cid v1 f1 db = Fetched db1
    /\ save_contract now2 cid v2 f2 db1 = Fetched db2
    /\ save_contract now2 cid v2 f2 db = Fetched db2
    /\ outputs db2 = outputs db.
Proof.
  intros E. unfold save_contract. rewrite E. eexists _, _.
  split; [done|]. cbn [contracts outputs]. split; [done|].
  by rewrite insert_insert_eq.
Qed.

End Storage.

(** X24. Once [init_db] has run, [save_outputs] with texts that UTF-8
    can encode succeeds, and [load_outputs] of the same contract gives
    back the three texts saved; the outputs of every other contract and
    the vendors listed are as before; and running [init_db] again changes
    nothing. With a text that holds a lone surrogate, [save_outputs]
    fails with [UnicodeEncodeError] and stores nothing. *)
Theorem save_outputs_round_trip
    (now contract_id risk_json summary negotiation_email : pystr)
    (db : database) :
  (encodable contract_id && encodable risk_json && encodable summary
   && encodable negotiation_email = true ->
   exists db',
     save_outputs now contract_id risk_json summary negotiation_email
       (init_db db) = Fetched db'
     /\ load_outputs contract_id db'
        = Fetched (Some (risk_json, summary, negotiation_email))
     /\ (forall contract_id', contract_id' <> contract_id ->
           load_outputs contract_id' db'
           = load_outputs contract_id' (init_db db))
     /\ list_vendors db' = list_vendors (init_db db)
     /\ init_db db' = db')
  /\ (encodable contract_id && encodable risk_json && encodable summary
      && encodable negotiation_email = false ->
      save_outputs now contract_id risk_json summary negotiation_email
        (init_db db) = UnicodeEncodeError).
Proof. apply save_outputs_facts. Qed.

Lemma save_outputs_round_trip_witness :
  (exists db',
     save_outputs (str "t") (str "c") (str "{}") (str "s") [] (init_db no_tables)
     = Fetched db'
     /\ load_outputs (str "c") db' = Fetched (Some (str "{}", str "s", []))
     /\ (forall contract_id', contract_id' <> str "c" ->
           load_outputs contract_id' db'
           = load_outputs contract_id' (init_db no_tables))
     /\ list_vendors db' = list_vendors (init_db no_tables)
     /\ init_db db' = db')
  /\ save_outputs (str "t") (str "c") surrogate_text (str "s") []
       (init_db no_tables) = UnicodeEncodeError.
Proof.
  split.
  - apply (save_outputs_round_trip (str "t") (str "c") (str "{}") (str "s")
             [] no_tables). reflexivity.
  - apply (save_outputs_round_trip (str "t") (str "c") surrogate_text
             (str "s") [] no_tables). reflexivity.
Defined.

(** X25. On a database with its table of contracts, [list_vendors] gives
    the vendor names in ascending order of their code points, each once;
    a name is listed exactly when it is not empty and is the vendor of a
    stored contract. *)
Theorem list_vendors_sorted_distinct db table :
  contracts db = Some table ->
  exists vs,
    list_vendors db = Fetched vs
    /\ StronglySorted text_order vs /\ NoDup vs
    /\ forall v, v ∈ vs <->
         v <> [] /\ exists cid row,
                      table !! cid = Some row /\ vendor_name row = v.
Proof. apply list_vendors_spec. Qed.

Lemma list_vendors_sorted_distinct_witness :
  exists vs,
    list_vendors (Database (Some one_contract) None) = Fetched vs
    /\ StronglySorted text_order vs /\ NoDup vs
    /\ forall v, v ∈ vs <->
         v <> [] /\ exists cid row,
                      one_contract !! cid = Some row /\ vendor_name row = v.
Proof.
  apply (list_vendors_sorted_distinct
           (Database (Some one_contract) None) one_contract).
  reflexivity.
Defined.

(** X26. Saving a contract again under the same identifier replaces its
    row: after two calls of [save_contract] the database is the one the
    second call alone gives, so the earlier vendor and file name are gone;
    the table of outputs is untouched. *)
Theorem save_contract_last_wins
    (now1 now2 contract_id vendor1 filename1 vendor2 filename2 : pystr)
    (db : database) (table : gmap pystr contract_row) :
  contracts db = Some table ->
  exists db1 db2,
    save_contract now1 contract_id vendor1 filename1 db = Fetched db1
    /\ save_contract now2 contract_id vendor2 filename2 db1 = Fetched db2
    /\ save_contract now2 contract_id vendor2 filename2 db = Fetched db2
    /\ outputs db2 = outputs db.
Proof. apply save_contract_overwrites. Qed.

Lemma save_contract_last_wins_witness :
  exists db1 db2,
    save_contract (str "t1") (str "c") (str "Acme") (str "c.pdf")
      (init_db no_tables) = Fetched db1
    /\ save_contract (str "t2") (str "c") (str "Apex") (str "c.pdf") db1
       = Fetched db2
    /\ save_contract (str "t2") (str "c") (str "Apex") (str "c.pdf")
         (init_db no_tables) = Fetched db2
    /\ outputs db2 = outputs (init_db no_tables).
Proof.
  apply (save_contract_last_wins (str "t1") (str "t2") (str "c") (str "Acme")
           (str "c.pdf") (str "Apex") (str "c.pdf") (init_db no_tables) ∅).
  reflexivity.
Defined.

(** ** The cached embedding model *)

Section EmbedderCache.

Context {M V : Type}.
Variable SentenceTransformer : pystr -> M.
Variable encode : M -> list pystr -> V.

Lemma embed_session_loaded calls m :
  embed_session SentenceTransformer encode calls (Some m)
  = (map (fun c => encode m (fst c)) calls, Some m).
Proof.
  induction calls as [|[texts name] calls IH]; simpl; [done|].
  by rewrite IH.
Qed.

Lemma embed_session_first texts name calls :
  embed_session SentenceTransformer encode ((texts, name) :: calls) None
  = (map (fun c => encode (SentenceTransformer name) (fst c))
       ((texts, name) :: calls),
     Some (SentenceTransformer name)).
Proof. simpl. by rewrite embed_session_loaded. Qed.

End EmbedderCache.

(** X27. The embedding model is loaded once: in calls of [embed_texts]
    one after the other, every call is encoded with the model loaded for
    the model name of the first call, whatever model names the later calls
    give, and the model stays cached. *)
Theorem embed_texts_first_model_wins {M V : Type}
    (SentenceTransformer : pystr -> M) (encode : M -> list pystr -> V)
    (texts : list pystr) (model_name : pystr)
    (calls : list (list pystr * pystr)) :
  embed_session SentenceTransformer encode ((texts, model_name) :: calls) None
  = (map (fun c => encode (SentenceTransformer model_name) (fst c))
       ((texts, model_name) :: calls),
     Some (SentenceTransformer model_name)).
Proof. apply embed_session_first. Qed.

(** ** A streamed response body *)

Section Streamed.

Lemma or_empty_string p : or_empty (JStr p) = JStr p.
Proof. unfold or_empty. simpl. by destruct p. Qed.

Lemma join_items_strings ps : join_items (map JStr ps) = Ok ps.
Proof. induction ps as [|p ps IH]; simpl; [done|]. by rewrite IH. Qed.

Lemma ndjson_lines_pieces lines pieces : forall out,
  Forall2 line_piece lines pieces ->
  ndjson_lines lines out = Ok (out ++ map JStr (pieces_of pieces)).
Proof.
  intros out H. revert out.
  induction H as [|line piece lines pieces Hl _ IH]; intros out; simpl.
  { by rewrite app_nil_r. }
  destruct piece as [p|]; simpl in Hl.
  - destruct Hl as (Hne & data & -> & ->).
    rewrite (proj2 (nonempty_true _) Hne), or_empty_string, IH.
    unfold pieces_of. simpl. by rewrite <- app_assoc.
  - destruct Hl as [E|[E|(data & E & F)]].
    + rewrite E. simpl. apply IH.
    + rewrite E. destruct (nonempty (strip line)); apply IH.
    + rewrite E, F. destruct (nonempty (strip line)); apply IH.
Qed.

Lemma parse_body_of_stream body pieces :
  json_loads (strip body) = Raise JSONDecodeError ->
  Forall2 line_piece (splitlines (strip body)) pieces ->
  pieces_of pieces <> [] ->
  _parse_ollama_response_body body = Ok (strip (join nl (pieces_of pieces))).
Proof.
  intros Hj Hl Hp. unfold _parse_ollama_response_body. rewrite Hj.
  destruct (nonempty (strip body)) eqn:Hne.
  2:{ apply nonempty_false in Hne. rewrite Hne in Hl.
      change (splitlines []) with (@nil pystr) in Hl.
      apply Forall2_nil_inv_l in Hl. by subst. }
  unfold parse_ndjson. rewrite (ndjson_lines_pieces _ _ [] Hl). simpl.
  destruct (pieces_of pieces) as [|p ps] eqn:E; [done|].
  change (map JStr (p :: ps)) with (JStr p :: map JStr ps).
  cbn [join_items]. by rewrite join_items_strings.
Qed.

End Streamed.

(** X28. A streamed body. When the body as a whole is not JSON and its
    lines are JSON objects with a string under "response", apart from
    lines that are blank, not JSON or without a "response", which are
    skipped, [_parse_ollama_response_body] returns the pieces of the
    lines, in order, joined by line feeds (not put end to end), and
    stripped. *)
Theorem parse_body_streamed body pieces :
  json_loads (strip body) = Raise JSONDecodeError ->
  Forall2 line_piece (splitlines (strip body)) pieces ->
  pieces_of pieces <> [] ->
  _parse_ollama_response_body body = Ok (strip (join nl (pieces_of pieces))).
Proof. apply parse_body_of_stream. Qed.

Lemma parse_body_streamed_witness :
  _parse_ollama_response_body streamed_body = Ok (str "Hel" ++ nl ++ str "lo").
Proof.
  apply (parse_body_streamed streamed_body
           [Some (str "Hel"); None; Some (str "lo")]).
  - vm_compute. reflexivity.
  - assert (splitlines (strip streamed_body)
            = [jstr "{'response': 'Hel', 'done': false}"; [];
               jstr "{'response': 'lo', 'done': true}"]) as ->
      by (vm_compute; reflexivity).
    constructor; [|constructor; [|constructor; [|constructor]]].
    + split; [discriminate|].
      exists (JObj [(str "response", JStr (str "Hel"));
                    (str "done", JBool false)]).
      split; vm_compute; reflexivity.
    + left. reflexivity.
    + split; [discriminate|].
      exists (JObj [(str "response", JStr (str "lo"));
                    (str "done", JBool true)]).
      split; vm_compute; reflexivity.
  - discriminate.
Defined.
